(** * plist-diff: structural diff of property lists

    Shallow embedding of [pldiff.go] and [main.go] of WillAbides/plist-diff,
    together with a model of the parts of its dependencies the program's
    behaviour rests on: the comparison engine of [github.com/google/go-cmp]
    (pinned at v0.5.6 by go.mod), the values [howett.net/plist] decodes into
    an [interface{}], and the [io/fs] view of a directory tree. *)

From Stdlib Require Import ZArith List Bool Ascii String Floats DecimalString.
From Stdlib Require Import OrderedTypeEx Sorted.
From stdpp Require Import gmap strings list fin_maps sorting.

Local Open Scope string_scope.
Local Open Scope Z_scope.
Local Open Scope list_scope.

(** ** Go values decoded from a property list *)

Module Value.

(** The dynamic types a decoded plist node can have (plist's
    [valueInterface]), plus [interface{}] itself and the [uint8] elements of
    a [[]byte]. *)
Inductive gotype : Type :=
| TInterface      (* interface {} *)
| TString         (* string *)
| TInt64          (* int64 *)
| TUint64         (* uint64 *)
| TFloat64        (* float64 *)
| TFloat32        (* float32 *)
| TBool           (* bool *)
| TBytes          (* []uint8 *)
| TUint8          (* uint8 *)
| TTime           (* time.Time *)
| TUID            (* plist.UID *)
| TSlice          (* []interface {} *)
| TMap.           (* map[string]interface {} *)

Definition gotype_eq_dec : EqDecision gotype := ltac:(solve_decision).
#[global] Existing Instance gotype_eq_dec.

(** [reflect.Type.String]. *)
Definition gotype_String (t : gotype) : string :=
  match t with
  | TInterface => "interface {}"
  | TString => "string"
  | TInt64 => "int64"
  | TUint64 => "uint64"
  | TFloat64 => "float64"
  | TFloat32 => "float32"
  | TBool => "bool"
  | TBytes => "[]uint8"
  | TUint8 => "uint8"
  | TTime => "time.Time"
  | TUID => "plist.UID"
  | TSlice => "[]interface {}"
  | TMap => "map[string]interface {}"
  end.

(** A decoded node.  A [time.Time] is kept as the instant it denotes (the
    only thing [Time.Equal] looks at); a dictionary as its key/value pairs,
    read through [lookup]. *)
#[local] Unset Elimination Schemes.
Inductive value : Type :=
| VString (s : string)
| VInt (n : Z)
| VUint (n : Z)
| VReal (f : float)
| VReal32 (f : float)
| VBool (b : bool)
| VData (d : list Z)
| VUint8 (b : Z)
| VDate (instant : Z)
| VUID (n : Z)
| VArray (l : list value)
| VDict (m : list (string * value)).
#[local] Set Elimination Schemes.

Definition typeOf (v : value) : gotype :=
  match v with
  | VString _ => TString
  | VInt _ => TInt64
  | VUint _ => TUint64
  | VReal _ => TFloat64
  | VReal32 _ => TFloat32
  | VBool _ => TBool
  | VData _ => TBytes
  | VUint8 _ => TUint8
  | VDate _ => TTime
  | VUID _ => TUID
  | VArray _ => TSlice
  | VDict _ => TMap
  end.

(** Go map indexing on the pair list: the first binding of the key. *)
Fixpoint lookup {A : Type} (k : string) (m : list (string * A)) : option A :=
  match m with
  | [] => None
  | (k', v) :: m' => if String.eqb k k' then Some v else lookup k m'
  end.

Definition keys {A : Type} (m : list (string * A)) : list string := map fst m.

End Value.
Export Value.

(** ** Traversal paths (go-cmp's [cmp.Path]) *)

Module Path.

(** The concrete step types of go-cmp.  A [RootStep] is the bare [pathStep]
    that [cmp.Equal] pushes first; [SliceIndex] carries the two indexes, -1
    standing for a missing side. *)
Inductive StepKind : Type :=
| RootStep
| StructField (name : string)
| SliceIndex (xkey ykey : Z)
| MapIndex (key : string)
| Indirect
| TypeAssertion
| Transform (name : string).

(** [reflect.Value]s are [option value]: [None] is the invalid (zero)
    [reflect.Value]. *)
Record PathStep : Type := mkStep {
  step_kind : StepKind;
  step_type : gotype;
  step_vx : option value;
  step_vy : option value
}.

Definition Values (ps : PathStep) : option value * option value :=
  (step_vx ps, step_vy ps).

Definition Path := list PathStep.

(** [Path.Last]: the last step, or the zero step on an empty path. *)
Definition zeroStep : PathStep := mkStep RootStep TInterface None None.
Definition Last (pa : Path) : PathStep := List.last pa zeroStep.

End Path.
Export Path.

(** ** Rendering of a path *)

Definition tab : string := String "009"%char EmptyString.
Definition nl : string := String "010"%char EmptyString.
Definition dquote : string := String "034"%char EmptyString.
Definition backslash : string := String "092"%char EmptyString.

(** [strings.Repeat] and [strings.Join] with an empty separator. *)
Fixpoint Repeat (s : string) (n : nat) : string :=
  match n with
  | O => EmptyString
  | S n' => s +:+ Repeat s n'
  end.

Definition Join (ss : list string) : string := fold_right String.append "" ss.

(** [strings.ContainsAny]. *)
Fixpoint ContainsAny (s : string) (chars : list ascii) : bool :=
  match s with
  | EmptyString => false
  | String c s' => existsb (Ascii.eqb c) chars || ContainsAny s' chars
  end.

Definition hexDigit (n : N) : string :=
  String (match n with
          | 0 => "0" | 1 => "1" | 2 => "2" | 3 => "3" | 4 => "4" | 5 => "5"
          | 6 => "6" | 7 => "7" | 8 => "8" | 9 => "9" | 10 => "a" | 11 => "b"
          | 12 => "c" | 13 => "d" | 14 => "e" | _ => "f"
          end)%N%char EmptyString.

(** [strconv.Quote] on one byte.  This is exact for ASCII strings.  A byte
    from 128 up is copied, which is what Quote does with the bytes of a
    printable rune; Quote escapes the other runes and the bytes that are
    not valid UTF-8, and no property below computes a quotation of such a
    string. *)
Definition quoteByte (c : ascii) : string :=
  let n := N_of_ascii c in
  match n with
  | 7 => backslash +:+ "a"
  | 8 => backslash +:+ "b"
  | 9 => backslash +:+ "t"
  | 10 => backslash +:+ "n"
  | 11 => backslash +:+ "v"
  | 12 => backslash +:+ "f"
  | 13 => backslash +:+ "r"
  | 34 => backslash +:+ dquote
  | 92 => backslash +:+ backslash
  | _ => if ((n <? 32) || (n =? 127))%N
         then backslash +:+ "x" +:+ hexDigit (n / 16) +:+ hexDigit (n mod 16)
         else String c EmptyString
  end%N.

Fixpoint quoteBody (s : string) : string :=
  match s with
  | EmptyString => EmptyString
  | String c s' => quoteByte c +:+ quoteBody s'
  end.

Definition Quote (s : string) : string := dquote +:+ quoteBody s +:+ dquote.

(** [fmt.Sprintf("%d", n)]. *)
Definition decimal (n : Z) : string := NilZero.string_of_int (Z.to_int n).

(** The [String] method of each step type (go-cmp, path.go). *)
Definition PathStep_String (ps : PathStep) : string :=
  match step_kind ps with
  | RootStep =>
      let s := gotype_String (step_type ps) in
      if String.eqb s "" || ContainsAny s ["{"; "}"; "010"]%char
      then "root"                     (* type too simple or complex to print *)
      else "{" +:+ s +:+ "}"
  | StructField name => "." +:+ name
  | SliceIndex xkey ykey =>
      if (xkey =? ykey)%Z then "[" +:+ decimal xkey +:+ "]"
      else if (ykey =? -1)%Z then "[" +:+ decimal xkey +:+ "->?]"
      else if (xkey =? -1)%Z then "[?->" +:+ decimal ykey +:+ "]"
      else "[" +:+ decimal xkey +:+ "->" +:+ decimal ykey +:+ "]"
  | MapIndex key => "[" +:+ Quote key +:+ "]"
  | Indirect => "*"
  | TypeAssertion => ".(" +:+ gotype_String (step_type ps) +:+ ")"
  | Transform name => name +:+ "()"
  end.

(** The loop state of [simplePathString]. *)
Record spsState : Type := mkSps {
  ssPre : list string;
  ssPost : list string;
  numIndirect : Z
}.

(** One iteration of the loop of [simplePathString] on step [s], where
    [nextStep] is [pa[i+1]] ([None] for Go's nil at the end of the path). *)
Definition simplePathString_step
    (s : PathStep) (nextStep : option PathStep) (st : spsState) : spsState :=
  match step_kind s with
  | Indirect =>
      let numIndirect := numIndirect st + 1 in
      match option_map step_kind nextStep with
      | Some Indirect =>
          (* next step is indirection, so let them batch up *)
          mkSps (ssPre st) (ssPost st) numIndirect
      | next =>
          let numIndirect :=
            match next with
            | Some (StructField _) => numIndirect - 1
            | _ => numIndirect
            end in
          let '(pPre, pPost) :=
            match next with
            | None => ("", "")        (* last step; no need for parenthesis *)
            | _ => ("(", ")")
            end in
          if (0 <? numIndirect)%Z
          then mkSps (ssPre st ++ [pPre +:+ Repeat "*" (Z.to_nat numIndirect)])
                     (ssPost st ++ [pPost]) 0
          else mkSps (ssPre st) (ssPost st) 0
      end
  | Transform name =>
      mkSps (ssPre st ++ [name +:+ "("]) (ssPost st ++ [")"]) (numIndirect st)
  | TypeAssertion => st
  | _ => mkSps (ssPre st) (ssPost st ++ [PathStep_String s]) (numIndirect st)
  end.

Fixpoint simplePathString_loop (pa : Path) (st : spsState) : spsState :=
  match pa with
  | [] => st
  | s :: rest => simplePathString_loop rest (simplePathString_step s (head rest) st)
  end.

Definition simplePathString_finish (st : spsState) : string :=
  Join (rev (ssPre st)) +:+ Join (ssPost st).

Definition simplePathString (pa : Path) : string :=
  simplePathString_finish (simplePathString_loop pa (mkSps [] [] 0)).

(** ** The reporter of [pldiff.go] *)

(** [FileDiff]: one difference between two plists.  An unset [old] or [new]
    is Go's nil interface. *)
Record FileDiff : Type := mkFileDiff {
  path : string;
  old : option value;
  new : option value
}.

(** [cmp.Result], as far as a reporter can observe it. *)
Inductive Result : Type := reportEqual | reportUnequal | reportByIgnore.

Definition Result_Equal (rs : Result) : bool :=
  match rs with
  | reportUnequal => false
  | _ => true
  end.

Record diffReporter : Type := mkReporter {
  rpath : Path;
  diffs : list FileDiff
}.

Definition PushStep (r : diffReporter) (ps : PathStep) : diffReporter :=
  mkReporter (rpath r ++ [ps]) (diffs r).

(** [cmp.Equal] pops only what it pushed, so the path is not empty here. *)
Definition PopStep (r : diffReporter) : diffReporter :=
  mkReporter (removelast (rpath r)) (diffs r).

Definition Report (r : diffReporter) (rs : Result) : diffReporter :=
  if Result_Equal rs then r
  else
    let '(vx, vy) := Values (Last (rpath r)) in
    let diff := mkFileDiff (simplePathString (rpath r)) vx vy in
    mkReporter (rpath r) (diffs r ++ [diff]).

(** ** The comparison engine of go-cmp *)

(** The calls [cmp.Equal] makes on its reporter, in order. *)
Inductive call : Type :=
| callPushStep (ps : PathStep)
| callReport (rs : Result)
| callPopStep.

Definition feed (r : diffReporter) (c : call) : diffReporter :=
  match c with
  | callPushStep ps => PushStep r ps
  | callReport rs => Report r rs
  | callPopStep => PopStep r
  end.

Definition feedAll (r : diffReporter) (cs : list call) : diffReporter :=
  fold_left feed cs r.

(** [diff.Result]: the counters [state.report] keeps. *)
Record diff_Result : Type := mkResult { NumSame : nat; NumDiff : nat }.

Definition diff_Result_Equal (r : diff_Result) : bool := Nat.eqb (NumDiff r) 0.

Definition tally (r : diff_Result) (c : call) : diff_Result :=
  match c with
  | callReport reportEqual => mkResult (S (NumSame r)) (NumDiff r)
  | callReport reportUnequal => mkResult (NumSame r) (S (NumDiff r))
  | _ => r
  end.

Definition resultOf (cs : list call) : diff_Result :=
  fold_left tally cs (mkResult 0 0).

(** [state.report(eq, 0)]. *)
Definition report (eq : bool) : list call :=
  [callReport (if eq then reportEqual else reportUnequal)].

(** The options the program passes: [cmpopts.IgnoreTypes], a path filter on
    the type of the last step, next to the validator every state starts
    with. *)
Inductive Option_ : Type :=
| validator
| IgnoreTypes (tf : list gotype).

Inductive applicableOption : Type := applyIgnore | applyValidator.

Definition IsValid (v : option value) : bool :=
  match v with Some _ => true | None => false end.

Definition Option_filter (opt : Option_) (t : gotype) (vx vy : option value)
  : option applicableOption :=
  match opt with
  | validator =>
      if negb (IsValid vx) || negb (IsValid vy) then Some applyValidator else None
  | IgnoreTypes tf =>
      if existsb (fun ti => bool_decide (t = ti)) tf then Some applyIgnore else None
  end.

(** [Options.filter]: only ignore short-circuits the evaluation. *)
Fixpoint Options_filter (opts : list Option_) (t : gotype) (vx vy : option value)
    (out : option applicableOption) : option applicableOption :=
  match opts with
  | [] => out
  | opt :: rest =>
      match Option_filter opt t vx vy with
      | Some applyIgnore => Some applyIgnore
      | Some applyValidator => Options_filter rest t vx vy (Some applyValidator)
      | None => Options_filter rest t vx vy out
      end
  end.

(** [newState]. *)
Definition newState (opts : list Option_) : list Option_ := validator :: opts.

(** Rule 1 of [compareAny]: the calls made when an option applies. *)
Definition tryOptions (opts : list Option_) (t : gotype) (vx vy : option value)
  : option (list call) :=
  match Options_filter opts t vx vy None with
  | Some applyIgnore => Some [callReport reportByIgnore]
  | Some applyValidator =>
      (* a missing slice element or map entry *)
      Some (report (Bool.eqb (IsValid vx) (IsValid vy)))
  | None => None
  end.

(** Rule 2: of the types at hand only [time.Time] has an [Equal] method. *)
Definition tryMethod (t : gotype) (x y : value) : option (list call) :=
  match t, x, y with
  | TTime, VDate a, VDate b => Some (report (a =? b)%Z)
  | _, _, _ => None
  end.

(** [diff.EditType]. *)
Inductive EditType : Type := Identity | UniqueX | UniqueY | Modified.

(** [strings] sorted the way [value.SortKeys] leaves map keys: ascending,
    each once. *)
Fixpoint insertSorted (k : string) (l : list string) : list string :=
  match l with
  | [] => [k]
  | h :: t => if String.ltb k h then k :: l else h :: insertSorted k t
  end.

Definition sortStrings (vs : list string) : list string :=
  fold_right insertSorted [] vs.

Fixpoint dedupFrom (last : string) (vs : list string) : list string :=
  match vs with
  | [] => []
  | v :: rest =>
      if String.ltb last v then v :: dedupFrom v rest else dedupFrom last rest
  end.

Definition SortKeys (vs : list string) : list string :=
  match sortStrings vs with
  | [] => []
  | v :: rest => v :: dedupFrom v rest
  end.

Section Engine.

(** [diff.Difference] (go-cmp, internal/diff): the edit script between two
    lists of lengths [nx] and [ny] under the equality [f].  The search is
    greedy, budgeted and starts from a random end; the engine below is
    written against the function, and the theorems that need it assume the
    invariant its documentation states, [eq == (es.Dist() == 0)]. *)
Variable Difference : nat -> nat -> (nat -> nat -> diff_Result) -> list EditType.

(** The state's options: [newState] of what [cmp.Equal] was given. *)
Variable opts : list Option_.

(** [compareAny] on a step whose [vx] is valid awaits the rest of the step. *)
Definition comparer : Type := StepKind -> gotype -> option value -> list call.

(** [compareAny] on a step whose [vx] is invalid: the validator applies. *)
Definition compareAnyInvalid (k : StepKind) (t : gotype) (vy : option value)
  : list call :=
  callPushStep (mkStep k t None vy)
  :: match tryOptions opts t None vy with
     | Some cs => cs
     | None => []
     end
  ++ [callPopStep].

Definition callAny (c : option comparer) : comparer :=
  match c with
  | Some f => f
  | None => compareAnyInvalid
  end.

(** Rules 1 to 3 of [compareAny] for a valid [x] of static type [t];
    [rule3] compares by the concrete kind of [x], [iface] is
    [compareInterface]. *)
Definition compareRules (rule3 iface : value -> list call)
    (x : value) (t : gotype) (vy : option value) : list call :=
  match tryOptions opts t (Some x) vy with
  | Some cs => cs
  | None =>
      match vy with
      | None => []
      | Some y =>
          match tryMethod t x y with
          | Some cs => cs
          | None => if bool_decide (t = TInterface) then iface y else rule3 y
          end
      end
  end.

Definition compareStep (rule3 iface : value -> list call)
    (x : value) : comparer :=
  fun k t vy =>
    callPushStep (mkStep k t (Some x) vy)
    :: compareRules rule3 iface x t vy ++ [callPopStep].

(** [compareInterface]: values of different dynamic types differ; values of
    one type are compared under a [TypeAssertion] step of that type. *)
Definition compareInterface (rule3 : value -> list call) (x y : value)
  : list call :=
  if bool_decide (typeOf x = typeOf y)
  then compareStep rule3 (fun _ => []) x TypeAssertion (typeOf x) (Some y)
  else report false.

Definition compareAnyWith (rule3 : value -> list call) (x : value) : comparer :=
  compareStep rule3 (compareInterface rule3 x) x.

Definition statelessCompare (cs : list call) : diff_Result := resultOf cs.

Definition sliceKey (i : option nat) : Z :=
  match i with
  | Some n => Z.of_nat n
  | None => -1
  end.

Section compareSlice.

(** The element type, the comparers of the elements of [vx], and [vy]. *)
Variable elemT : gotype.
Variable cx : list comparer.
Variable ys : list value.

Definition withIndexes (ix iy : option nat) : list call :=
  callAny (ix ≫= (cx !!.)) (SliceIndex (sliceKey ix) (sliceKey iy)) elemT
          (iy ≫= (ys !!.)).

(** The replay of the ignore-scripts and the edit-script.  Every round
    advances [ix] or [iy], so [length cx + length ys] rounds are all the Go
    loop can make.  [diff.Difference] returns a script that covers both
    lists; on one that does not, Go panics (on [edits[0]], or on an index
    past the end) where the replay here stops, or takes the element for
    missing. *)
Fixpoint replay (fuel : nat) (ignoredX ignoredY : list bool)
    (ix iy : nat) (edits : list EditType) : list call :=
  match fuel with
  | O => []
  | S fuel' =>
      if (ix <? length cx)%nat || (iy <? length ys)%nat then
        let '(e, edits') :=
          if nth ix ignoredX false then (Some UniqueX, edits)
          else if nth iy ignoredY false then (Some UniqueY, edits)
          else match edits with
               | e :: rest => (Some e, rest)
               | [] => (None, [])
               end in
        match e with
        | None => []
        | Some UniqueX =>
            withIndexes (Some ix) None
            ++ replay fuel' ignoredX ignoredY (S ix) iy edits'
        | Some UniqueY =>
            withIndexes None (Some iy)
            ++ replay fuel' ignoredX ignoredY ix (S iy) edits'
        | Some _ =>
            withIndexes (Some ix) (Some iy)
            ++ replay fuel' ignoredX ignoredY (S ix) (S iy) edits'
        end
      else []
  end.

(** [compareSlice]: the elements that would be ignored standing alone are
    set aside, the others are aligned by [Difference] (which asks [f] about
    indexes in range only), and both scripts are replayed. *)
Definition compareSlice : list call :=
  let ignored (cs : list call) := Nat.eqb (NumDiff (statelessCompare cs)) 0 in
  let ignoredX :=
    map (fun ix => ignored (withIndexes (Some ix) None)) (seq 0 (length cx)) in
  let ignoredY :=
    map (fun iy => ignored (withIndexes None (Some iy))) (seq 0 (length ys)) in
  let indexesX :=
    filter (fun ix => nth ix ignoredX false = false) (seq 0 (length cx)) in
  let indexesY :=
    filter (fun iy => nth iy ignoredY false = false) (seq 0 (length ys)) in
  let edits :=
    Difference (length indexesX) (length indexesY)
      (fun ix iy =>
         statelessCompare
           (withIndexes (indexesX !! ix) (indexesY !! iy))) in
  replay (length cx + length ys) ignoredX ignoredY 0 0 edits.

End compareSlice.

(** [compareMap]: the keys of both maps, sorted, each compared once.  The
    maps are trees of fresh values, so the cycle check never fires. *)
Definition compareMap (cx : list (string * comparer))
    (my : list (string * value)) : list call :=
  concat
    (map (fun k => callAny (lookup k cx) (MapIndex k) TInterface (lookup k my))
         (SortKeys (keys cx ++ keys my))).

Definition compareUint8 (a : Z) (y : value) : list call :=
  match y with
  | VUint8 b => report (a =? b)
  | _ => []
  end.

(** Rule 3 of [compareAny]: comparison by the kind of the type, for two
    values of one type (other pairs do not reach it). *)
Fixpoint compareKind (x : value) {struct x} : value -> list call :=
  match x with
  | VString a => fun y =>
      match y with VString b => report (String.eqb a b) | _ => [] end
  | VInt a => fun y =>
      match y with VInt b => report (a =? b) | _ => [] end
  | VUint a => fun y =>
      match y with VUint b => report (a =? b) | _ => [] end
  | VReal a => fun y =>
      match y with VReal b => report (PrimFloat.eqb a b) | _ => [] end
  | VReal32 a => fun y =>
      match y with VReal32 b => report (PrimFloat.eqb a b) | _ => [] end
  | VBool a => fun y =>
      match y with VBool b => report (Bool.eqb a b) | _ => [] end
  | VData xs => fun y =>
      match y with
      | VData ys =>
          compareSlice TUint8
            (map (fun a => compareAnyWith (compareUint8 a) (VUint8 a)) xs)
            (map VUint8 ys)
      | _ => []
      end
  | VUint8 a => compareUint8 a
  | VDate _ => fun _ => []
  | VUID a => fun y =>
      match y with VUID b => report (a =? b) | _ => [] end
  | VArray xs => fun y =>
      match y with
      | VArray ys =>
          compareSlice TInterface
            (map (fun x' => compareAnyWith (compareKind x') x') xs) ys
      | _ => []
      end
  | VDict mx => fun y =>
      match y with
      | VDict my =>
          compareMap
            (map (fun kv => (fst kv, compareAnyWith (compareKind (snd kv)) (snd kv)))
                 mx)
            my
      | _ => []
      end
  end.

(** [compareAny] on a step. *)
Definition compareAny (k : StepKind) (t : gotype) (vx vy : option value)
  : list call :=
  callAny (option_map (fun x => compareAnyWith (compareKind x) x) vx) k t vy.

(** [rootStep]: inputs of different types, or a nil one, are wrapped in an
    empty interface. *)
Definition rootType (x y : option value) : gotype :=
  match x, y with
  | Some vx, Some vy =>
      if bool_decide (typeOf vx = typeOf vy) then typeOf vx else TInterface
  | _, _ => TInterface
  end.

(** The reporter calls of [cmp.Equal(x, y, opts...)]. *)
Definition Equal_calls (x y : option value) : list call :=
  compareAny RootStep (rootType x y) x y.

End Engine.

(** ** Errors, files and directory trees *)

(** The errors the program tells apart with [errors.Is]. *)
Inductive error : Type :=
| ErrNotExist
| ErrPermission
| ErrOther (msg : string).

Inductive result (A : Type) : Type :=
| Ok (a : A)
| Err (e : error).
Arguments Ok {A} a.
Arguments Err {A} e.

Definition bind {A B : Type} (r : result A) (f : A -> result B) : result B :=
  match r with
  | Ok a => f a
  | Err e => Err e
  end.

Notation "x <- r ;; k" := (bind r (fun x => k))
  (at level 100, r at next level, right associativity, only parsing).

Definition bytes : Type := list Z.

(** What [fs.WalkDir] hands to its callback for one path: an error, or a
    directory entry, of which the program asks [d.Type().IsRegular()]. *)
Inductive walkEntry : Type :=
| walkErr (e : error)
| walkDirEntry (regular : bool).

(** An [fs.FS]: the calls [fs.WalkDir(fsys, ".", fn)] makes as long as [fn]
    returns nil, and [fs.ReadFile]. *)
Record FS : Type := mkFS {
  WalkDir : list (string * walkEntry);
  ReadFile : string -> result bytes
}.

(** [strings.HasSuffix]. *)
Definition HasSuffix (s suffix : string) : bool :=
  let n := String.length s in
  let m := String.length suffix in
  (m <=? n)%nat && String.eqb (substring (n - m) m s) suffix.

(** [getPlistFiles]: the set of regular files named [*.plist], and the
    error that stopped the walk, if any. *)
Fixpoint getPlistFiles_walk (w : list (string * walkEntry)) (files : gset string)
  : gset string * option error :=
  match w with
  | [] => (files, None)
  | (path, walkErr e) :: _ => (files, Some e)
  | (path, walkDirEntry regular) :: rest =>
      if negb regular then getPlistFiles_walk rest files
      else if negb (HasSuffix path ".plist") then getPlistFiles_walk rest files
      else getPlistFiles_walk rest ({[ path ]} ∪ files)
  end.

Definition getPlistFiles (fSys : FS) : gset string * option error :=
  getPlistFiles_walk (WalkDir fSys) ∅.

(** ** The differ *)

Record differ : Type := mkDiffer {
  IgnorePermissionError : bool;
  IgnoreTimestamps : bool
}.

Definition readFile (d : differ) (fsys : FS) (filename : string) : result bytes :=
  match ReadFile fsys filename with
  | Err ErrNotExist => Ok []
  | Err ErrPermission =>
      if IgnorePermissionError d then Ok [] else Err ErrPermission
  | r => r
  end.

(** [strings.TrimRight(s, "\n")]. *)
Fixpoint TrimRight_nl (s : string) : string :=
  match s with
  | EmptyString => EmptyString
  | String c s' =>
      match TrimRight_nl s' with
      | EmptyString => if Ascii.eqb c "010" then EmptyString else String c EmptyString
      | t => String c t
      end
  end.

Section Program.

Variable Difference : nat -> nat -> (nat -> nat -> diff_Result) -> list EditType.

(** [fmt.Sprintf("%+v", v)] on a decoded value. *)
Variable Sprintf_v : value -> string.

(** [plist.NewDecoder(bytes.NewReader(data)).Decode(&got)]. *)
Variable plist_Decode : bytes -> result value.

(** [cmp.Equal(x, y, append(opts, cmp.Reporter(&r))...)]: the result and the
    reporter afterwards. *)
Definition cmp_Equal (x y : option value) (opts : list Option_)
    (r : diffReporter) : bool * diffReporter :=
  let cs := Equal_calls Difference (newState opts) x y in
  (diff_Result_Equal (resultOf cs), feedAll r cs).

Definition FileDiff_String (d : FileDiff) : string :=
  let s := "" in
  let s :=
    match old d with
    | Some v =>
        s +:+ tab +:+ "-" +:+ path d +:+ ": " +:+ Sprintf_v v
          +:+ " (" +:+ gotype_String (typeOf v) +:+ ")" +:+ nl
    | None => s
    end in
  let s :=
    match new d with
    | Some v =>
        s +:+ tab +:+ "+" +:+ path d +:+ ": " +:+ Sprintf_v v
          +:+ " (" +:+ gotype_String (typeOf v) +:+ ")" +:+ nl
    | None => s
    end in
  s.

Definition diffReporter_String (r : diffReporter) : string :=
  TrimRight_nl
    (fold_left (fun result diff => result +:+ FileDiff_String diff +:+ nl)
               (diffs r) "").

Definition decodePlist (data : bytes) : result value :=
  match plist_Decode data with
  | Err e => Err e
  | Ok got => Ok got
  end.

(** The value [diffPlists] compares for one side: nil when decoding failed. *)
Definition decodedOrNil (data : bytes) : option value :=
  match decodePlist data with
  | Ok v => Some v
  | Err _ => None
  end.

(** [diffPlists]; the third component is its [err] result. *)
Definition diffPlists (oldData newData : bytes) (opts : list Option_)
  : bool * string * option error :=
  let oldList := decodedOrNil oldData in
  let newList := decodedOrNil newData in
  let r := mkReporter [] [] in
  let '(eq, r) := cmp_Equal oldList newList opts r in
  if eq then (true, "", None)
  else (false, diffReporter_String r, None).

(** [diffFSFilename]: [None] is the nil [fmt.Stringer]. *)
Definition diffFSFilename (d : differ) (a b : FS) (filename : string)
  : result (option string) :=
  bData <- readFile d b filename;;
  aData <- readFile d a filename;;
  let opts := [] in
  let opts := if IgnoreTimestamps d then opts ++ [IgnoreTypes [TTime]] else opts in
  match diffPlists aData bData opts with
  | (_, _, Some err) => Err err
  | (eq, delta, None) => if eq then Ok None else Ok (Some delta)
  end.

(** One round of either loop of [diffFS]. *)
Definition diffFS_file (d : differ) (a b : FS)
    (delta : gmap string string) (filename : string)
  : result (gmap string string) :=
  df <- diffFSFilename d a b filename;;
  match df with
  | Some s => Ok (<[filename := s]> delta)
  | None => Ok delta
  end.

Fixpoint diffFS_range (f : gmap string string -> string -> result (gmap string string))
    (filenames : list string) (delta : gmap string string)
  : result (gmap string string) :=
  match filenames with
  | [] => Ok delta
  | filename :: rest => delta' <- f delta filename;; diffFS_range f rest delta'
  end.

(** [diffFS].  Go ranges over the two file sets in an unspecified order;
    here it is the order of [elements]. *)
Definition diffFS (d : differ) (a b : FS) : result (bool * gmap string string) :=
  let delta : gmap string string := ∅ in
  match getPlistFiles a with
  | (_, Some err) => Err err
  | (aFiles, None) =>
      delta <- diffFS_range (diffFS_file d a b) (elements aFiles) delta;;
      match getPlistFiles b with
      | (_, Some err) => Err err
      | (bFiles, None) =>
          delta <- diffFS_range
                    (fun delta filename =>
                       if bool_decide (filename ∈ aFiles) then Ok delta
                       else diffFS_file d a b delta filename)
                    (elements bFiles) delta;;
          Ok (Nat.eqb (size delta) 0, delta)
      end
  end.

End Program.

(** ** The command line ([main.go]) *)

(** [cliRoot] as [kong.Parse] hands it to [run]: the two positional
    arguments and the two boolean fields, each of which kong binds to the
    flag named after it ([--timestamps], [--permissions-errors]) and leaves
    false when the flag is not given. *)
Record cliRoot : Type := mkCli {
  A : string;
  B : string;
  Timestamps : bool;
  PermissionsErrors : bool
}.

(** The differ [run] builds from the parsed command line. *)
Definition run_differ (cli : cliRoot) : differ :=
  {| IgnoreTimestamps := negb (Timestamps cli);
     IgnorePermissionError := negb (PermissionsErrors cli) |}.

(** ** Notions the properties are stated with *)

Definition isIndirect (s : PathStep) : Prop := step_kind s = Indirect.

(** A path that does not end in an indirection; the empty path is one. *)
Definition closedPath (pa : Path) : Prop :=
  forall s, last pa = Some s -> ~ isIndirect s.

(** What the loop does to its state once a run of indirections that brings
    the counter to [total] is followed by [next], not an indirection. *)
Definition flushIndirect (total : Z) (next : option StepKind) (st : spsState)
  : spsState :=
  let n := match next with Some (StructField _) => total - 1 | _ => total end in
  let pPre := match next with None => "" | _ => "(" end in
  let pPost := match next with None => "" | _ => ")" end in
  if 0 <? n
  then mkSps (ssPre st ++ [pPre +:+ Repeat "*" (Z.to_nat n)]) (ssPost st ++ [pPost]) 0
  else mkSps (ssPre st) (ssPost st) 0.

(** The options [diffFSFilename] hands to [diffPlists]. *)
Definition differOpts (ignoreTimestamps : bool) : list Option_ :=
  if ignoreTimestamps then [] ++ [IgnoreTypes [TTime]] else [].

(** A sequence of reporter calls is quiet when none reports a difference. *)
Definition isUnequal (c : call) : bool :=
  match c with
  | callReport reportUnequal => true
  | _ => false
  end.

Definition quiet (cs : list call) : Prop := Forall (fun c => isUnequal c = false) cs.

(** Calls in which every [PushStep] is closed by its [PopStep]. *)
Inductive balanced : list call -> Prop :=
| balanced_nil : balanced []
| balanced_report rs cs : balanced cs -> balanced (callReport rs :: cs)
| balanced_step ps body cs :
    balanced body -> balanced cs ->
    balanced (callPushStep ps :: body ++ callPopStep :: cs).

Definition balancedComparer (c : comparer) : Prop :=
  forall k t vy, balanced (c k t vy).

(** Two values of one shape whose leaves are equal as Go values ([==] on
    reals), timestamps excepted when [exceptTime] is set.  Arrays agree
    index by index, dictionaries key by key, whatever the order in which
    their pairs are listed. *)
#[warnings="-register-all"] Inductive similar (exceptTime : bool) : value -> value -> Prop :=
| sim_String a : similar exceptTime (VString a) (VString a)
| sim_Int a : similar exceptTime (VInt a) (VInt a)
| sim_Uint a : similar exceptTime (VUint a) (VUint a)
| sim_Real a b :
    PrimFloat.eqb a b = true -> similar exceptTime (VReal a) (VReal b)
| sim_Real32 a b :
    PrimFloat.eqb a b = true -> similar exceptTime (VReal32 a) (VReal32 b)
| sim_Bool a : similar exceptTime (VBool a) (VBool a)
| sim_Data a : similar exceptTime (VData a) (VData a)
| sim_Uint8 a : similar exceptTime (VUint8 a) (VUint8 a)
| sim_Date a b :
    exceptTime = true \/ a = b -> similar exceptTime (VDate a) (VDate b)
| sim_UID a : similar exceptTime (VUID a) (VUID a)
| sim_Array xs ys :
    Forall2 (similar exceptTime) xs ys ->
    similar exceptTime (VArray xs) (VArray ys)
| sim_Dict mx my :
    (forall k, option_Forall2 (similar exceptTime) (lookup k mx) (lookup k my)) ->
    similar exceptTime (VDict mx) (VDict my).

(** Values that differ in timestamps only. *)
Definition sameButTimestamps (x y : value) : Prop := similar true x y.

(** A value no real of which is a NaN. *)
Fixpoint noNaN (v : value) {struct v} : Prop :=
  match v with
  | VReal f | VReal32 f => PrimFloat.is_nan f = false
  | VArray l =>
      (fix go (l : list value) : Prop :=
         match l with
         | [] => True
         | x :: l' => noNaN x /\ go l'
         end) l
  | VDict m =>
      (fix go (m : list (string * value)) : Prop :=
         match m with
         | [] => True
         | kv :: m' => noNaN (snd kv) /\ go m'
         end) m
  | _ => True
  end.

(** The invariant of [diff.Difference] the properties rest on: lists that
    are equal element by element get the all-identity script. *)
Definition DifferenceSpec
    (Difference : nat -> nat -> (nat -> nat -> diff_Result) -> list EditType)
  : Prop :=
  forall (n : nat) (f : nat -> nat -> diff_Result),
    (forall i, (i < n)%nat -> diff_Result_Equal (f i i) = true) ->
    Difference n n f = repeat Identity n.

Fixpoint countUnequal (cs : list call) : nat :=
  match cs with
  | [] => 0
  | c :: cs' => (if isUnequal c then 1 else 0) + countUnequal cs'
  end.

(** The order [value.SortKeys] sorts string keys by. *)
Definition slt (a b : string) : Prop := String.ltb a b = true.
Definition sle (a b : string) : Prop := String.ltb b a = false.

(** The calls for the entries of a dictionary compared with itself. *)
Definition sameEntry
    (Difference : nat -> nat -> (nat -> nat -> diff_Result) -> list EditType)
    (b : bool) (m : list (string * value)) (k : string)
  : list call :=
  callAny (newState (differOpts b))
    (option_map
       (fun v => compareAnyWith (newState (differOpts b))
                   (compareKind Difference (newState (differOpts b)) v) v)
       (lookup k m))
    (MapIndex k) TInterface (lookup k m).

(** One round of a loop of [diffFS] that skips the files [skip] holds of;
    the first loop skips none, the second those of the first. *)
Definition diffFS_round
    (Difference : nat -> nat -> (nat -> nat -> diff_Result) -> list EditType)
    (Sprintf_v : value -> string) (plist_Decode : bytes -> result value)
    (d : differ) (a b : FS) (skip : string -> bool)
    (delta : gmap string string) (filename : string)
  : result (gmap string string) :=
  if skip filename then Ok delta
  else diffFS_file Difference Sprintf_v plist_Decode d a b delta filename.

(** The differences [diffFSFilename] finds between the two sides of a file
    both of which can be read. *)
Definition fileDiffs
    (Difference : nat -> nat -> (nat -> nat -> diff_Result) -> list EditType)
    (plist_Decode : bytes -> result value)
    (d : differ) (aData bData : bytes) : list FileDiff :=
  diffs (snd (cmp_Equal Difference
                (decodedOrNil plist_Decode aData) (decodedOrNil plist_Decode bData)
                (differOpts (IgnoreTimestamps d)) (mkReporter [] []))).

(** ** Sample collaborators

    Concrete instances of what the development is parametric in, used to
    run it on explicit inputs. *)

(** An edit script that pairs the two lists index by index. *)
Definition alignedScript (nx ny : nat) (f : nat -> nat -> diff_Result)
  : list EditType :=
  map (fun i => if diff_Result_Equal (f i i) then Identity else Modified)
      (seq 0 (Nat.min nx ny))
  ++ repeat UniqueX (nx - ny) ++ repeat UniqueY (ny - nx).

(** A decoder of a toy format: a tag byte, then one operand.  Like the
    decoder of [howett.net/plist] it takes empty data for an empty
    dictionary. *)
Definition sampleDecode (data : bytes) : result value :=
  match data with
  | [] => Ok (VDict [])
  | [1; n] => Ok (VUint n)
  | [2; t] => Ok (VDate t)
  | [3] => Ok (VReal nan)
  | [4; n] => Ok (VDict [("x", VUint n)])
  | [5; t; n] => Ok (VDict [("at", VDate t); ("xs", VArray [VUint n; VDate t])])
  | [6; t; n] => Ok (VDict [("xs", VArray [VUint n; VDate t]); ("at", VDate t)])
  | _ => Err (ErrOther "plist: invalid data")
  end.

Definition sampleSprintf (v : value) : string :=
  match v with
  | VUint n => decimal n
  | VString s => s
  | VDict [] => "map[]"
  | _ => "?"
  end.

(** A tree given by its regular files; other paths do not exist. *)
Definition sampleFS (files : list (string * result bytes)) : FS :=
  mkFS (map (fun f => (fst f, walkDirEntry true)) files)
       (fun filename =>
          match lookup filename files with
          | Some r => r
          | None => Err ErrNotExist
          end).

Definition indirectStep : PathStep := mkStep Indirect TInterface None None.
Definition mapIndexStep (key : string) : PathStep :=
  mkStep (MapIndex key) TInterface None None.
Definition structFieldStep (name : string) : PathStep :=
  mkStep (StructField name) TInterface None None.
Definition typeAssertionStep (t : gotype) : PathStep :=
  mkStep TypeAssertion t None None.

(** A path that ends in a map key: [root["a"]]. *)
Definition samplePre : Path :=
  [mkStep RootStep TMap None None; mapIndexStep "a"].

Definition sampleDiffer : differ := mkDiffer true true.
Definition strictDiffer : differ := mkDiffer false true.

Definition sampleOld : FS :=
  sampleFS [("a.plist", Ok [4; 1]); ("c.txt", Ok [1; 1]); ("e.plist", Ok [9]);
            ("t.plist", Ok [5; 1; 2]); ("u.plist", Ok [9])].
Definition sampleNew : FS :=
  sampleFS [("a.plist", Ok [4; 2]); ("c.txt", Ok [1; 2]);
            ("t.plist", Ok [6; 3; 2]); ("u.plist", Ok [9; 9])].
Definition sampleDenied : FS := sampleFS [("a.plist", Err ErrPermission)].

Definition sampleDelta : gmap string string :=
  {[ "a.plist" :=
       tab +:+ "-root[" +:+ dquote +:+ "x" +:+ dquote +:+ "]: 1 (uint64)" +:+ nl
       +:+ tab +:+ "+root[" +:+ dquote +:+ "x" +:+ dquote +:+ "]: 2 (uint64)";
     "e.plist" := tab +:+ "+root: map[] (map[string]interface {})" ]}.

Definition sampleValue (t : Z) : value :=
  VDict [("at", VDate t); ("xs", VArray [VUint 2; VDate t])].

(** The same dictionary with its pairs listed the other way round. *)
Definition sampleSwapped (t : Z) : value :=
  VDict [("xs", VArray [VUint 2; VDate t]); ("at", VDate t)].

(** Dictionaries that hold a NaN. *)
Definition sampleNaN (t : Z) : list (string * value) :=
  [("f", VReal nan); ("t", VDate t)].
Definition sampleNaNAdded : list (string * value) :=
  [("f", VReal nan); ("t", VDate 1); ("k", VUint 1)].

Definition sampleDictOld : list (string * value) := [("a", VUint 1)].
Definition sampleDictNew : list (string * value) :=
  [("a", VUint 1); ("b", VBool true)].


(** * The rest of the program *)

(** ** Rendering a diff set ([fsDiff.String]) *)

(** The block of one file: [fmt.Sprintf("%s:\n%s\n\n", filename, f[filename])]. *)
Definition fsDiff_block (f : gmap string string) (filename : string) : string :=
  filename +:+ ":" +:+ nl +:+ default "" (f !! filename) +:+ nl +:+ nl.

(** [fsDiff.String]; [filenames] is the slice the range over the map fills,
    its keys in the order Go happens to visit them, before [sort.Strings]. *)
Definition fsDiff_String (filenames : list string) (f : gmap string string)
  : string :=
  fold_left (fun s filename => s +:+ fsDiff_block f filename)
            (sortStrings filenames) "".

(** ** [diffFS] under any range order *)

Section ProgramOrder.

Variable Difference : nat -> nat -> (nat -> nat -> diff_Result) -> list EditType.
Variable Sprintf_v : value -> string.
Variable plist_Decode : bytes -> result value.

(** [diffFS] where the two ranges visit the file sets in the orders
    [orderA] and [orderB]. *)
Definition diffFS_in (orderA orderB : gset string -> list string)
    (d : differ) (a b : FS) : result (bool * gmap string string) :=
  let delta : gmap string string := ∅ in
  match getPlistFiles a with
  | (_, Some err) => Err err
  | (aFiles, None) =>
      delta <- diffFS_range
                 (diffFS_file Difference Sprintf_v plist_Decode d a b)
                 (orderA aFiles) delta;;
      match getPlistFiles b with
      | (_, Some err) => Err err
      | (bFiles, None) =>
          delta <- diffFS_range
                    (fun delta filename =>
                       if bool_decide (filename ∈ aFiles) then Ok delta
                       else diffFS_file Difference Sprintf_v plist_Decode
                              d a b delta filename)
                    (orderB bFiles) delta;;
          Ok (Nat.eqb (size delta) 0, delta)
      end
  end.

End ProgramOrder.

(** ** Trees from the operating system ([getFS], [differ.diff], [run]) *)

(** What the program asks of [os.Stat]'s result. *)
Record FileInfo : Type := mkFileInfo {
  IsDir : bool;                  (* stat.IsDir() *)
  IsRegular : bool               (* stat.Mode().IsRegular() *)
}.

(** The operating system as [getFS] uses it. *)
Record OS : Type := mkOS {
  os_Stat : string -> result FileInfo;
  os_DirFS : string -> FS;
  os_ReadFile : string -> result bytes
}.

(** The [memfs] tree [getFS] builds for a single regular file: the root
    directory and one regular file under a fixed name. *)
Definition singleFileFS (data : bytes) : FS :=
  mkFS [(".", walkDirEntry false); ("single-file.plist", walkDirEntry true)]
       (fun filename =>
          if String.eqb filename "single-file.plist" then Ok data
          else if String.eqb filename "." then Err (ErrOther "is a directory")
          else Err ErrNotExist).

Definition getFS (os : OS) (path : string) : result FS :=
  stat <- os_Stat os path;;
  if IsDir stat then Ok (os_DirFS os path)
  else if negb (IsRegular stat)
  then Err (ErrOther (path +:+ " is neither a director nor regular file"))
  else
    data <- os_ReadFile os path;;
    Ok (singleFileFS data).

Section ProgramOS.

Variable Difference : nat -> nat -> (nat -> nat -> diff_Result) -> list EditType.
Variable Sprintf_v : value -> string.
Variable plist_Decode : bytes -> result value.

(** [differ.diff]. *)
Definition differ_diff (os : OS) (d : differ) (a b : string)
  : result (bool * gmap string string) :=
  fsA <- getFS os a;;
  fsB <- getFS os b;;
  diffFS Difference Sprintf_v plist_Decode d fsA fsB.

(** [run] when a second tree is given ([cli.B] is not empty): what it
    writes to standard output, or the error it returns.  [order] lists the
    keys of the diff set the way the range in [fsDiff.String] visits them. *)
Definition run_diff (os : OS) (order : gmap string string -> list string)
    (cli : cliRoot) : result string :=
  let d := run_differ cli in
  r <- differ_diff os d (A cli) (B cli);;
  let '(eq, diff) := r in
  if eq then Ok ""
  else Ok (fsDiff_String (order diff) diff +:+ nl).

End ProgramOS.

(** ** The reporter under Go's bounds checks *)

(** [PopStep] as Go runs it: slicing an empty path panics ([None]). *)
Definition PopStep_checked (r : diffReporter) : option diffReporter :=
  match rpath r with
  | [] => None
  | _ => Some (PopStep r)
  end.

Definition feed_checked (r : diffReporter) (c : call) : option diffReporter :=
  match c with
  | callPopStep => PopStep_checked r
  | _ => Some (feed r c)
  end.

Fixpoint feedAll_checked (r : diffReporter) (cs : list call)
  : option diffReporter :=
  match cs with
  | [] => Some r
  | c :: cs' =>
      match feed_checked r c with
      | Some r' => feedAll_checked r' cs'
      | None => None
      end
  end.

(** ** Notions for the further properties *)

(** The calls [cs], made while the reporter's path is [p], report a
    difference only at paths [Site] holds of. *)
Inductive scoped (Site : Path -> Prop) : Path -> list call -> Prop :=
| scoped_nil p : scoped Site p []
| scoped_report p rs cs :
    (rs = reportUnequal -> Site p) -> scoped Site p cs ->
    scoped Site p (callReport rs :: cs)
| scoped_step p ps body cs :
    scoped Site (p ++ [ps]) body -> scoped Site p cs ->
    scoped Site p (callPushStep ps :: body ++ callPopStep :: cs).

(** The steps the engine pushes below the root on decoded plists. *)
Definition plainKind (k : StepKind) : bool :=
  match k with
  | SliceIndex _ _ | MapIndex _ | TypeAssertion => true
  | _ => false
  end.

(** A path from the step [root] through map, slice and type-assertion
    steps. *)
Definition rootedPath (root : PathStep) (p : Path) : Prop :=
  exists rest,
    p = root :: rest /\ Forall (fun s => plainKind (step_kind s) = true) rest.

(** A step that holds a value on at least one side. *)
Definition sidedStep (ps : PathStep) : bool :=
  IsValid (step_vx ps) || IsValid (step_vy ps).

Definition reportSite (root : PathStep) (p : Path) : Prop :=
  rootedPath root p /\ sidedStep (Last p) = true.

(** The root step of [cmp.Equal(x, y)] and its text. *)
Definition rootStepOf (x y : option value) : PathStep :=
  mkStep RootStep (rootType x y) x y.

(** A step that [simplePathString] renders by its own text or not at all:
    neither an indirection nor a transformation. *)
Definition ownText (s : PathStep) : bool :=
  match step_kind s with
  | Indirect | Transform _ => false
  | _ => true
  end.

(** The texts of the steps of a path that are not type assertions. *)
Definition stepTexts (p : Path) : list string :=
  flat_map (fun s => match step_kind s with
                     | TypeAssertion => []
                     | _ => [PathStep_String s]
                     end) p.

(** Go's [==] on two scalars of one type. *)
Definition goEqual (x y : value) : bool :=
  match x, y with
  | VString a, VString b => String.eqb a b
  | VInt a, VInt b => a =? b
  | VUint a, VUint b => a =? b
  | VReal a, VReal b => PrimFloat.eqb a b
  | VReal32 a, VReal32 b => PrimFloat.eqb a b
  | VBool a, VBool b => Bool.eqb a b
  | VUint8 a, VUint8 b => a =? b
  | VUID a, VUID b => a =? b
  | _, _ => false
  end.

Definition isScalar (v : value) : bool :=
  match v with
  | VString _ | VInt _ | VUint _ | VReal _ | VReal32 _ | VBool _
  | VUint8 _ | VUID _ => true
  | _ => false
  end.

(** Two values the comparison reports as one difference where they stand:
    values of different types, unequal scalars of one type, and unequal
    timestamps when timestamps are compared. *)
Definition differsHere (ignoreTimestamps : bool) (x y : value) : bool :=
  if bool_decide (typeOf x = typeOf y) then
    match x, y with
    | VDate a, VDate b => negb ignoreTimestamps && negb (a =? b)
    | _, _ => isScalar x && negb (goEqual x y)
    end
  else true.

(** The directory entries [fs.WalkDir] hands over before its first error,
    each with whether it is a regular file, and that error. *)
Fixpoint beforeError (w : list (string * walkEntry)) : list (string * bool) :=
  match w with
  | [] => []
  | (_, walkErr _) :: _ => []
  | (path, walkDirEntry regular) :: rest => (path, regular) :: beforeError rest
  end.

Fixpoint firstError (w : list (string * walkEntry)) : option error :=
  match w with
  | [] => None
  | (_, walkErr e) :: _ => Some e
  | (_, walkDirEntry _) :: rest => firstError rest
  end.

(** The pairs of [m] under keys other than [k]. *)
Definition removeKey (k : string) (m : list (string * value))
  : list (string * value) :=
  List.filter (fun kv => negb (String.eqb (fst kv) k)) m.

(** A comparer whose calls, below a rooted path, are scoped. *)
Definition scopedComparer (root : PathStep) (c : comparer) : Prop :=
  forall p k t vy, rootedPath root p -> plainKind k = true ->
                   scoped (reportSite root) p (c k t vy).

(** One line of [FileDiff.String] without its newline; [sign] is ["-"] for
    the old value and ["+"] for the new one. *)
Definition diffLine (Sprintf_v : value -> string) (sign path : string)
    (v : value) : string :=
  tab +:+ sign +:+ path +:+ ": " +:+ Sprintf_v v
    +:+ " (" +:+ gotype_String (typeOf v) +:+ ")".

(** The text [diffReporter.String] builds before it trims it. *)
Definition untrimmed (Sprintf_v : value -> string) (r : diffReporter)
  : string :=
  fold_left (fun result diff => result +:+ FileDiff_String Sprintf_v diff +:+ nl)
            (diffs r) "".

(** The differences that report the keys [ks] of the dictionary [m] as
    added. *)
Definition addedKeys (m : list (string * value)) (ks : list string)
  : list FileDiff :=
  map (fun k => mkFileDiff ("root[" +:+ Quote k +:+ "]") None (lookup k m)) ks.

(** ** Further sample inputs *)

(** A range that visits a set from its last element to its first. *)
Definition reversedOrder (X : gset string) : list string :=
  reverse (elements X).

(** The keys of a diff set as [elements] lists them. *)
Definition keysOrder (m : gmap string string) : list string :=
  elements (dom m).

Definition samplePath : Path :=
  [mkStep RootStep TMap None None; mapIndexStep "k"; typeAssertionStep TString].

Definition sampleDictChanged : list (string * value) := [("a", VUint 2)].

Definition sampleAdded : FileDiff :=
  mkFileDiff ("root[" +:+ Quote "b" +:+ "]") None (Some (VBool true)).

Definition sampleReporter : diffReporter :=
  mkReporter [] [mkFileDiff "root" None (Some (VUint 7));
                 mkFileDiff "root[0]" (Some (VUint 1)) (Some (VUint 2))].

Definition sampleEmptyTree : FS := sampleFS [].
Definition sampleOnlyNew : FS := sampleFS [("n.plist", Ok [4; 7])].
Definition sampleBroken : FS := sampleFS [("n.plist", Ok [9])].
Definition sampleMended : FS := sampleFS [("n.plist", Ok [1; 7])].

(** A tree two plist files of which cannot be read. *)
Definition sampleUnreadable : FS :=
  sampleFS [("a.plist", Err ErrPermission);
            ("b.plist", Err (ErrOther "input/output error"))].

(** Two regular files whose names do not end in [.plist]. *)
Definition sampleOS : OS :=
  mkOS (fun path =>
          if String.eqb path "old.bin" || String.eqb path "new.bin"
          then Ok (mkFileInfo false true) else Err ErrNotExist)
       (fun _ => sampleEmptyTree)
       (fun path =>
          if String.eqb path "old.bin" then Ok [4; 1]
          else if String.eqb path "new.bin" then Ok [4; 2]
          else Err ErrNotExist).

Definition sampleCli : cliRoot := mkCli "old.bin" "new.bin" false false.

(** Two regular files that hold a timestamp each, and a command line with
    [--timestamps] set. *)
Definition sampleOSDates : OS :=
  mkOS (fun path =>
          if String.eqb path "old.bin" || String.eqb path "new.bin"
          then Ok (mkFileInfo false true) else Err ErrNotExist)
       (fun _ => sampleEmptyTree)
       (fun path =>
          if String.eqb path "old.bin" then Ok [2; 1]
          else if String.eqb path "new.bin" then Ok [2; 3]
          else Err ErrNotExist).

Definition sampleCliTimes : cliRoot := mkCli "old.bin" "new.bin" true false.
(** * Properties *)

(** ** Induction on values *)

Lemma value_ind (P : value -> Prop)
  (HString : forall s, P (VString s))
  (HInt : forall n, P (VInt n))
  (HUint : forall n, P (VUint n))
  (HReal : forall f, P (VReal f))
  (HReal32 : forall f, P (VReal32 f))
  (HBool : forall b, P (VBool b))
  (HData : forall d, P (VData d))
  (HUint8 : forall b, P (VUint8 b))
  (HDate : forall t, P (VDate t))
  (HUID : forall n, P (VUID n))
  (HArray : forall l, Forall P l -> P (VArray l))
  (HDict : forall m, Forall (fun kv => P (snd kv)) m -> P (VDict m)) :
  forall v, P v.
Proof.
  fix IH 1. intros [s|n|n|f|f|b|d|b|t|n|l|m];
    [apply HString|apply HInt|apply HUint|apply HReal|apply HReal32|apply HBool
    |apply HData|apply HUint8|apply HDate|apply HUID| |].
  - apply HArray. induction l as [|x l IHl]; constructor; [apply IH|apply IHl].
  - apply HDict. induction m as [|[k x] m IHm]; constructor; [apply IH|apply IHm].
Qed.

Lemma similar_array b xs ys :
  similar b (VArray xs) (VArray ys) <-> Forall2 (similar b) xs ys.
Proof. split; [by inversion 1|apply sim_Array]. Qed.

Lemma similar_dict b mx my :
  similar b (VDict mx) (VDict my)
  <-> forall k, option_Forall2 (similar b) (lookup k mx) (lookup k my).
Proof. split; [by inversion 1|apply sim_Dict]. Qed.

Lemma lookup_Forall {X : Type} (P : X -> Prop) k (m : list (string * X)) x :
  Forall (fun kv => P (snd kv)) m -> lookup k m = Some x -> P x.
Proof.
  induction 1 as [|[k' v'] m Hv _ IH]; simpl; [done|].
  destruct (String.eqb k k'); [|done]. by intros [= <-].
Qed.

Lemma noNaN_array l : noNaN (VArray l) <-> Forall noNaN l.
Proof.
  induction l as [|x l IH]; simpl; split; try done.
  - intros [H1 H2]. constructor; [done|]. by apply IH.
  - inversion 1; subst. split; [done|]. by apply IH.
Qed.

Lemma noNaN_dict m : noNaN (VDict m) <-> Forall (fun kv => noNaN (snd kv)) m.
Proof.
  induction m as [|x l IH]; simpl; split; try done.
  - intros [H1 H2]. constructor; [done|]. by apply IH.
  - inversion 1; subst. split; [done|]. by apply IH.
Qed.

Lemma noNaN_similar b v : noNaN v -> similar b v v.
Proof.
  induction v as [| | |f|f| | | | | |l IH|m IH] using value_ind;
    try (intros _; by constructor).
  - simpl. unfold PrimFloat.is_nan. intros ?%negb_false_iff. by constructor.
  - simpl. unfold PrimFloat.is_nan. intros ?%negb_false_iff. by constructor.
  - intros _. constructor. by right.
  - rewrite noNaN_array, similar_array. intros H.
    induction IH as [|x l Hx IH IHl]; [constructor|].
    inversion H; subst. constructor; auto.
  - rewrite noNaN_dict, similar_dict. intros H k.
    destruct (lookup k m) as [x|] eqn:E; constructor.
    apply (lookup_Forall (fun v => noNaN v -> similar b v v) k m x IH E).
    apply (lookup_Forall noNaN k m x H E).
Qed.

Lemma similar_typeOf b x y : similar b x y -> typeOf x = typeOf y.
Proof. by inversion 1. Qed.


(** ** Reporter calls *)

Lemma feedAll_app r cs1 cs2 :
  feedAll r (cs1 ++ cs2) = feedAll (feedAll r cs1) cs2.
Proof. apply fold_left_app. Qed.

Lemma feedAll_cons r c cs : feedAll r (c :: cs) = feedAll (feed r c) cs.
Proof. done. Qed.

Lemma feed_diffs_length r c :
  length (diffs (feed r c)) = (length (diffs r) + (if isUnequal c then 1 else 0))%nat.
Proof.
  destruct c as [ps|[]|]; simpl; unfold Report, Values; simpl; try lia.
  rewrite length_app. simpl. lia.
Qed.

Lemma feedAll_diffs_length r cs :
  length (diffs (feedAll r cs)) = (length (diffs r) + countUnequal cs)%nat.
Proof.
  revert r; induction cs as [|c cs IH]; intros r; [simpl; lia|].
  rewrite feedAll_cons, IH, feed_diffs_length. simpl. lia.
Qed.

Lemma tally_NumDiff r c :
  NumDiff (tally r c) = (NumDiff r + (if isUnequal c then 1 else 0))%nat.
Proof. destruct c as [ps|[]|]; simpl; lia. Qed.

Lemma fold_tally_NumDiff r cs :
  NumDiff (fold_left tally cs r) = (NumDiff r + countUnequal cs)%nat.
Proof.
  revert r; induction cs as [|c cs IH]; intros r; simpl; [lia|].
  rewrite IH, tally_NumDiff. lia.
Qed.

Lemma resultOf_NumDiff cs : NumDiff (resultOf cs) = countUnequal cs.
Proof. unfold resultOf. by rewrite fold_tally_NumDiff. Qed.

Lemma countUnequal_quiet cs : countUnequal cs = 0%nat <-> quiet cs.
Proof.
  unfold quiet. induction cs as [|c cs IH]; simpl.
  - split; [constructor|done].
  - rewrite Forall_cons, <- IH. destruct (isUnequal c); simpl; split;
      try lia; try (by intros [[=] _]); by intros.
Qed.

Lemma countUnequal_app cs1 cs2 :
  countUnequal (cs1 ++ cs2) = (countUnequal cs1 + countUnequal cs2)%nat.
Proof. induction cs1 as [|c cs1 IH]; simpl; [done|]. rewrite IH. lia. Qed.

Lemma resultOf_Equal_quiet cs : diff_Result_Equal (resultOf cs) = true <-> quiet cs.
Proof.
  unfold diff_Result_Equal. rewrite resultOf_NumDiff, <- countUnequal_quiet.
  apply Nat.eqb_eq.
Qed.

Lemma quiet_app cs1 cs2 : quiet (cs1 ++ cs2) <-> quiet cs1 /\ quiet cs2.
Proof. apply Forall_app. Qed.

Lemma quiet_concat css : quiet (concat css) <-> Forall quiet css.
Proof.
  induction css as [|cs css IH]; simpl.
  - split; constructor.
  - rewrite quiet_app, Forall_cons, IH. done.
Qed.

Lemma feed_quiet r c : isUnequal c = false -> diffs (feed r c) = diffs r.
Proof. destruct c as [ps|[]|]; simpl; done. Qed.

Lemma feedAll_quiet r cs : quiet cs -> diffs (feedAll r cs) = diffs r.
Proof.
  intros H; revert r. induction H as [|c cs Hc Hcs IH]; intros r; [done|].
  by rewrite feedAll_cons, IH, feed_quiet.
Qed.

Lemma balanced_app cs1 cs2 : balanced cs1 -> balanced cs2 -> balanced (cs1 ++ cs2).
Proof.
  induction 1 as [|rs cs H IH|ps body cs Hb IHb Hc IHc]; intros H2; simpl.
  - done.
  - constructor. by apply IH.
  - rewrite <- app_assoc. simpl. constructor; [done|]. by apply IHc.
Qed.

Lemma balanced_concat css : Forall balanced css -> balanced (concat css).
Proof.
  induction 1 as [|cs css H Hs IH]; simpl; [constructor|]. by apply balanced_app.
Qed.

Lemma balanced_push ps body : balanced body -> balanced (callPushStep ps :: body ++ [callPopStep]).
Proof. intros H. apply balanced_step; [done|constructor]. Qed.

Lemma balanced_report1 b : balanced (report b).
Proof. repeat constructor. Qed.

Lemma feedAll_balanced_path r cs : balanced cs -> rpath (feedAll r cs) = rpath r.
Proof.
  intros H; revert r.
  induction H as [|rs cs H IH|ps body cs Hb IHb Hc IHc]; intros r.
  - done.
  - rewrite feedAll_cons, IH. simpl. unfold Report, Values.
    by destruct (Result_Equal rs).
  - change (callPushStep ps :: body ++ callPopStep :: cs)
      with ([callPushStep ps] ++ body ++ [callPopStep] ++ cs).
    rewrite !feedAll_app, IHc. simpl. rewrite IHb. simpl.
    apply removelast_last.
Qed.

(** Feeding balanced, quiet calls leaves a reporter as it was. *)
Lemma feedAll_balanced_quiet r cs : balanced cs -> quiet cs -> feedAll r cs = r.
Proof.
  intros Hb Hq. pose proof (feedAll_balanced_path r cs Hb) as Hp.
  pose proof (feedAll_quiet r cs Hq) as Hd.
  destruct (feedAll r cs), r; simpl in *; by subst.
Qed.

(** ** Sorted map keys *)

Lemma slt_lt a b : slt a b <-> String_as_OT.lt a b.
Proof.
  unfold slt, String.ltb. rewrite <- String_as_OT.cmp_lt.
  unfold String_as_OT.cmp. destruct (String.compare a b); split; done.
Qed.

Lemma slt_irrefl a : ~ slt a a.
Proof. rewrite slt_lt. intros H. by apply String_as_OT.lt_not_eq in H. Qed.

Lemma slt_trans a b c : slt a b -> slt b c -> slt a c.
Proof. rewrite !slt_lt. apply String_as_OT.lt_trans. Qed.

Lemma slt_sle a b : slt a b -> sle a b.
Proof.
  intros H. unfold sle. destruct (String.ltb b a) eqn:E; [|done].
  destruct (slt_irrefl a). by eapply slt_trans.
Qed.

Lemma sle_antisym a b : sle a b -> sle b a -> a = b.
Proof.
  unfold sle, String.ltb. intros H1 H2.
  apply String_as_OT.cmp_eq. unfold String_as_OT.cmp.
  rewrite String_as_OT.cmp_antisym in H1. unfold String_as_OT.cmp in H1.
  destruct (String.compare a b); simpl in *; done.
Qed.

Lemma insertSorted_elem x k l : x ∈ insertSorted k l <-> x = k \/ x ∈ l.
Proof.
  induction l as [|h t IH]; simpl.
  - rewrite list_elem_of_singleton, elem_of_nil. tauto.
  - destruct (String.ltb k h); rewrite !elem_of_cons, ?IH; tauto.
Qed.

Lemma sortStrings_elem x l : x ∈ sortStrings l <-> x ∈ l.
Proof.
  induction l as [|h t IH]; simpl; [done|].
  rewrite insertSorted_elem, IH, elem_of_cons. done.
Qed.

Lemma insertSorted_sorted k l : Sorted sle l -> Sorted sle (insertSorted k l).
Proof.
  induction 1 as [|h t Ht IH Hhd]; simpl; [by repeat constructor|].
  destruct (String.ltb k h) eqn:E.
  - constructor; [by constructor|]. constructor. by apply slt_sle.
  - constructor; [done|].
    destruct t as [|h' t]; simpl in *.
    + by constructor.
    + destruct (String.ltb k h'); constructor; [done|]. by inversion Hhd.
Qed.

Lemma sortStrings_sorted l : Sorted sle (sortStrings l).
Proof.
  induction l as [|h t IH]; simpl; [constructor|]. by apply insertSorted_sorted.
Qed.

Lemma dedupFrom_elem x last vs : x ∈ dedupFrom last vs -> x ∈ vs.
Proof.
  revert last; induction vs as [|v vs IH]; intros last; simpl; [done|].
  destruct (String.ltb last v); rewrite ?elem_of_cons; [intros [|]|]; eauto.
Qed.

Lemma dedupFrom_complete x last vs :
  Sorted sle (last :: vs) -> x ∈ vs -> x = last \/ x ∈ dedupFrom last vs.
Proof.
  revert last; induction vs as [|v vs IH]; intros last Hs; [by inversion 1|].
  inversion Hs as [|?? Hs' Hhd]; subst. inversion Hhd as [|?? Hle]; subst.
  simpl. destruct (String.ltb last v) eqn:E.
  - rewrite !elem_of_cons. intros [->|Hx]; [by auto|].
    destruct (IH v Hs' Hx); auto.
  - assert (v = last) as -> by (by apply sle_antisym).
    rewrite elem_of_cons. intros [->|Hx]; [by auto|]. by apply IH.
Qed.

Lemma dedupFrom_sorted last vs : Sorted slt (last :: dedupFrom last vs).
Proof.
  revert last; induction vs as [|v vs IH]; intros last; simpl.
  - by repeat constructor.
  - destruct (String.ltb last v) eqn:E; [|done].
    constructor; [done|]. by constructor.
Qed.

Lemma SortKeys_elem x l : x ∈ SortKeys l <-> x ∈ l.
Proof.
  unfold SortKeys. rewrite <- (sortStrings_elem x l).
  pose proof (sortStrings_sorted l) as Hs.
  destruct (sortStrings l) as [|v vs]; [done|].
  rewrite !elem_of_cons. split.
  - intros [|?%dedupFrom_elem]; auto.
  - intros [|Hx]; [by auto|]. destruct (dedupFrom_complete x v vs Hs Hx); auto.
Qed.

Lemma SortKeys_NoDup l : NoDup (SortKeys l).
Proof.
  unfold SortKeys. destruct (sortStrings l) as [|v vs]; [constructor|].
  pose proof (dedupFrom_sorted v vs) as Hs.
  apply Sorted_StronglySorted in Hs; [|intros ???; apply slt_trans].
  induction Hs as [|a l0 Hs IH Ha]; constructor; [|done].
  intros Hin. rewrite Forall_forall in Ha. by apply (slt_irrefl a), Ha.
Qed.

Lemma lookup_keys {X : Type} k (m : list (string * X)) :
  is_Some (lookup k m) <-> k ∈ keys m.
Proof.
  unfold keys. induction m as [|[k' v] m IH]; simpl.
  - rewrite elem_of_nil. split; [|done]. by intros [? [=]].
  - rewrite elem_of_cons, <- IH. destruct (String.eqb_spec k k'); split; eauto.
    by intros [|].
Qed.

(** ** The comparison engine *)

Section EngineFacts.

Variable Difference : nat -> nat -> (nat -> nat -> diff_Result) -> list EditType.

Lemma tryOptions_program b t vx vy :
  tryOptions (newState (differOpts b)) t vx vy
  = if b && bool_decide (t = TTime) then Some [callReport reportByIgnore]
    else if negb (IsValid vx) || negb (IsValid vy)
         then Some (report (Bool.eqb (IsValid vx) (IsValid vy)))
         else None.
Proof. destruct b, t, vx, vy; reflexivity. Qed.

Lemma tryOptions_balanced opts t vx vy cs :
  tryOptions opts t vx vy = Some cs -> balanced cs.
Proof.
  unfold tryOptions. destruct (Options_filter _ _ _ _ _) as [[]|]; intros [= <-].
  - repeat constructor.
  - apply balanced_report1.
Qed.

Lemma tryMethod_Some t x y cs :
  tryMethod t x y = Some cs ->
  exists a b, t = TTime /\ x = VDate a /\ y = VDate b /\ cs = report (a =? b).
Proof.
  destruct t; try done. destruct x; try done. destruct y; try done.
  intros [= <-]. eauto 10.
Qed.

Section Balanced.

Variable opts : list Option_.

Lemma compareAnyInvalid_balanced k t vy : balanced (compareAnyInvalid opts k t vy).
Proof.
  unfold compareAnyInvalid. apply balanced_push.
  destruct (tryOptions _ _ _ _) eqn:E; [by eapply tryOptions_balanced|constructor].
Qed.

Lemma compareRules_balanced rule3 iface x t vy :
  (forall y, balanced (rule3 y)) -> (forall y, balanced (iface y)) ->
  balanced (compareRules opts rule3 iface x t vy).
Proof.
  intros H3 Hi. unfold compareRules.
  destruct (tryOptions _ _ _ _) eqn:E; [by eapply tryOptions_balanced|].
  destruct vy as [y|]; [|constructor].
  destruct (tryMethod t x y) eqn:Em.
  - apply tryMethod_Some in Em as (a & b & _ & _ & _ & ->). apply balanced_report1.
  - by destruct (bool_decide _).
Qed.

Lemma compareAnyWith_balanced rule3 x :
  (forall y, balanced (rule3 y)) -> balancedComparer (compareAnyWith opts rule3 x).
Proof.
  intros H3 k t vy. unfold compareAnyWith, compareStep.
  apply balanced_push, compareRules_balanced; [done|].
  intros y. unfold compareInterface. destruct (bool_decide _).
  - unfold compareStep. apply balanced_push, compareRules_balanced; [done|].
    intros _. constructor.
  - apply balanced_report1.
Qed.

Lemma callAny_balanced (c : option comparer) :
  (forall f, c = Some f -> balancedComparer f) ->
  balancedComparer (callAny opts c).
Proof.
  intros H. destruct c as [f|]; simpl; [by apply H|].
  intros k t vy. apply compareAnyInvalid_balanced.
Qed.

Lemma withIndexes_balanced elemT cx ys ix iy :
  Forall balancedComparer cx -> balanced (withIndexes opts elemT cx ys ix iy).
Proof.
  intros H. unfold withIndexes. apply callAny_balanced.
  intros f Hf. destruct ix as [i|]; [|done]. simpl in Hf.
  rewrite Forall_lookup in H. by eapply H.
Qed.

Lemma replay_balanced elemT cx ys fuel iX iY ix iy edits :
  Forall balancedComparer cx ->
  balanced (replay opts elemT cx ys fuel iX iY ix iy edits).
Proof.
  intros H. revert ix iy edits.
  induction fuel as [|fuel IH]; intros ix iy edits; cbn [replay]; [constructor|].
  destruct (_ || _); [|constructor].
  destruct (nth ix iX false); [|destruct (nth iy iY false); [|destruct edits as [|[] ?]]];
    first [apply balanced_nil
          |apply balanced_app; auto using withIndexes_balanced].
Qed.

Lemma compareSlice_balanced elemT cx ys :
  Forall balancedComparer cx ->
  balanced (compareSlice Difference opts elemT cx ys).
Proof. intros H. unfold compareSlice. by apply replay_balanced. Qed.

Lemma lookup_map_snd {X Y : Type} (F : X -> Y) k (m : list (string * X)) :
  lookup k (map (fun kv => (fst kv, F (snd kv))) m) = option_map F (lookup k m).
Proof.
  induction m as [|[k' v] m IH]; simpl; [done|]. by destruct (String.eqb k k').
Qed.

Lemma keys_map_snd {X Y : Type} (F : X -> Y) (m : list (string * X)) :
  keys (map (fun kv => (fst kv, F (snd kv))) m) = keys m.
Proof. unfold keys. rewrite map_map. done. Qed.

Lemma compareMap_balanced cx my :
  (forall k f, lookup k cx = Some f -> balancedComparer f) ->
  balanced (compareMap opts cx my).
Proof.
  intros H. unfold compareMap. apply balanced_concat, Forall_map, Forall_forall.
  intros k _. apply callAny_balanced. intros f Hf. by eapply H.
Qed.

Lemma compareKind_balanced x : forall y, balanced (compareKind Difference opts x y).
Proof.
  induction x as [| | | | | |d| | | |l IH|m IH] using value_ind; intros y.
  all: destruct y; cbn [compareKind compareUint8];
    try first [apply balanced_nil | apply balanced_report1].
  - apply compareSlice_balanced.
    apply Forall_map, Forall_forall. intros a _.
    apply compareAnyWith_balanced. intros y. destruct y; simpl;
      first [apply balanced_nil | apply balanced_report1].
  - apply compareSlice_balanced.
    apply Forall_map. eapply Forall_impl; [exact IH|].
    intros x Hx. simpl. by apply compareAnyWith_balanced.
  - apply compareMap_balanced.
    intros k f. rewrite (lookup_map_snd (fun v => compareAnyWith opts (compareKind Difference opts v) v)).
    destruct (lookup k m) as [v|] eqn:E; [|done]. intros [= <-].
    apply compareAnyWith_balanced.
    clear -IH E. induction IH as [|[k' v'] m Hv IH IHm]; [done|].
    simpl in E. destruct (String.eqb k k'); [|by auto]. by inversion E; subst.
Qed.

Lemma compareAny_balanced k t vx vy : balanced (compareAny Difference opts k t vx vy).
Proof.
  unfold compareAny. apply callAny_balanced. intros f Hf.
  destruct vx as [x|]; [|done]. inversion Hf; subst.
  apply compareAnyWith_balanced, compareKind_balanced.
Qed.

Lemma Equal_calls_balanced x y : balanced (Equal_calls Difference opts x y).
Proof. apply compareAny_balanced. Qed.

End Balanced.

Section Quiet.

Hypothesis Difference_spec : DifferenceSpec Difference.
Variable b : bool.
Local Abbreviation opts := (newState (differOpts b)).

Lemma compareRules_quiet rule3 iface x y t :
  similar b x y -> quiet (rule3 y) -> quiet (iface y) ->
  quiet (compareRules opts rule3 iface x t (Some y)).
Proof.
  intros Hs H3 Hi. unfold compareRules. rewrite tryOptions_program.
  destruct (b && bool_decide (t = TTime)) eqn:Eb; [by repeat constructor|].
  cbn [IsValid negb orb].
  destruct (tryMethod t x y) as [cs|] eqn:Em.
  - apply tryMethod_Some in Em as (a & c & -> & -> & -> & ->).
    rewrite andb_false_iff in Eb. inversion Hs as [| | | | | | | |? ? Hd'| | |]; subst.
    destruct Eb as [->|Hd]; [|done]. destruct Hd' as [|<-]; [done|].
    rewrite Z.eqb_refl. by repeat constructor.
  - by destruct (bool_decide (t = TInterface)).
Qed.

Lemma compareStep_quiet rule3 iface x y k t :
  similar b x y -> quiet (rule3 y) -> quiet (iface y) ->
  quiet (compareStep opts rule3 iface x k t (Some y)).
Proof.
  intros. unfold compareStep. constructor; [done|].
  apply quiet_app. split; [by apply compareRules_quiet|by repeat constructor].
Qed.

Lemma compareAnyWith_quiet rule3 x y k t :
  similar b x y -> quiet (rule3 y) ->
  quiet (compareAnyWith opts rule3 x k t (Some y)).
Proof.
  intros Hs H3. unfold compareAnyWith. apply compareStep_quiet; [done..|].
  unfold compareInterface. rewrite (similar_typeOf _ _ _ Hs).
  rewrite bool_decide_eq_true_2 by done.
  apply compareStep_quiet; [done..|constructor].
Qed.

(** A slice element whose counterpart is missing is reported, hence not
    ignored. *)
Lemma compareAnyWith_missing rule3 x k t :
  t <> TTime ->
  compareAnyWith opts rule3 x k t None
  = [callPushStep (mkStep k t (Some x) None); callReport reportUnequal; callPopStep].
Proof.
  intros Ht. unfold compareAnyWith, compareStep, compareRules.
  rewrite tryOptions_program. rewrite (bool_decide_eq_false_2 _ Ht), andb_false_r.
  done.
Qed.

Lemma compareAnyInvalid_missing k t y :
  t <> TTime ->
  compareAnyInvalid opts k t (Some y)
  = [callPushStep (mkStep k t None (Some y)); callReport reportUnequal; callPopStep].
Proof.
  intros Ht. unfold compareAnyInvalid.
  rewrite tryOptions_program. rewrite (bool_decide_eq_false_2 _ Ht), andb_false_r.
  done.
Qed.

Lemma replay_identity_quiet elemT cx ys fuel iX iY i edits :
  Forall (fun e => e = Identity) edits ->
  (forall j, nth j iX false = false) -> (forall j, nth j iY false = false) ->
  (forall j, quiet (withIndexes opts elemT cx ys (Some j) (Some j))) ->
  quiet (replay opts elemT cx ys fuel iX iY i i edits).
Proof.
  intros He HX HY Hq. revert i edits He.
  induction fuel as [|fuel IH]; intros i edits He; cbn [replay]; [constructor|].
  destruct (_ || _); [|constructor]. rewrite HX, HY.
  destruct He as [|e edits -> He]; [constructor|].
  apply quiet_app. split; [apply Hq|by apply IH].
Qed.

Lemma filter_all_seq (P : nat -> Prop) `{!forall x, Decision (P x)} n m :
  (forall i, P i) -> filter P (seq n m) = seq n m.
Proof.
  intros HP. revert n; induction m as [|m IH]; intros n; simpl; [done|].
  rewrite filter_cons_True by done. by rewrite IH.
Qed.

Lemma nth_map_seq_false (g : nat -> bool) n j :
  (forall i, (i < n)%nat -> g i = false) -> nth j (map g (seq 0 n)) false = false.
Proof.
  intros H. destruct (decide (j < n)%nat) as [Hj|Hj].
  - rewrite (nth_indep _ false (g 0%nat)) by (by rewrite length_map, length_seq).
    rewrite map_nth, seq_nth by done. by apply H.
  - apply nth_overflow. rewrite length_map, length_seq. lia.
Qed.

Lemma compareSlice_quiet elemT xs ys :
  elemT <> TTime ->
  Forall2 (fun x y => similar b x y /\ quiet (compareKind Difference opts x y)) xs ys ->
  quiet (compareSlice Difference opts elemT
           (map (fun x => compareAnyWith opts (compareKind Difference opts x) x) xs) ys).
Proof.
  intros Ht H. pose proof (Forall2_length _ _ _ H) as Hlen.
  set (cx := map _ xs). assert (length cx = length xs) as Hcx by apply length_map.
  assert (forall j, quiet (withIndexes opts elemT cx ys (Some j) (Some j))) as Hpair.
  { intros j. unfold withIndexes. cbn [mbind option_bind].
    unfold cx. rewrite list_lookup_fmap.
    destruct (xs !! j) as [x|] eqn:Ex; simpl.
    - destruct (Forall2_lookup_l _ _ _ _ _ H Ex) as (y & Ey & Hs & Hq).
      rewrite Ey. by apply compareAnyWith_quiet.
    - assert (ys !! j = None) as ->.
      { apply lookup_ge_None. apply lookup_ge_None in Ex. lia. }
      unfold compareAnyInvalid. rewrite tryOptions_program.
      rewrite (bool_decide_eq_false_2 _ Ht), andb_false_r. simpl.
      by repeat constructor. }
  unfold compareSlice. fold cx.
  set (iX := map _ (seq 0 (length cx))). set (iY := map _ (seq 0 (length ys))).
  assert (forall j, nth j iX false = false) as HX.
  { intros j. apply nth_map_seq_false. intros i Hi.
    unfold withIndexes, cx. cbn [mbind option_bind]. rewrite list_lookup_fmap.
    destruct (lookup_lt_is_Some_2 xs i) as [x Ex]; [lia|]. rewrite Ex. simpl.
    rewrite compareAnyWith_missing by done. done. }
  assert (forall j, nth j iY false = false) as HY.
  { intros j. apply nth_map_seq_false. intros i Hi.
    unfold withIndexes. cbn [mbind option_bind].
    destruct (lookup_lt_is_Some_2 ys i) as [y Ey]; [lia|]. rewrite Ey. simpl.
    rewrite compareAnyInvalid_missing by done. done. }
  apply replay_identity_quiet; [|done..].
  rewrite !filter_all_seq by done. rewrite !length_seq, Hcx, Hlen.
  rewrite Difference_spec.
  - clear. induction (length ys); simpl; by constructor.
  - intros i Hi. rewrite !lookup_seq_lt by lia. simpl.
    apply resultOf_Equal_quiet, Hpair.
Qed.

Lemma compareMap_quiet mx my :
  (forall k,
     option_Forall2
       (fun x y => similar b x y /\ quiet (compareKind Difference opts x y))
       (lookup k mx) (lookup k my)) ->
  quiet (compareMap opts
           (map (fun kv => (fst kv, compareAnyWith opts (compareKind Difference opts (snd kv)) (snd kv))) mx)
           my).
Proof.
  intros H. unfold compareMap. apply quiet_concat, Forall_map, Forall_forall.
  intros k _.
  rewrite (lookup_map_snd (fun v => compareAnyWith opts (compareKind Difference opts v) v)).
  destruct (H k) as [x y [Hs Hq]|]; simpl.
  - by apply compareAnyWith_quiet.
  - unfold compareAnyInvalid. rewrite tryOptions_program. simpl.
    rewrite andb_false_r. by repeat constructor.
Qed.

Lemma compareKind_quiet x :
  forall y, similar b x y -> quiet (compareKind Difference opts x y).
Proof.
  induction x as [| | | | | |d| | | |l IH|m IH] using value_ind; intros y Hs.
  all: try (inversion Hs; subst; simpl;
            rewrite ?String.eqb_refl, ?Z.eqb_refl, ?eqb_reflx;
            by repeat constructor).
  - inversion Hs as [| | |? ? He| | | | | | | |]; subst. simpl. rewrite He.
    by repeat constructor.
  - inversion Hs as [| | | |? ? He| | | | | | |]; subst. simpl. rewrite He.
    by repeat constructor.
  - inversion Hs; subst. cbn [compareKind].
    rewrite <- (map_map VUint8 (fun x => compareAnyWith opts (compareKind Difference opts x) x)).
    apply compareSlice_quiet; [done|]. clear Hs.
    induction d as [|a d IHd]; simpl; constructor; [|done].
    split; [constructor|]. simpl. rewrite Z.eqb_refl. by repeat constructor.
  - inversion Hs as [| | | | | | | | | |? l' Hl|]; subst. cbn [compareKind].
    apply compareSlice_quiet; [done|].
    clear Hs. revert l' Hl. induction IH as [|x l Hx _ IHl]; intros l' Hs;
      inversion Hs; subst; constructor; auto.
  - inversion Hs as [| | | | | | | | | | |? m' Hm]; subst. cbn [compareKind].
    apply compareMap_quiet. intros k.
    pose proof (Hm k) as Hk.
    destruct (lookup k m) as [x|] eqn:E; inversion Hk as [? y Hxy|]; subst;
      constructor.
    split; [done|].
    by apply (lookup_Forall
                (fun v => forall y, similar b v y ->
                                    quiet (compareKind Difference opts v y))
                k m x IH E).
Qed.

Lemma Equal_calls_quiet x y :
  similar b x y -> quiet (Equal_calls Difference opts (Some x) (Some y)).
Proof.
  intros Hs. unfold Equal_calls, compareAny. simpl.
  by apply compareAnyWith_quiet, compareKind_quiet.
Qed.

End Quiet.

End EngineFacts.

(** ** The command line *)

(** C10: [run] builds its differ by negating the two boolean fields of the
    parsed command line: with neither flag set both exclusions are on, and
    each flag, and only it, switches its exclusion off. *)
Theorem run_differ_flags (cli : cliRoot) :
  (Timestamps cli = false /\ PermissionsErrors cli = false
   <-> run_differ cli = mkDiffer true true)
  /\ (Timestamps cli = true <-> IgnoreTimestamps (run_differ cli) = false)
  /\ (PermissionsErrors cli = true
      <-> IgnorePermissionError (run_differ cli) = false)
  /\ IgnoreTimestamps (run_differ cli) = negb (Timestamps cli)
  /\ IgnorePermissionError (run_differ cli) = negb (PermissionsErrors cli).
Proof.
  destruct cli as [a b [] []]; unfold run_differ; cbn; repeat split;
    try done; by intros [? ?] || by intros [=].
Qed.

(** ** The path renderer *)

Lemma simplePathString_step_last_indirect s next st :
  isIndirect s ->
  (forall n, next = Some n -> ~ isIndirect n) ->
  simplePathString_step s next st
  = flushIndirect (numIndirect st + 1) (option_map step_kind next) st.
Proof.
  unfold isIndirect, simplePathString_step, flushIndirect. intros -> Hnext.
  destruct next as [n|]; simpl; [|done].
  specialize (Hnext n eq_refl). destruct (step_kind n); done.
Qed.

Lemma simplePathString_loop_indirects inds rest st :
  Forall isIndirect inds -> inds <> [] ->
  (forall n, head rest = Some n -> ~ isIndirect n) ->
  simplePathString_loop (inds ++ rest) st
  = simplePathString_loop rest
      (flushIndirect (numIndirect st + Z.of_nat (length inds))
                     (option_map step_kind (head rest)) st).
Proof.
  intros Hinds; revert st. induction Hinds as [|s inds Hs Hinds IH]; [done|].
  intros st _ Hrest. destruct inds as [|s' inds].
  - simpl app. cbn [simplePathString_loop].
    by rewrite simplePathString_step_last_indirect.
  - cbn [app simplePathString_loop head] in *.
    assert (Hs' : isIndirect s') by (by inversion Hinds).
    replace (simplePathString_step s (Some s') st)
      with (mkSps (ssPre st) (ssPost st) (numIndirect st + 1)).
    2:{ unfold simplePathString_step. rewrite Hs. simpl. by rewrite Hs'. }
    rewrite IH by done. cbn [numIndirect ssPre ssPost length].
    f_equal. unfold flushIndirect. cbn [ssPre ssPost].
    replace (numIndirect st + 1 + Z.of_nat (S (length inds)))
      with (numIndirect st + Z.of_nat (S (S (length inds)))) by lia.
    done.
Qed.

(** The loop on runs of indirections, from any state. *)
Lemma simplePathString_loop_coalesces :
  (forall inds s rest st,
      Forall isIndirect inds -> inds <> [] -> numIndirect st = 0 ->
      step_kind s <> Indirect ->
      (forall name, step_kind s <> StructField name) ->
      simplePathString_loop (inds ++ s :: rest) st
      = simplePathString_loop (s :: rest)
          (mkSps (ssPre st ++ ["(" +:+ Repeat "*" (length inds)])
                 (ssPost st ++ [")"]) 0))
  /\ (forall inds st,
      Forall isIndirect inds -> inds <> [] -> numIndirect st = 0 ->
      simplePathString_loop inds st
      = mkSps (ssPre st ++ [Repeat "*" (length inds)]) (ssPost st ++ [""]) 0)
  /\ (forall i s name rest st,
      isIndirect i -> numIndirect st = 0 -> step_kind s = StructField name ->
      simplePathString_loop (i :: s :: rest) st
      = simplePathString_loop (s :: rest) st)
  /\ (forall i inds s name rest st,
      isIndirect i -> Forall isIndirect inds -> inds <> [] ->
      numIndirect st = 0 -> step_kind s = StructField name ->
      simplePathString_loop (i :: inds ++ s :: rest) st
      = simplePathString_loop (s :: rest)
          (mkSps (ssPre st ++ ["(" +:+ Repeat "*" (length inds)])
                 (ssPost st ++ [")"]) 0))
  /\ (forall s rest st,
      step_kind s = TypeAssertion ->
      simplePathString_loop (s :: rest) st = simplePathString_loop rest st).
Proof.
  repeat split.
  - intros inds s rest st Hinds Hne H0 Hs Hsf.
    rewrite simplePathString_loop_indirects; [|done|done|].
    2:{ intros n [= <-]. done. }
    f_equal. unfold flushIndirect. cbn [head option_map]. rewrite H0.
    destruct inds as [|i inds]; [done|].
    assert ((0 <? 0 + Z.of_nat (length (i :: inds))) = true) as Hpos
      by (apply Z.ltb_lt; simpl length; lia).
    destruct (step_kind s) eqn:Hk; try (by destruct (Hs eq_refl));
      try (by destruct (Hsf name eq_refl));
      rewrite Hpos, Z.add_0_l, Nat2Z.id; done.
  - intros inds st Hinds Hne H0.
    rewrite <- (app_nil_r inds) at 1.
    rewrite simplePathString_loop_indirects; [|done|done|done].
    unfold flushIndirect. cbn [head option_map simplePathString_loop]. rewrite H0.
    destruct inds as [|i inds]; [done|].
    assert ((0 <? 0 + Z.of_nat (length (i :: inds))) = true) as ->
      by (apply Z.ltb_lt; simpl length; lia).
    by rewrite Z.add_0_l, Nat2Z.id.
  - intros i s name rest st Hi H0 Hs.
    change (i :: s :: rest) with ([i] ++ s :: rest).
    rewrite simplePathString_loop_indirects.
    + unfold flushIndirect. cbn [head option_map length]. rewrite Hs, H0.
      simpl. destruct st; simpl in *; by subst.
    + by constructor.
    + done.
    + intros n [= <-]. unfold isIndirect. by rewrite Hs.
  - intros i inds s name rest st Hi Hinds Hne H0 Hs.
    change (i :: inds ++ s :: rest) with ((i :: inds) ++ s :: rest).
    rewrite simplePathString_loop_indirects; [|by constructor|done|].
    2:{ intros n [= <-]. unfold isIndirect. by rewrite Hs. }
    f_equal. unfold flushIndirect. cbn [head option_map length]. rewrite Hs, H0.
    destruct inds as [|i' inds]; [done|].
    replace (0 + Z.of_nat (S (length (i' :: inds))) - 1)
      with (Z.of_nat (length (i' :: inds))) by lia.
    assert ((0 <? Z.of_nat (length (i' :: inds))) = true) as ->
      by (apply Z.ltb_lt; simpl length; lia).
    by rewrite Nat2Z.id.
  - intros s rest st Hs. cbn [simplePathString_loop].
    unfold simplePathString_step. by rewrite Hs.
Qed.

Lemma append_cons c (s t : string) : String c s +:+ t = String c (s +:+ t).
Proof. done. Qed.

Lemma append_empty_r (s : string) : s +:+ "" = s.
Proof.
  induction s as [|c s IH]; [done|].
  change (String c (s +:+ "") = String c s). by rewrite IH.
Qed.

Lemma append_assoc (a b c : string) : (a +:+ b) +:+ c = a +:+ (b +:+ c).
Proof.
  induction a as [|ch a IH]; [done|]. rewrite !append_cons. by rewrite IH.
Qed.

Lemma Join_cons (s : string) (l : list string) : Join (s :: l) = s +:+ Join l.
Proof. done. Qed.

Lemma Join_app (l1 l2 : list string) : Join (l1 ++ l2) = Join l1 +:+ Join l2.
Proof.
  induction l1 as [|s l1 IH]; [done|]. unfold Join in *. simpl.
  rewrite IH. clear. induction s as [|c s IHs]; [done|].
  rewrite !append_cons. by rewrite IHs.
Qed.

Lemma Join_snoc (l : list string) (s : string) : Join (l ++ [s]) = Join l +:+ s.
Proof. by rewrite Join_app, Join_cons, append_empty_r. Qed.

Lemma simplePathString_loop_ownText p st :
  Forall (fun s => ownText s = true) p ->
  simplePathString_loop p st
  = mkSps (ssPre st) (ssPost st ++ stepTexts p) (numIndirect st).
Proof.
  intros H; revert st. induction H as [|s p Hs Hp IH]; intros st.
  - simpl. rewrite app_nil_r. by destruct st.
  - cbn [simplePathString_loop]. rewrite IH. unfold stepTexts. cbn [flat_map].
    unfold ownText in Hs. unfold simplePathString_step.
    destruct (step_kind s) eqn:Hk; try done; cbn [ssPre ssPost numIndirect];
      by rewrite <- ?app_assoc.
Qed.

Lemma simplePathString_step_next s n1 n2 st :
  ~ isIndirect s ->
  simplePathString_step s n1 st = simplePathString_step s n2 st.
Proof.
  unfold isIndirect, simplePathString_step. by destruct (step_kind s).
Qed.

Lemma closedPath_tail s s' pa : closedPath (s :: s' :: pa) -> closedPath (s' :: pa).
Proof. intros H x Hx. apply H. by rewrite last_cons, Hx. Qed.

Lemma simplePathString_loop_app pre q st :
  closedPath pre ->
  simplePathString_loop (pre ++ q) st
  = simplePathString_loop q (simplePathString_loop pre st).
Proof.
  revert st. induction pre as [|s pre IH]; intros st Hc; [done|].
  cbn [app simplePathString_loop]. destruct pre as [|s' pre].
  - cbn [app head simplePathString_loop]. f_equal.
    apply simplePathString_step_next. by apply Hc.
  - rewrite IH by (by eapply closedPath_tail). done.
Qed.

Lemma simplePathString_loop_numIndirect pa st :
  numIndirect st = 0 \/ (exists h, head pa = Some h /\ isIndirect h) ->
  numIndirect (simplePathString_loop pa st) = 0.
Proof.
  revert st. induction pa as [|s pa IH]; intros st H.
  - destruct H as [H|(h & Hh & _)]; done.
  - cbn [simplePathString_loop]. apply IH.
    unfold simplePathString_step, isIndirect in *.
    destruct (step_kind s) eqn:Hs;
      try (left; cbn [numIndirect];
           destruct H as [H|(h & [= <-] & Hh)]; [done|congruence]).
    destruct (head pa) as [n|] eqn:Hn; cbn [option_map].
    + destruct (step_kind n) eqn:Hk;
        try (left; match goal with
                   | |- context [if ?c then _ else _] => by destruct c
                   end).
      right. by exists n.
    + left. by destruct (0 <? _).
Qed.

Lemma simplePathString_pre pre :
  exists P Q,
    simplePathString_loop pre (mkSps [] [] 0) = mkSps P Q 0
    /\ simplePathString pre = Join (rev P) +:+ Join Q.
Proof.
  pose proof (simplePathString_loop_numIndirect pre (mkSps [] [] 0)
                (or_introl eq_refl)) as H0.
  unfold simplePathString.
  destruct (simplePathString_loop pre (mkSps [] [] 0)) as [P Q n].
  cbn in H0. subst n. by exists P, Q.
Qed.

(** C2 as the code has it, after any path [pre] that does not end in an
    indirection: a run of [n] indirections is rendered as one marker of
    [n] stars, put in front of what came before it, in parentheses when a
    step other than a struct field follows and bare at the end of the
    path; the indirection right before a struct field is automatic and
    taken off the run, so a single one leaves no trace and a longer run
    one star less; a type assertion adds nothing to the text. *)
Theorem simplePathString_coalesces (pre : Path) :
  closedPath pre ->
  (forall inds s rest,
      Forall isIndirect inds -> inds <> [] ->
      ~ isIndirect s -> (forall name, step_kind s <> StructField name) ->
      Forall (fun s => ownText s = true) (s :: rest) ->
      simplePathString (pre ++ inds ++ s :: rest)
      = "(" +:+ Repeat "*" (length inds) +:+ simplePathString pre +:+ ")"
        +:+ Join (stepTexts (s :: rest)))
  /\ (forall inds,
        Forall isIndirect inds -> inds <> [] ->
        simplePathString (pre ++ inds)
        = Repeat "*" (length inds) +:+ simplePathString pre)
  /\ (forall i s name rest,
        isIndirect i -> step_kind s = StructField name ->
        simplePathString (pre ++ i :: s :: rest)
        = simplePathString (pre ++ s :: rest))
  /\ (forall i inds s name rest,
        isIndirect i -> Forall isIndirect inds -> inds <> [] ->
        step_kind s = StructField name ->
        Forall (fun s => ownText s = true) rest ->
        simplePathString (pre ++ i :: inds ++ s :: rest)
        = "(" +:+ Repeat "*" (length inds) +:+ simplePathString pre +:+ ")"
          +:+ Join (stepTexts (s :: rest)))
  /\ (forall s rest,
        step_kind s = TypeAssertion ->
        simplePathString (pre ++ s :: rest) = simplePathString (pre ++ rest)).
Proof.
  intros Hpre.
  destruct simplePathString_loop_coalesces as (H1 & H2 & H3 & H4 & H5).
  destruct (simplePathString_pre pre) as (P & Q & Hloop & Htext).
  assert (forall m post texts,
            simplePathString_finish
              (mkSps (P ++ ["(" +:+ m]) ((Q ++ [post]) ++ texts) 0)
            = "(" +:+ m +:+ simplePathString pre +:+ post +:+ Join texts) as Hfin.
  { intros m post texts. unfold simplePathString_finish. cbn [ssPre ssPost].
    rewrite rev_unit, Join_cons, !Join_app, Join_cons, Htext.
    change (Join []) with "". by rewrite append_empty_r, !append_assoc. }
  repeat split.
  - intros inds s rest Hinds Hne Hs Hsf Hown.
    unfold simplePathString at 1.
    rewrite simplePathString_loop_app, Hloop by done.
    rewrite H1 by (done || by intros ?).
    rewrite simplePathString_loop_ownText by done. cbn [ssPre ssPost numIndirect].
    apply Hfin.
  - intros inds Hinds Hne. unfold simplePathString at 1.
    rewrite simplePathString_loop_app, Hloop by done.
    rewrite H2 by done. unfold simplePathString_finish. cbn [ssPre ssPost].
    rewrite rev_unit, Join_cons, Join_snoc, Htext.
    by rewrite append_empty_r, !append_assoc.
  - intros i s name rest Hi Hs. unfold simplePathString.
    rewrite !simplePathString_loop_app, Hloop by done.
    by rewrite (H3 i s name rest).
  - intros i inds s name rest Hi Hinds Hne Hs Hown.
    unfold simplePathString at 1.
    rewrite simplePathString_loop_app, Hloop by done.
    rewrite (H4 i inds s name rest) by done.
    rewrite simplePathString_loop_ownText
      by (constructor; [unfold ownText; by rewrite Hs|done]).
    cbn [ssPre ssPost numIndirect]. apply Hfin.
  - intros s rest Hs. unfold simplePathString.
    rewrite !simplePathString_loop_app by done.
    by rewrite (H5 s rest).
Qed.

Lemma simplePathString_coalesces_witness :
  closedPath samplePre
  /\ simplePathString (samplePre ++ [indirectStep; indirectStep]
                         ++ mapIndexStep "k" :: [])
     = "(" +:+ Repeat "*" 2 +:+ simplePathString samplePre +:+ ")"
       +:+ Join (stepTexts [mapIndexStep "k"])
  /\ simplePathString (samplePre ++ [indirectStep; indirectStep])
     = Repeat "*" 2 +:+ simplePathString samplePre
  /\ simplePathString (samplePre ++ indirectStep :: structFieldStep "f" :: [])
     = simplePathString (samplePre ++ structFieldStep "f" :: [])
  /\ simplePathString (samplePre ++ indirectStep :: [indirectStep]
                         ++ structFieldStep "f" :: [])
     = "(" +:+ Repeat "*" 1 +:+ simplePathString samplePre +:+ ")"
       +:+ Join (stepTexts [structFieldStep "f"])
  /\ simplePathString (samplePre ++ typeAssertionStep TString
                         :: [mapIndexStep "k"])
     = simplePathString (samplePre ++ [mapIndexStep "k"])
  /\ simplePathString (samplePre ++ [indirectStep; indirectStep]
                         ++ mapIndexStep "k" :: [])
     = "(**root[" +:+ Quote "a" +:+ "])[" +:+ Quote "k" +:+ "]".
Proof.
  assert (closedPath samplePre) as Hpre.
  { intros s [= <-]. unfold isIndirect. done. }
  destruct (simplePathString_coalesces samplePre Hpre) as (H1 & H2 & H3 & H4 & H5).
  split; [exact Hpre|]. split; [|split; [|split; [|split; [|split]]]].
  - apply (H1 [indirectStep; indirectStep] (mapIndexStep "k") []);
      [by repeat constructor|done|done|done|by repeat constructor].
  - apply (H2 [indirectStep; indirectStep]); [by repeat constructor|done].
  - apply (H3 indirectStep (structFieldStep "f") "f" []); done.
  - apply (H4 indirectStep [indirectStep] (structFieldStep "f") "f" []);
      [done|by repeat constructor|done|done|constructor].
  - apply (H5 (typeAssertionStep TString) [mapIndexStep "k"]); done.
  - vm_compute. reflexivity.
Defined.

(** C2 as stated fails: an indirection at the end of the path is rendered
    as a star, and an indirection before a map key keeps its marker. *)
Lemma simplePathString_indirect_rendered :
  simplePathString [indirectStep] = "*"
  /\ simplePathString [indirectStep] <> ""
  /\ simplePathString [indirectStep; mapIndexStep "k"]
     <> simplePathString [mapIndexStep "k"].
Proof. repeat split; vm_compute; discriminate. Qed.

(** ** Comparing two values *)

Lemma simplePathString_root t vx vy :
  bool_decide (t = TInterface \/ t = TMap \/ t = TSlice) = true ->
  simplePathString [mkStep RootStep t vx vy] = "root".
Proof. destruct t; done. Qed.

Lemma simplePathString_root_key k vx vy vx' vy' :
  simplePathString
    [mkStep RootStep TMap vx vy; mkStep (MapIndex k) TInterface vx' vy']
  = "root[" +:+ Quote k +:+ "]".
Proof.
  unfold simplePathString, simplePathString_finish. simpl.
  by rewrite append_empty_r.
Qed.

Lemma feedAll_concat_quiet r css :
  Forall (fun cs => balanced cs /\ quiet cs) css -> feedAll r (concat css) = r.
Proof.
  induction 1 as [|cs css [Hb Hq] _ IH]; simpl; [done|].
  by rewrite feedAll_app, (feedAll_balanced_quiet r cs).
Qed.

Lemma feedAll_segments (seg : string -> list call) p d k L ds :
  NoDup L -> k ∈ L ->
  (forall k', k' ∈ L -> k' <> k -> balanced (seg k') /\ quiet (seg k')) ->
  (forall ds', feedAll (mkReporter p ds') (seg k) = mkReporter p (ds' ++ [d])) ->
  feedAll (mkReporter p ds) (concat (map seg L)) = mkReporter p (ds ++ [d]).
Proof.
  intros Hnd Hk Hrest Hseg. induction Hnd as [|k1 L Hk1 Hnd IH]; [by inversion Hk|].
  simpl. rewrite feedAll_app. destruct (decide (k1 = k)) as [->|Hne].
  - rewrite Hseg. apply feedAll_concat_quiet, Forall_map, Forall_forall.
    intros k' Hk'. apply Hrest; [by right|]. by intros ->.
  - destruct (Hrest k1) as [Hb Hq]; [by left|done|].
    rewrite (feedAll_balanced_quiet _ (seg k1)) by done. apply IH.
    + apply elem_of_cons in Hk as [->|]; done.
    + intros k' Hk'. apply Hrest. by right.
Qed.

Section Comparison.

Variable Difference : nat -> nat -> (nat -> nat -> diff_Result) -> list EditType.

Lemma Equal_calls_mismatch b x y :
  typeOf x <> typeOf y ->
  Equal_calls Difference (newState (differOpts b)) (Some x) (Some y)
  = [callPushStep (mkStep RootStep TInterface (Some x) (Some y));
     callReport reportUnequal; callPopStep].
Proof.
  intros Hne. unfold Equal_calls, rootType, compareAny.
  rewrite (bool_decide_eq_false_2 _ Hne). cbn [option_map callAny].
  unfold compareAnyWith, compareStep, compareRules.
  rewrite tryOptions_program, andb_false_r. cbn [IsValid negb orb tryMethod].
  rewrite bool_decide_eq_true_2 by done.
  unfold compareInterface. by rewrite (bool_decide_eq_false_2 _ Hne).
Qed.

(** C3 as the code has it: two root values of different types (scalars of
    different kinds among them) give exactly one difference, located at
    the root step, which is rendered [root], with both values set. *)
Theorem root_type_mismatch (b : bool) (x y : value) :
  typeOf x <> typeOf y ->
  cmp_Equal Difference (Some x) (Some y) (differOpts b) (mkReporter [] [])
  = (false, mkReporter [] [mkFileDiff "root" (Some x) (Some y)]).
Proof.
  intros Hne. unfold cmp_Equal. by rewrite Equal_calls_mismatch.
Qed.

Lemma Equal_calls_dict b mx my :
  Equal_calls Difference (newState (differOpts b)) (Some (VDict mx)) (Some (VDict my))
  = callPushStep (mkStep RootStep TMap (Some (VDict mx)) (Some (VDict my)))
    :: concat
         (map (fun k =>
                 callAny (newState (differOpts b))
                   (option_map
                      (fun v => compareAnyWith (newState (differOpts b))
                                  (compareKind Difference (newState (differOpts b)) v) v)
                      (lookup k mx))
                   (MapIndex k) TInterface (lookup k my))
              (SortKeys (keys mx ++ keys my)))
    ++ [callPopStep].
Proof.
  unfold Equal_calls, rootType, compareAny. cbn [typeOf].
  rewrite bool_decide_eq_true_2 by done. cbn [option_map callAny].
  unfold compareAnyWith at 1. unfold compareStep, compareRules.
  rewrite tryOptions_program, andb_false_r. cbn [IsValid negb orb tryMethod].
  rewrite bool_decide_eq_false_2 by done. cbn [compareKind]. unfold compareMap.
  rewrite (keys_map_snd
    (fun v => compareAnyWith (newState (differOpts b))
                (compareKind Difference (newState (differOpts b)) v) v)).
  do 3 f_equal. apply map_ext. intros k.
  by rewrite (lookup_map_snd
    (fun v => compareAnyWith (newState (differOpts b))
                (compareKind Difference (newState (differOpts b)) v) v)).
Qed.

Lemma sameEntry_quiet b m k :
  fst (cmp_Equal Difference (Some (VDict m)) (Some (VDict m)) (differOpts b)
         (mkReporter [] [])) = true ->
  balanced (sameEntry Difference b m k) /\ quiet (sameEntry Difference b m k).
Proof.
  intros Hq. split.
  - unfold sameEntry. apply callAny_balanced. intros f.
    destruct (lookup k m); [|done]. intros [= <-].
    apply compareAnyWith_balanced, compareKind_balanced.
  - unfold cmp_Equal in Hq. cbn [fst] in Hq.
    apply resultOf_Equal_quiet in Hq. rewrite Equal_calls_dict in Hq.
    apply Forall_cons in Hq as [_ Hq]. apply quiet_app in Hq as [Hq _].
    rewrite quiet_concat, Forall_map, Forall_forall in Hq.
    destruct (lookup k m) as [v|] eqn:E.
    + unfold sameEntry. rewrite E. specialize (Hq k). rewrite E in Hq.
      apply Hq, SortKeys_elem, elem_of_app. left. by apply lookup_keys.
    + unfold sameEntry. rewrite E. simpl. unfold compareAnyInvalid.
      rewrite tryOptions_program, andb_false_r. by repeat constructor.
Qed.

Lemma cmp_Equal_reporter x y opts r :
  feedAll (mkReporter [] []) (Equal_calls Difference (newState opts) x y) = r ->
  cmp_Equal Difference x y opts (mkReporter [] [])
  = (Nat.eqb (length (diffs r)) 0, r).
Proof.
  intros <-. unfold cmp_Equal, diff_Result_Equal.
  by rewrite resultOf_NumDiff, feedAll_diffs_length.
Qed.

Lemma feedAll_dict_one b mx my k d :
  k ∈ keys mx ++ keys my ->
  (forall k', k' <> k ->
     lookup k' mx = lookup k' my
     /\ (balanced (sameEntry Difference b mx k')
         /\ quiet (sameEntry Difference b mx k'))) ->
  (forall ds,
     feedAll
       (mkReporter [mkStep RootStep TMap (Some (VDict mx)) (Some (VDict my))] ds)
       (callAny (newState (differOpts b))
          (option_map
             (fun v => compareAnyWith (newState (differOpts b))
                         (compareKind Difference (newState (differOpts b)) v) v)
             (lookup k mx))
          (MapIndex k) TInterface (lookup k my))
     = mkReporter [mkStep RootStep TMap (Some (VDict mx)) (Some (VDict my))]
                  (ds ++ [d])) ->
  cmp_Equal Difference (Some (VDict mx)) (Some (VDict my)) (differOpts b)
            (mkReporter [] [])
  = (false, mkReporter [] [d]).
Proof.
  intros Hk Hrest Hseg.
  rewrite (cmp_Equal_reporter _ _ _ (mkReporter [] [d])); [done|].
  rewrite Equal_calls_dict, feedAll_cons. cbn [feed]. unfold PushStep.
  cbn [rpath diffs app]. rewrite feedAll_app.
  rewrite (feedAll_segments _ _ d k); [done|apply SortKeys_NoDup| | |apply Hseg].
  - by apply SortKeys_elem.
  - intros k' _ Hne. destruct (Hrest k' Hne) as [<- H]. exact H.
Qed.

(** C4 as the code has it: when [new] has one key more than [old] and [old]
    compares equal to itself (it holds no NaN), exactly one difference is
    reported, at that key, with [old] unset and [new] the added value; with
    the two sides swapped it is [old] that holds the removed value. *)
Theorem dict_key_added_removed (b : bool) (mo mn : list (string * value))
    (k : string) (v : value) :
  lookup k mo = None -> lookup k mn = Some v ->
  (forall k', k' <> k -> lookup k' mn = lookup k' mo) ->
  fst (cmp_Equal Difference (Some (VDict mo)) (Some (VDict mo)) (differOpts b)
         (mkReporter [] [])) = true ->
  cmp_Equal Difference (Some (VDict mo)) (Some (VDict mn)) (differOpts b)
            (mkReporter [] [])
  = (false, mkReporter [] [mkFileDiff ("root[" +:+ Quote k +:+ "]") None (Some v)])
  /\ cmp_Equal Difference (Some (VDict mn)) (Some (VDict mo)) (differOpts b)
               (mkReporter [] [])
     = (false, mkReporter [] [mkFileDiff ("root[" +:+ Quote k +:+ "]") (Some v) None]).
Proof.
  intros Ho Hn Hsame Heq.
  assert (k ∈ keys mn) as Hk by (apply (proj1 (lookup_keys k mn)); by rewrite Hn).
  split.
  - apply (feedAll_dict_one b mo mn k).
    + apply elem_of_app. by right.
    + intros k' Hne. split; [by rewrite Hsame|]. by apply sameEntry_quiet.
    + intros ds. rewrite Ho, Hn. cbn [option_map callAny].
      rewrite compareAnyInvalid_missing by done.
      unfold feedAll. cbn [fold_left feed]. unfold PushStep, Report, PopStep.
      cbn [rpath diffs Result_Equal app]. rewrite simplePathString_root_key.
      done.
  - apply (feedAll_dict_one b mn mo k).
    + apply elem_of_app. by left.
    + intros k' Hne. rewrite (Hsame k' Hne). split; [done|].
      assert (sameEntry Difference b mn k' = sameEntry Difference b mo k') as ->
        by (unfold sameEntry; by rewrite Hsame).
      by apply sameEntry_quiet.
    + intros ds. rewrite Ho, Hn. cbn [option_map callAny].
      rewrite compareAnyWith_missing by done.
      unfold feedAll. cbn [fold_left feed]. unfold PushStep, Report, PopStep.
      cbn [rpath diffs Result_Equal app]. rewrite simplePathString_root_key.
      done.
Qed.

End Comparison.

(** ** Comparing decoded files *)

Section Files.

Variable Difference : nat -> nat -> (nat -> nat -> diff_Result) -> list EditType.
Variable Sprintf_v : value -> string.
Variable plist_Decode : bytes -> result value.

Local Abbreviation cmpEqual := (cmp_Equal Difference).
Local Abbreviation diffPl := (diffPlists Difference Sprintf_v plist_Decode).
Local Abbreviation decoded := (decodedOrNil plist_Decode).
Local Abbreviation diffFile := (diffFSFilename Difference Sprintf_v plist_Decode).
Local Abbreviation diffTrees := (diffFS Difference Sprintf_v plist_Decode).

Lemma cmp_Equal_quiet x y opts r :
  quiet (Equal_calls Difference (newState opts) x y) ->
  cmpEqual x y opts r = (true, r).
Proof.
  intros Hq. unfold cmp_Equal. f_equal.
  - by apply resultOf_Equal_quiet.
  - apply feedAll_balanced_quiet; [apply Equal_calls_balanced|done].
Qed.

Lemma diffPlists_cmp oldData newData opts :
  diffPl oldData newData opts
  = let '(eq, r) := cmpEqual (decoded oldData) (decoded newData)
                              opts (mkReporter [] []) in
    if eq then (true, "", None) else (false, diffReporter_String Sprintf_v r, None).
Proof. done. Qed.

Lemma diffFSFilename_read d a b filename aData bData :
  readFile d a filename = Ok aData -> readFile d b filename = Ok bData ->
  diffFile d a b filename
  = match diffPl aData bData (differOpts (IgnoreTimestamps d)) with
    | (_, _, Some err) => Err err
    | (eq, delta, None) => if eq then Ok None else Ok (Some delta)
    end.
Proof.
  intros Ha Hb. unfold diffFSFilename. rewrite Hb, Ha. simpl.
  by destruct (IgnoreTimestamps d).
Qed.

(** Two nil values compare equal. *)
Lemma cmp_Equal_nil b r : cmpEqual None None (differOpts b) r = (true, r).
Proof. apply cmp_Equal_quiet. destruct b; by repeat constructor. Qed.

(** C7 as the code has it: a value none of whose reals is a NaN compares
    equal to itself and leaves the reporter untouched, so do two nil
    values, and [diffPlists] on the same bytes twice reports equality with
    an empty text when the bytes do not decode or decode to such a value. *)
Theorem self_compare_equal (b : bool) :
  DifferenceSpec Difference ->
  (forall v r, noNaN v -> cmpEqual (Some v) (Some v) (differOpts b) r = (true, r))
  /\ (forall r, cmpEqual None None (differOpts b) r = (true, r))
  /\ (forall data,
        (forall v, decoded data = Some v -> noNaN v) ->
        diffPl data data (differOpts b) = (true, "", None)).
Proof.
  intros HD.
  assert (forall v r, noNaN v ->
            cmpEqual (Some v) (Some v) (differOpts b) r = (true, r)) as Hself.
  { intros v r Hv. apply cmp_Equal_quiet, Equal_calls_quiet; [done|].
    by apply noNaN_similar. }
  split; [done|]. split; [apply cmp_Equal_nil|].
  intros data Hdata. rewrite diffPlists_cmp.
  destruct (decoded data) as [v|].
  - by rewrite Hself by auto.
  - by rewrite cmp_Equal_nil.
Qed.

(** C8 as the code has it: with timestamps ignored, two values of one
    shape (the same keys, the same lengths) whose leaves other than
    timestamps are equal as Go values, so that no NaN is among them,
    compare equal and nothing is reported, and [diffFSFilename] on two
    files that decode to such values returns no diff. *)
Theorem timestamps_ignored (x y : value) :
  DifferenceSpec Difference ->
  sameButTimestamps x y ->
  (forall r, cmpEqual (Some x) (Some y) (differOpts true) r = (true, r))
  /\ (forall d a b filename aData bData,
        IgnoreTimestamps d = true ->
        readFile d a filename = Ok aData -> readFile d b filename = Ok bData ->
        plist_Decode aData = Ok x -> plist_Decode bData = Ok y ->
        diffFile d a b filename = Ok None).
Proof.
  intros HD Hs.
  assert (forall r, cmpEqual (Some x) (Some y) (differOpts true) r = (true, r))
    as Hxy by (intros r; by apply cmp_Equal_quiet, Equal_calls_quiet).
  split; [done|].
  intros d a b filename aData bData Hd Ha Hb Hx Hy.
  rewrite (diffFSFilename_read d a b filename aData bData Ha Hb), Hd.
  rewrite diffPlists_cmp. unfold decodedOrNil, decodePlist.
  by rewrite Hx, Hy, Hxy.
Qed.

Lemma cmp_Equal_fst x y opts :
  fst (cmpEqual x y opts (mkReporter [] []))
  = Nat.eqb (length (diffs (snd (cmpEqual x y opts (mkReporter [] []))))) 0.
Proof. by rewrite (cmp_Equal_reporter Difference x y opts _ eq_refl). Qed.

Lemma diffFSFilename_Some d a b filename s :
  diffFile d a b filename = Ok (Some s)
  <-> exists aData bData,
        readFile d a filename = Ok aData /\ readFile d b filename = Ok bData
        /\ fileDiffs Difference plist_Decode d aData bData <> []
        /\ s = snd (fst (diffPl aData bData (differOpts (IgnoreTimestamps d)))).
Proof.
  split.
  - intros H. destruct (readFile d b filename) as [bData|e] eqn:Hb;
      [|by unfold diffFSFilename in H; rewrite Hb in H].
    destruct (readFile d a filename) as [aData|e] eqn:Ha;
      [|by unfold diffFSFilename in H; rewrite Hb, Ha in H].
    rewrite (diffFSFilename_read d a b filename aData bData Ha Hb) in H.
    exists aData, bData. split; [done|]. split; [done|].
    rewrite diffPlists_cmp in *. unfold fileDiffs.
    destruct (cmpEqual _ _ _ _) as [eq r] eqn:E.
    pose proof (cmp_Equal_fst (decoded aData) (decoded bData)
                  (differOpts (IgnoreTimestamps d))) as Hfst.
    rewrite E in Hfst. simpl in Hfst. subst eq. simpl.
    destruct (diffs r); simpl in *; [done|]. by inversion H.
  - intros (aData & bData & Ha & Hb & Hd & ->).
    rewrite (diffFSFilename_read d a b filename aData bData Ha Hb).
    rewrite diffPlists_cmp in *. unfold fileDiffs in Hd.
    destruct (cmpEqual _ _ _ _) as [eq r] eqn:E.
    pose proof (cmp_Equal_fst (decoded aData) (decoded bData)
                  (differOpts (IgnoreTimestamps d))) as Hfst.
    rewrite E in Hfst. simpl in Hfst, Hd. subst eq.
    by destruct (diffs r).
Qed.

Lemma diffFS_range_round d a b skip L delta0 delta1 :
  diffFS_range (diffFS_round Difference Sprintf_v plist_Decode d a b skip) L delta0
  = Ok delta1 ->
  forall x, x ∈ dom delta1
            <-> x ∈ dom delta0
                \/ (x ∈ L /\ skip x = false
                    /\ exists s, diffFile d a b x = Ok (Some s)).
Proof.
  revert delta0. induction L as [|y L IH]; intros delta0; simpl.
  - intros [= <-] x. rewrite elem_of_nil. tauto.
  - unfold diffFS_round at 1. destruct (skip y) eqn:Hy; simpl.
    + intros H x. rewrite (IH _ H x), elem_of_cons.
      split; [tauto|]. intros [|([->|]&?&?)]; [tauto|congruence|tauto].
    + unfold diffFS_file.
      destruct (diffFile d a b y) as [[s|]|e] eqn:Hf; simpl; [| |done].
      * intros H x. rewrite (IH _ H x), dom_insert, elem_of_union,
          elem_of_singleton, elem_of_cons.
        split; [|intros [|([->|]&?&?)]; tauto].
        intros [[->|]|]; [|tauto..]. right. eauto 10.
      * intros H x. rewrite (IH _ H x), elem_of_cons.
        split; [tauto|]. intros [|([->|]&?&[s Hs])]; [tauto|congruence|eauto 10].
Qed.

Lemma diffFS_range_Err d a b skip L delta0 x e :
  x ∈ L -> skip x = false -> diffFile d a b x = Err e ->
  exists e',
    diffFS_range (diffFS_round Difference Sprintf_v plist_Decode d a b skip) L delta0
    = Err e'.
Proof.
  intros Hx Hs He. revert delta0. induction L as [|y L IH]; intros delta0;
    [by inversion Hx|]. simpl.
  destruct (diffFS_round _ _ _ d a b skip delta0 y) as [delta'|e'] eqn:E;
    simpl; [|by eauto].
  apply elem_of_cons in Hx as [<-|Hx]; [|by apply IH].
  unfold diffFS_round, diffFS_file in E. by rewrite Hs, He in E.
Qed.

(** The two loops of [diffFS] as rounds. *)
Lemma diffFS_rounds d a b :
  diffTrees d a b
  = match getPlistFiles a with
    | (_, Some err) => Err err
    | (aFiles, None) =>
        delta <- diffFS_range
                   (diffFS_round Difference Sprintf_v plist_Decode d a b
                      (fun _ => false))
                   (elements aFiles) ∅;;
        match getPlistFiles b with
        | (_, Some err) => Err err
        | (bFiles, None) =>
            delta <- diffFS_range
                       (diffFS_round Difference Sprintf_v plist_Decode d a b
                          (fun filename => bool_decide (filename ∈ aFiles)))
                       (elements bFiles) delta;;
            Ok (Nat.eqb (size delta) 0, delta)
        end
    end.
Proof. done. Qed.

Lemma diffFS_Ok d a b eq delta :
  diffTrees d a b = Ok (eq, delta) ->
  eq = Nat.eqb (size delta) 0
  /\ (forall filename,
        filename ∈ dom delta
        <-> filename ∈ fst (getPlistFiles a) ∪ fst (getPlistFiles b)
            /\ exists s, diffFile d a b filename = Ok (Some s)).
Proof.
  rewrite diffFS_rounds.
  destruct (getPlistFiles a) as [aFiles [e|]]; [done|].
  destruct (diffFS_range _ (elements aFiles) ∅) as [delta1|e] eqn:E1; [|done].
  simpl. destruct (getPlistFiles b) as [bFiles [e|]]; [done|].
  destruct (diffFS_range _ (elements bFiles) delta1) as [delta2|e] eqn:E2; [|done].
  simpl. intros [= <- <-]. split; [done|].
  intros filename.
  rewrite (diffFS_range_round _ _ _ _ _ _ _ E2 filename).
  rewrite (diffFS_range_round _ _ _ _ _ _ _ E1 filename).
  rewrite dom_empty, elem_of_empty, !elem_of_elements, elem_of_union.
  rewrite bool_decide_eq_false.
  split.
  - intros [[[]|(Ha & _ & Hs)]|(Hb & Hna & Hs)]; eauto.
  - intros (Hin & Hs).
    destruct (decide (filename ∈ aFiles)); [left; right; eauto|].
    right. destruct Hin; [done|]. eauto.
Qed.

(** C1: when [diffFS] returns a result, [equal] holds exactly when the
    diff set is empty, and a filename is a key of the set exactly when it
    is one of the plist files of either tree and the comparison of its two
    sides yields at least one difference. *)
Theorem diffFS_result (d : differ) (a b : FS) (eq : bool)
    (delta : gmap string string) :
  diffTrees d a b = Ok (eq, delta) ->
  (eq = true <-> delta = ∅)
  /\ (forall filename,
        filename ∈ dom delta
        <-> filename ∈ fst (getPlistFiles a) ∪ fst (getPlistFiles b)
            /\ exists aData bData,
                 readFile d a filename = Ok aData
                 /\ readFile d b filename = Ok bData
                 /\ fileDiffs Difference plist_Decode d aData bData <> []).
Proof.
  intros H. apply diffFS_Ok in H as [-> Hkeys]. split.
  - rewrite Nat.eqb_eq. apply map_size_empty_iff.
  - intros filename. rewrite Hkeys. split.
    + intros (Hin & s & Hs). split; [done|].
      apply diffFSFilename_Some in Hs as (aData & bData & ? & ? & ? & _).
      eauto 10.
    + intros (Hin & aData & bData & Ha & Hb & Hd). split; [done|].
      eexists. apply diffFSFilename_Some. eauto 10.
Qed.

Lemma diffFSFilename_read_Err d a b filename :
  ReadFile a filename = Err ErrPermission \/ ReadFile b filename = Err ErrPermission ->
  IgnorePermissionError d = false ->
  exists e, diffFile d a b filename = Err e.
Proof.
  intros H Hd. unfold diffFSFilename.
  assert (forall fsys, ReadFile fsys filename = Err ErrPermission ->
            readFile d fsys filename = Err ErrPermission) as Hr.
  { intros fsys Hf. unfold readFile. by rewrite Hf, Hd. }
  destruct H as [Ha|Hb].
  - destruct (readFile d b filename); simpl; [|by eauto].
    rewrite (Hr a Ha). simpl. by eauto.
  - rewrite (Hr b Hb). simpl. by eauto.
Qed.

(** C5: a file that does not exist reads as no bytes and no error; so does
    a file that may not be read when permission errors are ignored; when
    they are not, the error is returned, and [diffFS] on trees one of whose
    plist files may not be read on either side returns an error and no
    diff set. *)
Theorem readFile_errors (d : differ) :
  (forall fsys filename,
      ReadFile fsys filename = Err ErrNotExist ->
      readFile d fsys filename = Ok [])
  /\ (forall fsys filename,
        ReadFile fsys filename = Err ErrPermission ->
        IgnorePermissionError d = true ->
        readFile d fsys filename = Ok [])
  /\ (forall fsys filename,
        ReadFile fsys filename = Err ErrPermission ->
        IgnorePermissionError d = false ->
        readFile d fsys filename = Err ErrPermission)
  /\ (forall a b filename,
        IgnorePermissionError d = false ->
        filename ∈ fst (getPlistFiles a) ∪ fst (getPlistFiles b) ->
        ReadFile a filename = Err ErrPermission
        \/ ReadFile b filename = Err ErrPermission ->
        exists e, diffTrees d a b = Err e).
Proof.
  repeat split.
  - intros fsys filename H. unfold readFile. by rewrite H.
  - intros fsys filename H Hd. unfold readFile. by rewrite H, Hd.
  - intros fsys filename H Hd. unfold readFile. by rewrite H, Hd.
  - intros a b filename Hd Hin Hperm.
    destruct (diffFSFilename_read_Err d a b filename Hperm Hd) as [e He].
    rewrite diffFS_rounds.
    destruct (getPlistFiles a) as [aFiles [e'|]]; [by eauto|].
    destruct (decide (filename ∈ aFiles)) as [Ha|Ha].
    { destruct (diffFS_range_Err d a b (fun _ => false) (elements aFiles) ∅
                  filename e) as [e' ->]; [by apply elem_of_elements|done..|].
      simpl. by eauto. }
    destruct (diffFS_range _ (elements aFiles) ∅) as [delta1|e']; [|by simpl; eauto].
    simpl. destruct (getPlistFiles b) as [bFiles [e'|]]; [by eauto|].
    simpl in Hin. apply elem_of_union in Hin as [|Hb]; [done|].
    destruct (diffFS_range_Err d a b (fun f => bool_decide (f ∈ aFiles))
                (elements bFiles) delta1 filename e) as [e' ->];
      [by apply elem_of_elements|by apply bool_decide_eq_false|done|].
    simpl. by eauto.
Qed.

(** C6: [diffPlists] never returns an error; a side whose bytes do not
    decode is compared as nil; and [diffFSFilename] returns a result
    whenever both sides can be read, whether or not they decode. *)
Theorem decode_failure_absorbed :
  (forall oldData newData opts, snd (diffPl oldData newData opts) = None)
  /\ (forall data e, plist_Decode data = Err e -> decoded data = None)
  /\ (forall oldData newData opts,
        diffPl oldData newData opts
        = let '(eq, r) := cmpEqual (decoded oldData) (decoded newData) opts
                                   (mkReporter [] []) in
          if eq then (true, "", None)
          else (false, diffReporter_String Sprintf_v r, None))
  /\ (forall d a b filename aData bData,
        readFile d a filename = Ok aData -> readFile d b filename = Ok bData ->
        exists df, diffFile d a b filename = Ok df).
Proof.
  repeat split.
  - intros oldData newData opts. rewrite diffPlists_cmp.
    destruct (cmpEqual _ _ _ _) as [[] r]; done.
  - intros data e H. unfold decodedOrNil, decodePlist. by rewrite H.
  - intros d a b filename aData bData Ha Hb.
    rewrite (diffFSFilename_read d a b filename aData bData Ha Hb).
    rewrite diffPlists_cmp. destruct (cmpEqual _ _ _ _) as [[] r]; eauto.
Qed.

Lemma cmp_Equal_empty_dicts b r :
  cmpEqual (Some (VDict [])) (Some (VDict [])) (differOpts b) r = (true, r).
Proof.
  apply cmp_Equal_quiet. destruct b; vm_compute; by repeat constructor.
Qed.

(** C9 as the code has it: when both sides of a file can be read and
    neither decodes, the two nil values compare equal without a
    difference being recorded, [diffFSFilename] returns no diff, and the
    file is not a key of the result of [diffFS]; the same holds when both
    sides decode to the empty dictionary. *)
Theorem undecodable_sides_equal (d : differ) (a b : FS) (filename : string)
    (aData bData : bytes) :
  readFile d a filename = Ok aData -> readFile d b filename = Ok bData ->
  (exists ea eb, plist_Decode aData = Err ea /\ plist_Decode bData = Err eb)
  \/ (plist_Decode aData = Ok (VDict []) /\ plist_Decode bData = Ok (VDict [])) ->
  fileDiffs Difference plist_Decode d aData bData = []
  /\ diffPl aData bData (differOpts (IgnoreTimestamps d)) = (true, "", None)
  /\ diffFile d a b filename = Ok None
  /\ (forall eq delta, diffTrees d a b = Ok (eq, delta) -> delta !! filename = None).
Proof.
  intros Ha Hb Hdec.
  assert (forall r, cmpEqual (decoded aData) (decoded bData)
                      (differOpts (IgnoreTimestamps d)) r = (true, r)) as Hcmp.
  { intros r. unfold decodedOrNil, decodePlist.
    destruct Hdec as [(ea & eb & -> & ->)|[-> ->]];
      [apply cmp_Equal_nil|apply cmp_Equal_empty_dicts]. }
  assert (diffPl aData bData (differOpts (IgnoreTimestamps d)) = (true, "", None))
    as Hpl by (by rewrite diffPlists_cmp, Hcmp).
  assert (diffFile d a b filename = Ok None) as Hfile
    by (by rewrite (diffFSFilename_read d a b filename aData bData Ha Hb), Hpl).
  repeat split; [|done..|].
  - unfold fileDiffs. by rewrite Hcmp.
  - intros eq delta H. apply not_elem_of_dom.
    rewrite (proj2 (diffFS_Ok d a b eq delta H) filename).
    intros (_ & s & Hs). by rewrite Hfile in Hs.
Qed.

End Files.

(** ** The properties on sample inputs *)

Lemma map_seq_const {X : Type} (g : nat -> X) (c : X) n m :
  (forall i, (n <= i < n + m)%nat -> g i = c) -> map g (seq n m) = repeat c m.
Proof.
  revert n; induction m as [|m IH]; intros n H; simpl; [done|].
  rewrite H by lia. f_equal. apply IH. intros i Hi. apply H. lia.
Qed.

Lemma alignedScript_spec : DifferenceSpec alignedScript.
Proof.
  intros n f Hf. unfold alignedScript.
  rewrite Nat.min_id, Nat.sub_diag. simpl. rewrite app_nil_r.
  apply map_seq_const. intros i Hi. rewrite Hf by lia. done.
Qed.

Lemma diffFS_result_witness :
  diffFS alignedScript sampleSprintf sampleDecode sampleDiffer sampleOld sampleNew
  = Ok (false, sampleDelta)
  /\ ((false = true <-> sampleDelta = ∅)
      /\ (forall filename,
            filename ∈ dom sampleDelta
            <-> filename ∈ fst (getPlistFiles sampleOld) ∪ fst (getPlistFiles sampleNew)
                /\ exists aData bData,
                     readFile sampleDiffer sampleOld filename = Ok aData
                     /\ readFile sampleDiffer sampleNew filename = Ok bData
                     /\ fileDiffs alignedScript sampleDecode sampleDiffer aData bData
                        <> [])).
Proof.
  assert (diffFS alignedScript sampleSprintf sampleDecode sampleDiffer
            sampleOld sampleNew = Ok (false, sampleDelta)) as H
    by (vm_compute; reflexivity).
  split; [exact H|].
  exact (diffFS_result alignedScript sampleSprintf sampleDecode sampleDiffer
           sampleOld sampleNew false sampleDelta H).
Defined.

Lemma root_type_mismatch_witness :
  typeOf (VString "a") <> typeOf (VUint 1)
  /\ cmp_Equal alignedScript (Some (VString "a")) (Some (VUint 1))
       (differOpts true) (mkReporter [] [])
     = (false, mkReporter [] [mkFileDiff "root" (Some (VString "a")) (Some (VUint 1))]).
Proof.
  assert (typeOf (VString "a") <> typeOf (VUint 1)) as H by (simpl; discriminate).
  split; [exact H|].
  exact (root_type_mismatch alignedScript true (VString "a") (VUint 1) H).
Defined.

(** C3 as stated fails: the one difference between a string and an
    integer at the root is located at [root], not at the empty path. *)
Lemma root_difference_path :
  map path
    (diffs (snd (cmp_Equal alignedScript (Some (VString "a")) (Some (VUint 1))
                   (differOpts true) (mkReporter [] []))))
  = ["root"]
  /\ map path
       (diffs (snd (cmp_Equal alignedScript (Some (VString "a")) (Some (VUint 1))
                      (differOpts true) (mkReporter [] []))))
     <> [""].
Proof. split; vm_compute; [reflexivity|discriminate]. Qed.

Lemma dict_key_added_removed_witness :
  lookup "b" sampleDictOld = None /\ lookup "b" sampleDictNew = Some (VBool true)
  /\ (forall k', k' <> "b" -> lookup k' sampleDictNew = lookup k' sampleDictOld)
  /\ fst (cmp_Equal alignedScript (Some (VDict sampleDictOld)) (Some (VDict sampleDictOld))
            (differOpts true) (mkReporter [] [])) = true
  /\ cmp_Equal alignedScript (Some (VDict sampleDictOld)) (Some (VDict sampleDictNew)) (differOpts true)
               (mkReporter [] [])
     = (false, mkReporter [] [mkFileDiff ("root[" +:+ Quote "b" +:+ "]") None
                                (Some (VBool true))])
  /\ cmp_Equal alignedScript (Some (VDict sampleDictNew)) (Some (VDict sampleDictOld)) (differOpts true)
               (mkReporter [] [])
     = (false, mkReporter [] [mkFileDiff ("root[" +:+ Quote "b" +:+ "]")
                                (Some (VBool true)) None]).
Proof.
  assert (forall k', k' <> "b" -> lookup k' sampleDictNew = lookup k' sampleDictOld) as H.
  { intros k' Hne. unfold sampleDictNew, sampleDictOld. cbn [lookup].
    destruct (String.eqb k' "a"); [done|].
    destruct (String.eqb_spec k' "b"); done. }
  assert (fst (cmp_Equal alignedScript (Some (VDict sampleDictOld)) (Some (VDict sampleDictOld))
                 (differOpts true) (mkReporter [] [])) = true) as Heq
    by (vm_compute; reflexivity).
  split; [reflexivity|]. split; [reflexivity|]. split; [exact H|].
  split; [exact Heq|].
  exact (dict_key_added_removed alignedScript true sampleDictOld sampleDictNew "b" (VBool true)
           eq_refl eq_refl H Heq).
Defined.

(** C4 as stated fails: when [old] holds a NaN, which differs from itself,
    adding a key to it gives two differences, not one. *)
Lemma dict_key_added_nan :
  lookup "k" (sampleNaN 1) = None
  /\ lookup "k" sampleNaNAdded = Some (VUint 1)
  /\ lookup "f" sampleNaNAdded = lookup "f" (sampleNaN 1)
  /\ lookup "t" sampleNaNAdded = lookup "t" (sampleNaN 1)
  /\ cmp_Equal alignedScript (Some (VDict (sampleNaN 1))) (Some (VDict sampleNaNAdded))
       (differOpts true) (mkReporter [] [])
     = (false,
        mkReporter [] [mkFileDiff ("root[" +:+ Quote "f" +:+ "]")
                         (Some (VReal nan)) (Some (VReal nan));
                       mkFileDiff ("root[" +:+ Quote "k" +:+ "]")
                         None (Some (VUint 1))]).
Proof. repeat split; vm_compute; reflexivity. Qed.

Lemma readFile_errors_witness :
  ReadFile sampleNew "e.plist" = Err ErrNotExist
  /\ readFile strictDiffer sampleNew "e.plist" = Ok []
  /\ ReadFile sampleDenied "a.plist" = Err ErrPermission
  /\ readFile sampleDiffer sampleDenied "a.plist" = Ok []
  /\ readFile strictDiffer sampleDenied "a.plist" = Err ErrPermission
  /\ exists e, diffFS alignedScript sampleSprintf sampleDecode strictDiffer
                 sampleOld sampleDenied = Err e.
Proof.
  destruct (readFile_errors alignedScript sampleSprintf sampleDecode strictDiffer)
    as (H1 & _ & H3 & H4).
  destruct (readFile_errors alignedScript sampleSprintf sampleDecode sampleDiffer)
    as (_ & H2 & _).
  split; [reflexivity|]. split; [exact (H1 sampleNew "e.plist" eq_refl)|].
  split; [reflexivity|].
  split; [exact (H2 sampleDenied "a.plist" eq_refl eq_refl)|].
  split; [exact (H3 sampleDenied "a.plist" eq_refl eq_refl)|].
  apply (H4 sampleOld sampleDenied "a.plist"); [reflexivity| |by right].
  vm_compute. reflexivity.
Defined.

Lemma decode_failure_absorbed_witness :
  snd (diffPlists alignedScript sampleSprintf sampleDecode [9] [4; 1] []) = None
  /\ sampleDecode [9] = Err (ErrOther "plist: invalid data")
  /\ decodedOrNil sampleDecode [9] = None
  /\ readFile sampleDiffer sampleOld "e.plist" = Ok [9]
  /\ readFile sampleDiffer sampleNew "e.plist" = Ok []
  /\ exists df,
       diffFSFilename alignedScript sampleSprintf sampleDecode sampleDiffer
         sampleOld sampleNew "e.plist" = Ok df.
Proof.
  destruct (decode_failure_absorbed alignedScript sampleSprintf sampleDecode)
    as (H1 & H2 & _ & H4).
  split; [exact (H1 [9] [4; 1] [])|]. split; [reflexivity|].
  split; [exact (H2 [9] _ eq_refl)|]. split; [reflexivity|].
  split; [reflexivity|].
  exact (H4 sampleDiffer sampleOld sampleNew "e.plist" [9] [] eq_refl eq_refl).
Defined.

Lemma self_compare_equal_witness :
  DifferenceSpec alignedScript
  /\ noNaN (sampleValue 1)
  /\ cmp_Equal alignedScript (Some (sampleValue 1)) (Some (sampleValue 1))
       (differOpts false) (mkReporter [] [])
     = (true, mkReporter [] [])
  /\ diffPlists alignedScript sampleSprintf sampleDecode [5; 1; 2] [5; 1; 2]
       (differOpts false)
     = (true, "", None).
Proof.
  destruct (self_compare_equal alignedScript sampleSprintf sampleDecode false
              alignedScript_spec) as (H1 & _ & H3).
  assert (noNaN (sampleValue 1)) as Hv by (cbn; tauto).
  split; [exact alignedScript_spec|]. split; [exact Hv|].
  split; [exact (H1 (sampleValue 1) (mkReporter [] []) Hv)|].
  apply (H3 [5; 1; 2]). intros v [= <-]. cbn; tauto.
Defined.

(** C7 as stated fails: a NaN real differs from itself, so a value that
    holds one does not compare equal to itself, nor does [diffPlists]
    report equality on bytes that decode to it. *)
Lemma nan_differs_from_itself :
  cmp_Equal alignedScript (Some (VReal nan)) (Some (VReal nan))
    (differOpts true) (mkReporter [] [])
  = (false,
     mkReporter [] [mkFileDiff "{float64}" (Some (VReal nan)) (Some (VReal nan))])
  /\ sampleDecode [3] = Ok (VReal nan)
  /\ fst (fst (diffPlists alignedScript sampleSprintf sampleDecode [3] [3]
                 (differOpts true))) = false.
Proof. repeat split; vm_compute; reflexivity. Qed.

Lemma timestamps_ignored_witness :
  DifferenceSpec alignedScript
  /\ sameButTimestamps (sampleValue 1) (sampleSwapped 3)
  /\ cmp_Equal alignedScript (Some (sampleValue 1)) (Some (sampleSwapped 3))
       (differOpts true) (mkReporter [] [])
     = (true, mkReporter [] [])
  /\ diffFSFilename alignedScript sampleSprintf sampleDecode sampleDiffer
       sampleOld sampleNew "t.plist" = Ok None.
Proof.
  assert (sameButTimestamps (sampleValue 1) (sampleSwapped 3)) as Hs.
  { constructor. intros k. unfold sampleValue, sampleSwapped. cbn [lookup].
    destruct (String.eqb_spec k "at") as [->|Hat].
    - change ("at" =? "xs")%string with false. constructor. constructor. by left.
    - destruct (String.eqb_spec k "xs") as [->|Hxs]; constructor.
      constructor. repeat constructor. }
  destruct (timestamps_ignored alignedScript sampleSprintf sampleDecode
              (sampleValue 1) (sampleSwapped 3) alignedScript_spec Hs) as [H1 H2].
  split; [exact alignedScript_spec|]. split; [exact Hs|].
  split; [exact (H1 (mkReporter [] []))|].
  exact (H2 sampleDiffer sampleOld sampleNew "t.plist" [5; 1; 2] [6; 3; 2]
           eq_refl eq_refl eq_refl eq_refl eq_refl).
Defined.

(** C8 as stated fails: two dictionaries that differ in a timestamp only
    are reported as different, timestamps ignored, when they hold a NaN,
    which differs from itself. *)
Lemma timestamps_ignored_nan :
  lookup "f" (sampleNaN 1) = lookup "f" (sampleNaN 2)
  /\ lookup "t" (sampleNaN 1) = Some (VDate 1)
  /\ lookup "t" (sampleNaN 2) = Some (VDate 2)
  /\ cmp_Equal alignedScript (Some (VDict (sampleNaN 1))) (Some (VDict (sampleNaN 2)))
       (differOpts true) (mkReporter [] [])
     = (false,
        mkReporter [] [mkFileDiff ("root[" +:+ Quote "f" +:+ "]")
                         (Some (VReal nan)) (Some (VReal nan))]).
Proof. repeat split; vm_compute; reflexivity. Qed.

Lemma undecodable_sides_equal_witness :
  readFile sampleDiffer sampleOld "u.plist" = Ok [9]
  /\ readFile sampleDiffer sampleNew "u.plist" = Ok [9; 9]
  /\ ((exists ea eb, sampleDecode [9] = Err ea /\ sampleDecode [9; 9] = Err eb)
      \/ (sampleDecode [9] = Ok (VDict []) /\ sampleDecode [9; 9] = Ok (VDict [])))
  /\ fileDiffs alignedScript sampleDecode sampleDiffer [9] [9; 9] = []
  /\ diffPlists alignedScript sampleSprintf sampleDecode [9] [9; 9]
       (differOpts (IgnoreTimestamps sampleDiffer)) = (true, "", None)
  /\ diffFSFilename alignedScript sampleSprintf sampleDecode sampleDiffer
       sampleOld sampleNew "u.plist" = Ok None
  /\ (forall eq delta,
        diffFS alignedScript sampleSprintf sampleDecode sampleDiffer
          sampleOld sampleNew = Ok (eq, delta) ->
        delta !! "u.plist" = None).
Proof.
  assert ((exists ea eb, sampleDecode [9] = Err ea /\ sampleDecode [9; 9] = Err eb)
          \/ (sampleDecode [9] = Ok (VDict [])
              /\ sampleDecode [9; 9] = Ok (VDict []))) as H
    by (left; by eexists _, _).
  split; [reflexivity|]. split; [reflexivity|]. split; [exact H|].
  exact (undecodable_sides_equal alignedScript sampleSprintf sampleDecode
           sampleDiffer sampleOld sampleNew "u.plist" [9] [9; 9]
           eq_refl eq_refl H).
Defined.

(** C9 as stated fails: a file that only one tree holds and that does not
    parse is compared with empty data, which the decoder takes for an
    empty dictionary, so it is reported and is a key of the diff set. *)
Lemma one_sided_unparsable_reported :
  readFile sampleDiffer sampleOld "e.plist" = Ok [9]
  /\ sampleDecode [9] = Err (ErrOther "plist: invalid data")
  /\ ReadFile sampleNew "e.plist" = Err ErrNotExist
  /\ readFile sampleDiffer sampleNew "e.plist" = Ok []
  /\ sampleDecode [] = Ok (VDict [])
  /\ diffFSFilename alignedScript sampleSprintf sampleDecode sampleDiffer
       sampleOld sampleNew "e.plist"
     = Ok (Some (tab +:+ "+root: map[] (map[string]interface {})"))
  /\ diffFS alignedScript sampleSprintf sampleDecode sampleDiffer
       sampleOld sampleNew = Ok (false, sampleDelta)
  /\ sampleDelta !! "e.plist"
     = Some (tab +:+ "+root: map[] (map[string]interface {})").
Proof. repeat split; vm_compute; reflexivity. Qed.

(** * Further properties *)

(** ** Enumerating the plist files *)

Lemma length_append (s t : string) :
  String.length (s +:+ t) = (String.length s + String.length t)%nat.
Proof.
  induction s as [|c s IH]; [done|]. rewrite append_cons. simpl. by rewrite IH.
Qed.

Lemma substring_all (s : string) : substring 0 (String.length s) s = s.
Proof. induction s as [|c s IH]; [done|]. simpl. by rewrite IH. Qed.

Lemma substring_suffix (p s : string) :
  substring (String.length p) (String.length s) (p +:+ s) = s.
Proof.
  induction p as [|c p IH]; [apply substring_all|].
  rewrite append_cons. simpl. apply IH.
Qed.

Lemma substring_split (s : string) (k : nat) :
  (k <= String.length s)%nat ->
  s = substring 0 k s +:+ substring k (String.length s - k) s.
Proof.
  revert k; induction s as [|c s IH]; intros k Hk.
  - simpl in Hk. by replace k with 0%nat by lia.
  - destruct k as [|k].
    + change (substring 0 0 (String c s)) with "".
      rewrite Nat.sub_0_r, substring_all. done.
    + simpl in Hk. simpl substring. rewrite append_cons. f_equal.
      apply IH. lia.
Qed.

(** [strings.HasSuffix] holds of the strings that end in the suffix. *)
Lemma HasSuffix_spec (s suffix : string) :
  HasSuffix s suffix = true <-> exists stem, s = stem +:+ suffix.
Proof.
  unfold HasSuffix. rewrite andb_true_iff, Nat.leb_le, String.eqb_eq. split.
  - intros [Hle Hsub]. exists (substring 0 (String.length s - String.length suffix) s).
    pose proof (substring_split s (String.length s - String.length suffix))
      as H.
    replace (String.length s - (String.length s - String.length suffix))%nat
      with (String.length suffix) in H by lia.
    rewrite Hsub in H. apply H. lia.
  - intros [stem ->]. rewrite length_append. split; [lia|].
    replace (String.length stem + String.length suffix - String.length suffix)%nat
      with (String.length stem) by lia.
    apply substring_suffix.
Qed.

Lemma getPlistFiles_walk_spec w files0 :
  snd (getPlistFiles_walk w files0) = firstError w
  /\ forall name,
       name ∈ fst (getPlistFiles_walk w files0)
       <-> name ∈ files0
           \/ ((name, true) ∈ beforeError w /\ HasSuffix name ".plist" = true).
Proof.
  revert files0; induction w as [|[path [e|regular]] w IH]; intros files0.
  - simpl. split; [done|]. intros name. rewrite elem_of_nil. tauto.
  - simpl. split; [done|]. intros name. rewrite elem_of_nil. tauto.
  - cbn [getPlistFiles_walk beforeError firstError].
    destruct regular; cbn [negb].
    + destruct (HasSuffix path ".plist") eqn:Hs; cbn [negb].
      * destruct (IH ({[path]} ∪ files0)) as [He Hf]. split; [done|].
        intros name. rewrite Hf, elem_of_union, elem_of_singleton, elem_of_cons.
        split.
        -- intros [[->|]|[? ?]]; auto.
        -- intros [|[[[= -> ]|] ?]]; auto.
      * destruct (IH files0) as [He Hf]. split; [done|].
        intros name. rewrite Hf, elem_of_cons. split; [tauto|].
        intros [|[[[= ->]|] ?]]; [auto|congruence|auto].
    + destruct (IH files0) as [He Hf]. split; [done|].
      intros name. rewrite Hf, elem_of_cons. split; [tauto|].
      intros [|[[[=]|] ?]]; auto.
Qed.

Lemma getPlistFiles_elem fSys name :
  name ∈ fst (getPlistFiles fSys)
  <-> (name, true) ∈ beforeError (WalkDir fSys)
      /\ exists stem, name = stem +:+ ".plist".
Proof.
  unfold getPlistFiles.
  rewrite (proj2 (getPlistFiles_walk_spec (WalkDir fSys) ∅) name).
  rewrite elem_of_empty, HasSuffix_spec. tauto.
Qed.

(** X1: [getPlistFiles] returns the error of the first failing step of the
    walk, if any, and exactly the names that the walk reached before it as
    regular files and that end in [.plist]. *)
Theorem getPlistFiles_spec (fSys : FS) :
  snd (getPlistFiles fSys) = firstError (WalkDir fSys)
  /\ forall name,
       name ∈ fst (getPlistFiles fSys)
       <-> (name, true) ∈ beforeError (WalkDir fSys)
           /\ exists stem, name = stem +:+ ".plist".
Proof.
  split; [apply getPlistFiles_walk_spec|apply getPlistFiles_elem].
Qed.

(** ** Reading a file *)

(** X2: [readFile] hands on the bytes of a successful read unchanged; the
    only errors it returns are those of [fs.ReadFile], never a missing
    file, and a permission error only when those are not ignored. *)
Theorem readFile_result (d : differ) (fsys : FS) (filename : string) :
  (forall data, ReadFile fsys filename = Ok data ->
                readFile d fsys filename = Ok data)
  /\ (forall e, readFile d fsys filename = Err e ->
                ReadFile fsys filename = Err e
                /\ e <> ErrNotExist
                /\ (e = ErrPermission -> IgnorePermissionError d = false))
  /\ (forall data, readFile d fsys filename = Ok data ->
                   ReadFile fsys filename = Ok data
                   \/ (data = []
                       /\ (ReadFile fsys filename = Err ErrNotExist
                           \/ (ReadFile fsys filename = Err ErrPermission
                               /\ IgnorePermissionError d = true)))).
Proof.
  unfold readFile.
  destruct (ReadFile fsys filename) as [data0|[| |msg]];
    destruct (IgnorePermissionError d); repeat split; intros;
    simplify_eq; auto 10.
Qed.

(** ** The file-set differ *)

Section Files2.

Variable Difference : nat -> nat -> (nat -> nat -> diff_Result) -> list EditType.
Variable Sprintf_v : value -> string.
Variable plist_Decode : bytes -> result value.

Local Abbreviation diffFile := (diffFSFilename Difference Sprintf_v plist_Decode).
Local Abbreviation diffTrees := (diffFS Difference Sprintf_v plist_Decode).
Local Abbreviation diffTreesIn := (diffFS_in Difference Sprintf_v plist_Decode).
Local Abbreviation round := (diffFS_round Difference Sprintf_v plist_Decode).

Lemma diffFSFilename_Ok_iff d a b filename :
  (exists df, diffFile d a b filename = Ok df)
  <-> (exists aData, readFile d a filename = Ok aData)
      /\ (exists bData, readFile d b filename = Ok bData).
Proof.
  split.
  - intros [df H]. unfold diffFSFilename in H.
    destruct (readFile d b filename) as [bData|e]; [|done].
    destruct (readFile d a filename) as [aData|e]; [|done]. eauto.
  - intros [[aData Ha] [bData Hb]].
    rewrite (diffFSFilename_read _ _ _ d a b filename aData bData Ha Hb).
    rewrite diffPlists_cmp. destruct (cmp_Equal _ _ _ _ _) as [[] r]; eauto.
Qed.

Lemma diffFS_range_lookup d a b skip L delta0 delta1 :
  diffFS_range (round d a b skip) L delta0 = Ok delta1 ->
  forall x,
    delta1 !! x
    = match diffFile d a b x with
      | Ok (Some s) =>
          if bool_decide (x ∈ L) && negb (skip x) then Some s else delta0 !! x
      | _ => delta0 !! x
      end.
Proof.
  revert delta0. induction L as [|y L IH]; intros delta0; simpl.
  - intros [= <-] x. by destruct (diffFile d a b x) as [[s|]|e].
  - unfold diffFS_round at 1. destruct (skip y) eqn:Hy; simpl.
    + intros H x. rewrite (IH _ H x).
      destruct (diffFile d a b x) as [[s|]|e]; [|done..].
      destruct (decide (x = y)) as [->|Hne].
      * rewrite Hy. simpl. by rewrite !andb_false_r.
      * by rewrite (bool_decide_ext (x ∈ y :: L) (x ∈ L))
          by (rewrite elem_of_cons; tauto).
    + unfold diffFS_file.
      destruct (diffFile d a b y) as [[s|]|e] eqn:Hf; simpl; [| |done].
      * intros H x. rewrite (IH _ H x).
        destruct (decide (x = y)) as [->|Hne].
        -- rewrite Hf, Hy, lookup_insert_eq.
           rewrite (bool_decide_eq_true_2 (y ∈ y :: L)) by (by left).
           by destruct (bool_decide (y ∈ L)).
        -- rewrite lookup_insert_ne by done.
           by rewrite (bool_decide_ext (x ∈ y :: L) (x ∈ L))
             by (rewrite elem_of_cons; tauto).
      * intros H x. rewrite (IH _ H x).
        destruct (decide (x = y)) as [->|Hne].
        -- by rewrite Hf.
        -- by rewrite (bool_decide_ext (x ∈ y :: L) (x ∈ L))
             by (rewrite elem_of_cons; tauto).
Qed.

Lemma diffFS_range_Ok d a b skip L delta0 :
  (forall x, x ∈ L -> skip x = false -> exists df, diffFile d a b x = Ok df) ->
  exists delta1, diffFS_range (round d a b skip) L delta0 = Ok delta1.
Proof.
  revert delta0. induction L as [|y L IH]; intros delta0 H; simpl; [by eauto|].
  unfold diffFS_round at 1. destruct (skip y) eqn:Hy; simpl.
  - apply IH. intros x Hx. apply H. by right.
  - destruct (H y) as [df Hdf]; [by left|done|].
    unfold diffFS_file. rewrite Hdf. simpl.
    destruct df; apply IH; intros x Hx; apply H; by right.
Qed.

Lemma diffFS_range_Ok_inv d a b skip L delta0 delta1 x :
  diffFS_range (round d a b skip) L delta0 = Ok delta1 ->
  x ∈ L -> skip x = false -> exists df, diffFile d a b x = Ok df.
Proof.
  intros H Hx Hs. destruct (diffFile d a b x) as [df|e] eqn:E; [by eauto|].
  destruct (diffFS_range_Err _ _ _ d a b skip L delta0 x e Hx Hs E) as [e' He'].
  by rewrite He' in H.
Qed.

Lemma diffFS_range_perm d a b skip L L' delta0 delta1 :
  L ≡ₚ L' ->
  diffFS_range (round d a b skip) L delta0 = Ok delta1 ->
  diffFS_range (round d a b skip) L' delta0 = Ok delta1.
Proof.
  intros HL H.
  destruct (diffFS_range_Ok d a b skip L' delta0) as [delta1' H'].
  { intros x Hx. apply (diffFS_range_Ok_inv d a b skip L delta0 delta1 x H).
    by rewrite HL. }
  rewrite H'. f_equal. apply map_eq. intros x.
  rewrite (diffFS_range_lookup _ _ _ _ _ _ _ H x).
  rewrite (diffFS_range_lookup _ _ _ _ _ _ _ H' x).
  by rewrite (bool_decide_ext (x ∈ L) (x ∈ L')) by (by rewrite HL).
Qed.

Lemma diffFS_in_rounds (oA oB : gset string -> list string) d a b :
  diffTreesIn oA oB d a b
  = match getPlistFiles a with
    | (_, Some err) => Err err
    | (aFiles, None) =>
        delta <- diffFS_range (round d a b (fun _ => false)) (oA aFiles) ∅;;
        match getPlistFiles b with
        | (_, Some err) => Err err
        | (bFiles, None) =>
            delta <- diffFS_range
                       (round d a b (fun filename => bool_decide (filename ∈ aFiles)))
                       (oB bFiles) delta;;
            Ok (Nat.eqb (size delta) 0, delta)
        end
    end.
Proof. done. Qed.

Lemma diffFS_in_perm (oA oB oA' oB' : gset string -> list string) d a b r :
  (forall X, oA X ≡ₚ oA' X) -> (forall X, oB X ≡ₚ oB' X) ->
  diffTreesIn oA oB d a b = Ok r -> diffTreesIn oA' oB' d a b = Ok r.
Proof.
  intros HA HB. rewrite !diffFS_in_rounds.
  destruct (getPlistFiles a) as [aFiles [e|]]; [done|].
  destruct (diffFS_range _ (oA aFiles) ∅) as [delta1|e] eqn:E1; [|done].
  rewrite (diffFS_range_perm _ _ _ _ _ _ _ _ (HA aFiles) E1). simpl.
  destruct (getPlistFiles b) as [bFiles [e|]]; [done|].
  destruct (diffFS_range _ (oB bFiles) delta1) as [delta2|e] eqn:E2; [|done].
  by rewrite (diffFS_range_perm _ _ _ _ _ _ _ _ (HB bFiles) E2).
Qed.

(** X3: the result of [diffFS] does not depend on the order in which Go
    ranges over the two file sets: whatever the orders, a run that returns
    a result returns the one [diffFS] returns, and one that fails does so
    exactly when [diffFS] fails. *)
Theorem diffFS_order_independent
    (orderA orderB : gset string -> list string) (d : differ) (a b : FS) :
  (forall X, orderA X ≡ₚ elements X) -> (forall X, orderB X ≡ₚ elements X) ->
  forall r, diffTreesIn orderA orderB d a b = Ok r <-> diffTrees d a b = Ok r.
Proof.
  intros HA HB r. change (diffTrees d a b) with (diffTreesIn elements elements d a b).
  split; apply diffFS_in_perm; intros X; by rewrite ?HA, ?HB.
Qed.

(** X4: [diffFS] returns a result exactly when both walks succeed and both
    sides of every plist file of either tree can be read; the result then
    maps a filename to a text exactly when the file is one of those and
    [diffFSFilename] returns that text for it. *)
Theorem diffFS_Ok_iff (d : differ) (a b : FS) :
  ((exists r, diffTrees d a b = Ok r)
   <-> snd (getPlistFiles a) = None /\ snd (getPlistFiles b) = None
       /\ forall filename,
            filename ∈ fst (getPlistFiles a) ∪ fst (getPlistFiles b) ->
            (exists aData, readFile d a filename = Ok aData)
            /\ (exists bData, readFile d b filename = Ok bData))
  /\ (forall eq delta,
        diffTrees d a b = Ok (eq, delta) ->
        forall filename text,
          delta !! filename = Some text
          <-> filename ∈ fst (getPlistFiles a) ∪ fst (getPlistFiles b)
              /\ diffFile d a b filename = Ok (Some text)).
Proof.
  rewrite diffFS_rounds.
  destruct (getPlistFiles a) as [aFiles [ea|]] eqn:Ea; cbn [fst snd].
  { split; [|done]. split; [by intros [r [=]]|by intros [[=] _]]. }
  destruct (diffFS_range _ (elements aFiles) ∅) as [delta1|e] eqn:E1; cbn [bind].
  2:{ split; [|done]. split; [by intros [r [=]]|]. intros (_ & _ & Hall).
      destruct (diffFS_range_Ok d a b (fun _ => false) (elements aFiles) ∅)
        as [delta1 H1]; [|by rewrite H1 in E1].
      intros x Hx _. apply diffFSFilename_Ok_iff, Hall.
      apply elem_of_union. left. by apply elem_of_elements. }
  destruct (getPlistFiles b) as [bFiles [eb|]] eqn:Eb; cbn [fst snd].
  { split; [|done]. split; [by intros [r [=]]|by intros (_ & [=] & _)]. }
  destruct (diffFS_range _ (elements bFiles) delta1) as [delta2|e] eqn:E2;
    cbn [bind].
  2:{ split; [|done]. split; [by intros [r [=]]|]. intros (_ & _ & Hall).
      destruct (diffFS_range_Ok d a b (fun f => bool_decide (f ∈ aFiles))
                  (elements bFiles) delta1) as [delta2 H2];
        [|by rewrite H2 in E2].
      intros x Hx _. apply diffFSFilename_Ok_iff, Hall.
      apply elem_of_union. right. by apply elem_of_elements. }
  split.
  - split; [intros _|by eauto]. split; [done|]. split; [done|].
    intros filename Hin. apply diffFSFilename_Ok_iff.
    destruct (decide (filename ∈ aFiles)) as [Ha|Ha].
    + apply (diffFS_range_Ok_inv d a b _ _ _ _ filename E1); [|done].
      by apply elem_of_elements.
    + apply elem_of_union in Hin as [|Hb]; [done|].
      apply (diffFS_range_Ok_inv d a b _ _ _ _ filename E2);
        [by apply elem_of_elements|by apply bool_decide_eq_false].
  - intros eq delta [= <- <-] filename text.
    rewrite (diffFS_range_lookup _ _ _ _ _ _ _ E2 filename).
    rewrite (diffFS_range_lookup _ _ _ _ _ _ _ E1 filename).
    rewrite lookup_empty, andb_true_r, elem_of_union.
    destruct (diffFile d a b filename) as [[s|]|e];
      [|split; [done|by intros [_ [=]]]..].
    rewrite (bool_decide_ext (filename ∈ elements aFiles) (filename ∈ aFiles))
      by apply elem_of_elements.
    rewrite (bool_decide_ext (filename ∈ elements bFiles) (filename ∈ bFiles))
      by apply elem_of_elements.
    destruct (decide (filename ∈ aFiles)) as [Ha|Ha].
    + rewrite (bool_decide_eq_true_2 _ Ha).
      simpl. rewrite andb_false_r. split; [intros [= ->]; auto|].
      by intros [_ [= ->]].
    + rewrite (bool_decide_eq_false_2 _ Ha).
      simpl. rewrite andb_true_r.
      destruct (decide (filename ∈ bFiles)) as [Hb|Hb].
      * rewrite (bool_decide_eq_true_2 _ Hb). split; [intros [= ->]; auto|].
        by intros [_ [= ->]].
      * rewrite (bool_decide_eq_false_2 _ Hb). split; [done|]. intros [[|] _]; done.
Qed.

(** X5: a file whose name does not end in [.plist] is never a key of the
    diff set, whatever the two trees hold under that name; every key is a
    regular file that the walk of one of the trees reached. *)
Theorem diffFS_keys_plist (d : differ) (a b : FS) (eq : bool)
    (delta : gmap string string) (filename : string) :
  diffTrees d a b = Ok (eq, delta) ->
  filename ∈ dom delta ->
  (exists stem, filename = stem +:+ ".plist")
  /\ ((filename, true) ∈ beforeError (WalkDir a)
      \/ (filename, true) ∈ beforeError (WalkDir b)).
Proof.
  intros H Hin. apply diffFS_Ok in H as [_ Hkeys].
  apply Hkeys in Hin as [Hin _].
  apply elem_of_union in Hin as [Hin|Hin];
    apply getPlistFiles_elem in Hin as [? ?]; auto.
Qed.

End Files2.

(** ** The reporter under the engine's calls *)

Lemma feedAll_checked_app r cs1 cs2 :
  feedAll_checked r (cs1 ++ cs2)
  = match feedAll_checked r cs1 with
    | Some r' => feedAll_checked r' cs2
    | None => None
    end.
Proof.
  revert r; induction cs1 as [|c cs1 IH]; intros r; simpl; [done|].
  by destruct (feed_checked r c).
Qed.

Lemma feedAll_checked_balanced r cs :
  balanced cs -> feedAll_checked r cs = Some (feedAll r cs).
Proof.
  intros H; revert r.
  induction H as [|rs cs H IH|ps body cs Hb IHb Hc IHc]; intros r.
  - done.
  - simpl. by rewrite IH.
  - cbn [feedAll_checked feed_checked]. rewrite feedAll_checked_app, IHb.
    cbn [feedAll_checked feed_checked]. unfold PopStep_checked.
    rewrite (feedAll_balanced_path _ _ Hb).
    change (callPushStep ps :: body ++ callPopStep :: cs)
      with ([callPushStep ps] ++ body ++ [callPopStep] ++ cs).
    rewrite !feedAll_app. simpl rpath.
    destruct (rpath r ++ [ps]) eqn:E; [by destruct (rpath r)|].
    by rewrite IHc.
Qed.

(** X6: whatever the values and the options, the calls of [cmp.Equal]
    never make [PopStep] slice an empty path, and they leave the
    reporter's path as they found it. *)
Theorem reporter_path_safe
    (Difference : nat -> nat -> (nat -> nat -> diff_Result) -> list EditType)
    (x y : option value) (opts : list Option_) (r : diffReporter) :
  feedAll_checked r (Equal_calls Difference (newState opts) x y)
  = Some (snd (cmp_Equal Difference x y opts r))
  /\ rpath (snd (cmp_Equal Difference x y opts r)) = rpath r.
Proof.
  unfold cmp_Equal. cbn [snd]. split.
  - apply feedAll_checked_balanced, Equal_calls_balanced.
  - apply feedAll_balanced_path, Equal_calls_balanced.
Qed.

(** ** Rendering the paths of the engine *)

(** X7: a path without indirections and transformations is rendered as
    the texts of its steps, in order, type assertions left out. *)
Theorem simplePathString_ownText (p : Path) :
  Forall (fun s => ownText s = true) p ->
  simplePathString p = Join (stepTexts p).
Proof.
  intros H. unfold simplePathString. by rewrite simplePathString_loop_ownText.
Qed.

(** ** Where the engine reports differences *)

Lemma scoped_app Site p cs1 cs2 :
  scoped Site p cs1 -> scoped Site p cs2 -> scoped Site p (cs1 ++ cs2).
Proof.
  induction 1 as [|p rs cs Hrs H IH|p ps body cs Hb IHb Hc IHc]; intros H2; simpl.
  - done.
  - constructor; [done|]. by apply IH.
  - rewrite <- app_assoc. simpl. constructor; [done|]. by apply IHc.
Qed.

Lemma scoped_concat Site p css :
  Forall (scoped Site p) css -> scoped Site p (concat css).
Proof.
  induction 1 as [|cs css H Hs IH]; simpl; [constructor|]. by apply scoped_app.
Qed.

Lemma scoped_push Site p ps body :
  scoped Site (p ++ [ps]) body ->
  scoped Site p (callPushStep ps :: body ++ [callPopStep]).
Proof. intros H. apply scoped_step; [done|constructor]. Qed.

Lemma scoped_report1 (Site : Path -> Prop) p rs :
  (rs = reportUnequal -> Site p) -> scoped Site p [callReport rs].
Proof. intros H. constructor; [done|constructor]. Qed.

Lemma Last_snoc p ps : Last (p ++ [ps]) = ps.
Proof. unfold Last. apply last_last. Qed.

(** Feeding scoped calls records differences at report sites only. *)
Lemma feedAll_scoped (Site : Path -> Prop) (Q : FileDiff -> Prop) cs :
  (forall p, Site p ->
     Q (mkFileDiff (simplePathString p) (step_vx (Last p)) (step_vy (Last p)))) ->
  forall r,
    scoped Site (rpath r) cs -> Forall Q (diffs r) ->
    Forall Q (diffs (feedAll r cs)) /\ rpath (feedAll r cs) = rpath r.
Proof.
  intros HQ r H. remember (rpath r) as p eqn:Hp. revert r Hp.
  induction H as [p|p rs cs Hrs H IH|p ps body cs Hb IHb Hc IHc];
    intros r Hp Hd.
  - done.
  - rewrite feedAll_cons. cbn [feed]. unfold Report, Values.
    destruct rs; cbn [Result_Equal]; try (by apply IH).
    destruct (IH (mkReporter (rpath r)
                    (diffs r ++ [mkFileDiff (simplePathString (rpath r))
                                   (step_vx (Last (rpath r)))
                                   (step_vy (Last (rpath r)))])))
      as [H1 H2]; [done| |done].
    apply Forall_app. split; [done|]. constructor; [|constructor].
    rewrite <- Hp. by apply HQ, Hrs.
  - rewrite feedAll_cons, feedAll_app, feedAll_cons. cbn [feed].
    destruct (IHb (PushStep r ps)) as [H1 H2];
      [by simpl; rewrite Hp|done|].
    assert (rpath (PopStep (feedAll (PushStep r ps) body)) = rpath r) as Hpop.
    { simpl. rewrite H2. simpl. by rewrite removelast_last. }
    destruct (IHc (PopStep (feedAll (PushStep r ps) body))) as [H3 H4];
      [by rewrite Hpop|done|].
    split; [done|]. by rewrite H4.
Qed.

Section Scoped.

Variable Difference : nat -> nat -> (nat -> nat -> diff_Result) -> list EditType.
Variable opts : list Option_.
Variable root : PathStep.

Local Abbreviation Site := (reportSite root).

Lemma tryOptions_cases t vx vy cs :
  tryOptions opts t vx vy = Some cs ->
  cs = [callReport reportByIgnore]
  \/ (cs = report (Bool.eqb (IsValid vx) (IsValid vy))
      /\ (IsValid vx && IsValid vy) = false).
Proof.
  unfold tryOptions.
  assert (forall os out,
            Options_filter os t vx vy out = Some applyValidator ->
            out = Some applyValidator \/ (IsValid vx && IsValid vy) = false) as H.
  { induction os as [|[|tf] os IH]; intros out; simpl; [by auto| |].
    - destruct (negb (IsValid vx) || negb (IsValid vy)) eqn:E; [|by apply IH].
      intros _. right. by destruct (IsValid vx), (IsValid vy).
    - destruct (existsb _ tf); [done|]. apply IH. }
  destruct (Options_filter opts t vx vy None) as [[]|] eqn:E; intros [= <-].
  - by left.
  - right. split; [done|]. by destruct (H _ _ E).
Qed.

Lemma rootedPath_snoc p k t vx vy :
  rootedPath root p -> plainKind k = true ->
  rootedPath root (p ++ [mkStep k t vx vy]).
Proof.
  intros (rest & -> & Hrest) Hk. exists (rest ++ [mkStep k t vx vy]).
  split; [done|]. apply Forall_app. by repeat constructor.
Qed.

Lemma Site_snoc p k t vx vy :
  rootedPath root p -> plainKind k = true ->
  (IsValid vx || IsValid vy) = true ->
  Site (p ++ [mkStep k t vx vy]).
Proof.
  intros Hp Hk Hv. split; [by apply rootedPath_snoc|]. by rewrite Last_snoc.
Qed.

Lemma compareAnyInvalid_scoped p k t vy :
  rootedPath root p -> plainKind k = true ->
  scoped Site p (compareAnyInvalid opts k t vy).
Proof.
  intros Hp Hk. unfold compareAnyInvalid. apply scoped_push.
  destruct (tryOptions opts t None vy) as [cs|] eqn:E; [|constructor].
  apply tryOptions_cases in E as [->|[-> _]].
  - by apply scoped_report1.
  - apply scoped_report1. simpl. destruct vy; [|done]. intros _.
    by apply Site_snoc.
Qed.

Lemma compareRules_scoped q rule3 iface x t vy :
  Site q ->
  (forall y, scoped Site q (rule3 y)) -> (forall y, scoped Site q (iface y)) ->
  scoped Site q (compareRules opts rule3 iface x t vy).
Proof.
  intros Hq H3 Hi. unfold compareRules.
  destruct (tryOptions opts t (Some x) vy) as [cs|] eqn:E.
  { apply tryOptions_cases in E as [->|[-> _]]; by apply scoped_report1. }
  destruct vy as [y|]; [|constructor].
  destruct (tryMethod t x y) eqn:Em.
  - apply tryMethod_Some in Em as (a & b & _ & _ & _ & ->).
    by apply scoped_report1.
  - by destruct (bool_decide (t = TInterface)).
Qed.

Local Abbreviation scopedComparer := (scopedComparer root).

Lemma compareAnyWith_scoped rule3 x :
  (forall q y, Site q -> scoped Site q (rule3 y)) ->
  scopedComparer (compareAnyWith opts rule3 x).
Proof.
  intros H3 p k t vy Hp Hk. unfold compareAnyWith, compareStep.
  apply scoped_push.
  assert (Site (p ++ [mkStep k t (Some x) vy])) as Hq by (by apply Site_snoc).
  apply compareRules_scoped; [done|by auto|].
  intros y. unfold compareInterface. destruct (bool_decide _).
  - unfold compareStep. apply scoped_push.
    assert (Site ((p ++ [mkStep k t (Some x) vy])
                  ++ [mkStep TypeAssertion (typeOf x) (Some x) (Some y)])) as Hq'.
    { apply Site_snoc; [by apply rootedPath_snoc|done..]. }
    apply compareRules_scoped; [done|by auto|]. intros _. constructor.
  - by apply scoped_report1.
Qed.

Lemma callAny_scoped (c : option comparer) :
  (forall f, c = Some f -> scopedComparer f) ->
  scopedComparer (callAny opts c).
Proof.
  intros H. destruct c as [f|]; simpl; [by apply H|].
  intros p k t vy Hp Hk. by apply compareAnyInvalid_scoped.
Qed.

Lemma withIndexes_scoped p elemT cx ys ix iy :
  rootedPath root p -> Forall scopedComparer cx ->
  scoped Site p (withIndexes opts elemT cx ys ix iy).
Proof.
  intros Hp H. unfold withIndexes. apply callAny_scoped; [|done..].
  intros f Hf. destruct ix as [i|]; [|done]. simpl in Hf.
  rewrite Forall_lookup in H. by eapply H.
Qed.

Lemma replay_scoped p elemT cx ys fuel iX iY ix iy edits :
  rootedPath root p -> Forall scopedComparer cx ->
  scoped Site p (replay opts elemT cx ys fuel iX iY ix iy edits).
Proof.
  intros Hp H. revert ix iy edits.
  induction fuel as [|fuel IH]; intros ix iy edits; cbn [replay]; [constructor|].
  destruct (_ || _); [|constructor].
  destruct (nth ix iX false); [|destruct (nth iy iY false); [|destruct edits as [|[] ?]]];
    first [apply scoped_nil
          |apply scoped_app; auto using withIndexes_scoped].
Qed.

Lemma compareMap_scoped p cx my :
  rootedPath root p ->
  (forall k f, lookup k cx = Some f -> scopedComparer f) ->
  scoped Site p (compareMap opts cx my).
Proof.
  intros Hp H. unfold compareMap. apply scoped_concat, Forall_map, Forall_forall.
  intros k _. apply callAny_scoped; [|done..]. intros f Hf. by eapply H.
Qed.

Lemma compareKind_scoped x :
  forall q y, Site q -> scoped Site q (compareKind Difference opts x y).
Proof.
  induction x as [| | | | | |d| | | |l IH|m IH] using value_ind; intros q y Hq.
  all: destruct y; cbn [compareKind compareUint8];
    try first [apply scoped_nil | by apply scoped_report1].
  - unfold compareSlice. apply replay_scoped; [apply Hq|].
    apply Forall_map, Forall_forall. intros a _.
    apply compareAnyWith_scoped. intros q' y Hq'. destruct y; simpl;
      first [apply scoped_nil | by apply scoped_report1].
  - unfold compareSlice. apply replay_scoped; [apply Hq|].
    apply Forall_map. eapply Forall_impl; [exact IH|].
    intros x Hx. simpl. by apply compareAnyWith_scoped.
  - apply compareMap_scoped; [apply Hq|].
    intros k f. rewrite (lookup_map_snd (fun v => compareAnyWith opts (compareKind Difference opts v) v)).
    destruct (lookup k m) as [v|] eqn:E; [|done]. intros [= <-].
    apply compareAnyWith_scoped.
    clear -IH E. induction IH as [|[k' v'] m Hv IH IHm]; [done|].
    simpl in E. destruct (String.eqb k k'); [|by auto]. by inversion E; subst.
Qed.

End Scoped.

Lemma Equal_calls_scoped
    (Difference : nat -> nat -> (nat -> nat -> diff_Result) -> list EditType)
    (opts : list Option_) (x y : option value) :
  scoped (reportSite (rootStepOf x y)) []
         (Equal_calls Difference opts x y).
Proof.
  unfold Equal_calls, compareAny, rootStepOf.
  set (root := mkStep RootStep (rootType x y) x y).
  assert (rootedPath root ([] ++ [root])) as Hroot by (by exists []).
  destruct x as [x|]; cbn [option_map callAny].
  - unfold compareAnyWith, compareStep. apply scoped_push.
    assert (reportSite root ([] ++ [root])) as Hq by (by split).
    apply compareRules_scoped; [done| |].
    + intros y'. by apply compareKind_scoped.
    + intros y'. unfold compareInterface. destruct (bool_decide _).
      * unfold compareStep. apply scoped_push.
        apply compareRules_scoped; [by apply Site_snoc| |intros _; constructor].
        intros y''. apply compareKind_scoped. by apply Site_snoc.
      * by apply scoped_report1.
  - unfold compareAnyInvalid. apply scoped_push.
    destruct (tryOptions opts _ None y) as [cs|] eqn:E; [|constructor].
    apply tryOptions_cases in E as [->|[-> _]].
    + by apply scoped_report1.
    + apply scoped_report1. simpl. destruct y; [|done]. intros _. by split.
Qed.

Lemma stepTexts_plain_root (root : PathStep) (rest : Path) :
  step_kind root = RootStep ->
  Forall (fun s => plainKind (step_kind s) = true) rest ->
  simplePathString (root :: rest)
  = PathStep_String root +:+ Join (stepTexts rest).
Proof.
  intros Hr Hrest. unfold simplePathString.
  rewrite simplePathString_loop_ownText.
  - unfold stepTexts. cbn [flat_map]. by rewrite Hr.
  - constructor; [unfold ownText; by rewrite Hr|].
    eapply Forall_impl; [exact Hrest|]. intros s. unfold ownText.
    by destruct (step_kind s).
Qed.

Lemma cmp_Equal_diffs_sites
    (Difference : nat -> nat -> (nat -> nat -> diff_Result) -> list EditType)
    (x y : option value) (opts : list Option_) (d : FileDiff) :
  d ∈ diffs (snd (cmp_Equal Difference x y opts (mkReporter [] []))) ->
  (old d <> None \/ new d <> None)
  /\ exists rest,
       Forall (fun s => plainKind (step_kind s) = true) rest
       /\ path d = PathStep_String (rootStepOf x y) +:+ Join (stepTexts rest).
Proof.
  unfold cmp_Equal. cbn [snd].
  destruct (feedAll_scoped (reportSite (rootStepOf x y))
              (fun d => (old d <> None \/ new d <> None)
                        /\ exists rest,
                             Forall (fun s => plainKind (step_kind s) = true) rest
                             /\ path d = PathStep_String (rootStepOf x y)
                                         +:+ Join (stepTexts rest))
              (Equal_calls Difference (newState opts) x y)) with
    (r := mkReporter [] []) as [H _].
  - intros p [(rest & -> & Hrest) Hs]. cbn [old new path]. split.
    + unfold sidedStep in Hs.
      destruct (step_vx _), (step_vy _); try done; auto.
    + exists rest. split; [done|]. by apply stepTexts_plain_root.
  - apply Equal_calls_scoped.
  - constructor.
  - intros Hd. rewrite Forall_forall in H. by apply H.
Qed.

(** X8: every difference [cmp.Equal] makes the reporter record holds a
    value on at least one side, and its path is the text of the root step
    followed by the texts of map, slice and type-assertion steps. *)
Theorem recorded_differences
    (Difference : nat -> nat -> (nat -> nat -> diff_Result) -> list EditType)
    (x y : option value) (opts : list Option_) (d : FileDiff) :
  d ∈ diffs (snd (cmp_Equal Difference x y opts (mkReporter [] []))) ->
  (old d <> None \/ new d <> None)
  /\ exists rest,
       Forall (fun s => plainKind (step_kind s) = true) rest
       /\ path d = PathStep_String (rootStepOf x y) +:+ Join (stepTexts rest).
Proof. apply cmp_Equal_diffs_sites. Qed.

(** ** The text of a file's differences *)

Lemma TrimRight_nl_cons c s :
  Ascii.eqb c "010" = false -> exists t, TrimRight_nl (String c s) = String c t.
Proof.
  intros Hc. simpl. destruct (TrimRight_nl s); rewrite ?Hc; eauto.
Qed.

Lemma TrimRight_nl_app (s t : string) :
  TrimRight_nl t <> "" -> TrimRight_nl (s +:+ t) = s +:+ TrimRight_nl t.
Proof.
  intros Ht. induction s as [|c s IH]; [done|].
  rewrite !append_cons. cbn [TrimRight_nl]. rewrite IH.
  destruct (s +:+ TrimRight_nl t) eqn:E; [|done].
  destruct s; [|done]. by destruct (TrimRight_nl t).
Qed.

Section Text.

Variable Difference : nat -> nat -> (nat -> nat -> diff_Result) -> list EditType.
Variable Sprintf_v : value -> string.
Variable plist_Decode : bytes -> result value.

Local Abbreviation diffPl := (diffPlists Difference Sprintf_v plist_Decode).
Local Abbreviation diffFile := (diffFSFilename Difference Sprintf_v plist_Decode).

Lemma FileDiff_String_sided d :
  old d <> None \/ new d <> None ->
  exists s, FileDiff_String Sprintf_v d = String "009" s.
Proof.
  intros H. unfold FileDiff_String. destruct (old d) as [vo|].
  - destruct (new d); rewrite ?append_assoc; eexists; reflexivity.
  - destruct (new d) as [vn|]; [|by destruct H]. eexists; reflexivity.
Qed.

Lemma fold_text_cons (ds : list FileDiff) c s :
  exists s',
    fold_left (fun result diff => result +:+ FileDiff_String Sprintf_v diff +:+ nl)
              ds (String c s)
    = String c s'.
Proof.
  revert s; induction ds as [|d ds IH]; intros s; simpl; [by eauto|].
  rewrite append_cons. apply IH.
Qed.

Lemma diffReporter_String_nonempty r :
  diffs r <> [] ->
  (forall d, d ∈ diffs r -> old d <> None \/ new d <> None) ->
  diffReporter_String Sprintf_v r <> "".
Proof.
  unfold diffReporter_String. destruct (diffs r) as [|d ds]; [done|].
  intros _ H. destruct (FileDiff_String_sided d) as [s Hs]; [apply H; by left|].
  cbn [fold_left]. rewrite Hs. change ("" +:+ String "009" s +:+ nl)
    with (String "009" (s +:+ nl)).
  destruct (fold_text_cons ds "009" (s +:+ nl)) as [s' ->].
  destruct (TrimRight_nl_cons "009" s') as [t ->]; done.
Qed.

(** X9: [diffPlists] returns an empty text exactly when it returns
    equality: the text of an unequal pair is never empty, so
    [diffFSFilename] never hands [diffFS] an empty block. *)
Theorem diffPlists_text_nonempty :
  (forall (oldData newData : bytes) (opts : list Option_),
     fst (fst (diffPlists Difference Sprintf_v plist_Decode
                 oldData newData opts)) = true
     <-> snd (fst (diffPlists Difference Sprintf_v plist_Decode
                     oldData newData opts)) = "")
  /\ (forall (d : differ) (a b : FS) (filename text : string),
        diffFSFilename Difference Sprintf_v plist_Decode d a b filename
        = Ok (Some text) ->
        text <> "").
Proof.
  assert (forall oldData newData opts,
            fst (fst (diffPl oldData newData opts)) = true
            <-> snd (fst (diffPl oldData newData opts)) = "") as H.
  { intros oldData newData opts. rewrite diffPlists_cmp.
    pose proof (cmp_Equal_fst Difference (decodedOrNil plist_Decode oldData)
                  (decodedOrNil plist_Decode newData) opts) as Hfst.
    pose proof (fun d => cmp_Equal_diffs_sites Difference
                  (decodedOrNil plist_Decode oldData)
                  (decodedOrNil plist_Decode newData) opts d) as Hsites.
    destruct (cmp_Equal _ _ _ _ _) as [eq r] eqn:E. cbn [fst snd] in *.
    destruct eq; cbn [fst snd]; [done|]. split; [done|]. intros Htext.
    exfalso. revert Htext. apply diffReporter_String_nonempty.
    - symmetry in Hfst. apply Nat.eqb_neq in Hfst. by destruct (diffs r).
    - intros d Hd. by apply Hsites. }
  split; [done|].
  intros d a b filename text Hf.
  apply (diffFSFilename_Some Difference Sprintf_v plist_Decode) in Hf
    as (aData & bData & _ & _ & Hd & ->).
  intros Htext. apply H in Htext. unfold fileDiffs in Hd.
  rewrite diffPlists_cmp in Htext.
  pose proof (cmp_Equal_fst Difference (decodedOrNil plist_Decode aData)
                (decodedOrNil plist_Decode bData)
                (differOpts (IgnoreTimestamps d))) as Hfst.
  destruct (cmp_Equal _ _ _ _ _) as [eq r]. cbn [fst snd] in *.
  destruct eq; cbn [fst] in Htext; [|done].
  symmetry in Hfst. apply Nat.eqb_eq in Hfst. by destruct (diffs r).
Qed.

(** ** The layout of the text *)

Lemma append_empty_l (s : string) : "" +:+ s = s.
Proof. done. Qed.

Lemma TrimRight_nl_line (s : string) :
  TrimRight_nl (s +:+ ")" +:+ nl +:+ nl) = s +:+ ")".
Proof. rewrite TrimRight_nl_app; [done|]. by vm_compute. Qed.

Lemma FileDiff_String_lines d :
  FileDiff_String Sprintf_v d
  = match old d, new d with
    | Some x, Some y =>
        diffLine Sprintf_v "-" (path d) x +:+ nl
        +:+ diffLine Sprintf_v "+" (path d) y +:+ nl
    | Some x, None => diffLine Sprintf_v "-" (path d) x +:+ nl
    | None, Some y => diffLine Sprintf_v "+" (path d) y +:+ nl
    | None, None => ""
    end.
Proof.
  unfold FileDiff_String, diffLine.
  destruct (old d), (new d); rewrite ?append_empty_l, ?append_assoc; done.
Qed.

Lemma FileDiff_String_end d :
  old d <> None \/ new d <> None ->
  exists s, FileDiff_String Sprintf_v d = s +:+ ")" +:+ nl.
Proof.
  intros H. rewrite FileDiff_String_lines. unfold diffLine.
  destruct (old d) as [x|], (new d) as [y|].
  - exists (tab +:+ "-" +:+ path d +:+ ": " +:+ Sprintf_v x
            +:+ " (" +:+ gotype_String (typeOf x) +:+ ")" +:+ nl
            +:+ tab +:+ "+" +:+ path d +:+ ": " +:+ Sprintf_v y
            +:+ " (" +:+ gotype_String (typeOf y)).
    by rewrite !append_assoc.
  - exists (tab +:+ "-" +:+ path d +:+ ": " +:+ Sprintf_v x
            +:+ " (" +:+ gotype_String (typeOf x)).
    by rewrite !append_assoc.
  - exists (tab +:+ "+" +:+ path d +:+ ": " +:+ Sprintf_v y
            +:+ " (" +:+ gotype_String (typeOf y)).
    by rewrite !append_assoc.
  - by destruct H.
Qed.

Lemma untrimmed_snoc p ds d :
  untrimmed Sprintf_v (mkReporter p (ds ++ [d]))
  = untrimmed Sprintf_v (mkReporter p ds) +:+ FileDiff_String Sprintf_v d +:+ nl.
Proof. unfold untrimmed. cbn [diffs]. by rewrite fold_left_app. Qed.

(** X10: when differences were recorded, [strings.TrimRight] takes
    exactly the two newlines after the last line off the text: the text
    of [diffReporter.String] ends with the closing parenthesis of the last
    difference, and a recorded difference is rendered as its old line,
    its new line, or both in that order. *)
Theorem diffReporter_String_layout (r : diffReporter) :
  diffs r <> [] ->
  (forall d, d ∈ diffs r -> old d <> None \/ new d <> None) ->
  (exists s, diffReporter_String Sprintf_v r = s +:+ ")")
  /\ untrimmed Sprintf_v r = diffReporter_String Sprintf_v r +:+ nl +:+ nl
  /\ forall d, d ∈ diffs r ->
       FileDiff_String Sprintf_v d
       = match old d, new d with
         | Some x, Some y =>
             diffLine Sprintf_v "-" (path d) x +:+ nl
             +:+ diffLine Sprintf_v "+" (path d) y +:+ nl
         | Some x, None => diffLine Sprintf_v "-" (path d) x +:+ nl
         | None, Some y => diffLine Sprintf_v "+" (path d) y +:+ nl
         | None, None => ""
         end.
Proof.
  intros Hne Hsided.
  assert (exists s, untrimmed Sprintf_v r = s +:+ ")" +:+ nl +:+ nl) as [s Hs].
  { destruct r as [p ds]. cbn [diffs] in *.
    destruct ds as [|d0 ds0] using rev_ind; [done|]. clear IHds0.
    destruct (FileDiff_String_end d0) as [s0 Hs0];
      [apply Hsided, elem_of_app; right; by left|].
    exists (untrimmed Sprintf_v (mkReporter p ds0) +:+ s0).
    by rewrite untrimmed_snoc, Hs0, !append_assoc. }
  assert (diffReporter_String Sprintf_v r = s +:+ ")") as Ht.
  { unfold diffReporter_String. fold (untrimmed Sprintf_v r).
    by rewrite Hs, TrimRight_nl_line. }
  split; [by exists s|]. split.
  - by rewrite Ht, Hs, !append_assoc.
  - intros d _. apply FileDiff_String_lines.
Qed.

End Text.

(** ** Single changes *)

Section Changes.

Variable Difference : nat -> nat -> (nat -> nat -> diff_Result) -> list EditType.
Variable Sprintf_v : value -> string.
Variable plist_Decode : bytes -> result value.

Local Abbreviation diffPl := (diffPlists Difference Sprintf_v plist_Decode).
Local Abbreviation diffFile := (diffFSFilename Difference Sprintf_v plist_Decode).

Lemma diffReporter_String_one p d s :
  FileDiff_String Sprintf_v d = s +:+ ")" +:+ nl ->
  diffReporter_String Sprintf_v (mkReporter p [d]) = s +:+ ")".
Proof.
  intros Hd. unfold diffReporter_String. cbn [diffs fold_left].
  by rewrite append_empty_l, Hd, !append_assoc, TrimRight_nl_line.
Qed.

Lemma diffLine_paren sign p v :
  diffLine Sprintf_v sign p v
  = (tab +:+ sign +:+ p +:+ ": " +:+ Sprintf_v v
     +:+ " (" +:+ gotype_String (typeOf v)) +:+ ")".
Proof. unfold diffLine. by rewrite !append_assoc. Qed.

Lemma cmp_Equal_one_sided b v :
  cmp_Equal Difference None (Some v) (differOpts b) (mkReporter [] [])
  = (false, mkReporter [] [mkFileDiff "root" None (Some v)])
  /\ cmp_Equal Difference (Some v) None (differOpts b) (mkReporter [] [])
     = (false, mkReporter [] [mkFileDiff "root" (Some v) None]).
Proof.
  split.
  - rewrite (cmp_Equal_reporter _ _ _ _
               (mkReporter [] [mkFileDiff "root" None (Some v)])); [done|].
    unfold Equal_calls, compareAny. cbn [option_map callAny rootType].
    by rewrite compareAnyInvalid_missing.
  - rewrite (cmp_Equal_reporter _ _ _ _
               (mkReporter [] [mkFileDiff "root" (Some v) None])); [done|].
    unfold Equal_calls, compareAny. cbn [option_map callAny rootType].
    by rewrite compareAnyWith_missing.
Qed.

Lemma diffPlists_one_sided b oldData newData e v :
  plist_Decode oldData = Err e -> plist_Decode newData = Ok v ->
  diffPl oldData newData (differOpts b)
  = (false, diffLine Sprintf_v "+" "root" v, None)
  /\ diffPl newData oldData (differOpts b)
     = (false, diffLine Sprintf_v "-" "root" v, None).
Proof.
  intros Ho Hn. rewrite !diffPlists_cmp. unfold decodedOrNil, decodePlist.
  rewrite Ho, Hn. destruct (cmp_Equal_one_sided b v) as [-> ->].
  split; f_equal; f_equal; rewrite diffLine_paren;
    apply diffReporter_String_one;
    rewrite FileDiff_String_lines; cbn [old new path]; unfold diffLine;
    by rewrite !append_assoc.
Qed.

(** X11: a file one side of which does not decode while the other decodes
    to [v] differs in one line: the whole of [v] at [root], added when the
    old side is the undecodable one and removed when the new side is. *)
Theorem one_sided_root (b : bool) (oldData newData : bytes) (e : error)
    (v : value) :
  plist_Decode oldData = Err e -> plist_Decode newData = Ok v ->
  (diffPl oldData newData (differOpts b)
   = (false, diffLine Sprintf_v "+" "root" v, None)
   /\ diffPl newData oldData (differOpts b)
      = (false, diffLine Sprintf_v "-" "root" v, None))
  /\ (forall d t1 t2 filename,
        IgnoreTimestamps d = b ->
        readFile d t1 filename = Ok oldData ->
        readFile d t2 filename = Ok newData ->
        diffFile d t1 t2 filename = Ok (Some (diffLine Sprintf_v "+" "root" v))
        /\ diffFile d t2 t1 filename
           = Ok (Some (diffLine Sprintf_v "-" "root" v))).
Proof.
  intros Ho Hn. split; [by eapply diffPlists_one_sided|].
  intros d t1 t2 filename <- R1 R2.
  rewrite (diffFSFilename_read _ _ _ d t1 t2 filename _ _ R1 R2).
  rewrite (diffFSFilename_read _ _ _ d t2 t1 filename _ _ R2 R1).
  destruct (diffPlists_one_sided (IgnoreTimestamps d) oldData newData e v Ho Hn)
    as [-> ->].
  done.
Qed.

Lemma simplePathString_root_key_assert k t vx vy vx' vy' vx'' vy'' :
  simplePathString
    [mkStep RootStep TMap vx vy; mkStep (MapIndex k) TInterface vx' vy';
     mkStep TypeAssertion t vx'' vy'']
  = "root[" +:+ Quote k +:+ "]".
Proof.
  unfold simplePathString, simplePathString_finish. simpl.
  by rewrite append_empty_r.
Qed.

Lemma differsHere_calls b root k x y ds :
  differsHere b x y = true ->
  step_kind root = RootStep -> step_type root = TMap ->
  feedAll (mkReporter [root] ds)
    (compareAnyWith (newState (differOpts b))
       (compareKind Difference (newState (differOpts b)) x) x
       (MapIndex k) TInterface (Some y))
  = mkReporter [root]
      (ds ++ [mkFileDiff ("root[" +:+ Quote k +:+ "]") (Some x) (Some y)]).
Proof.
  intros Hd Hk Ht. destruct root as [rk rt rx ry]. cbn in Hk, Ht. subst rk rt.
  unfold compareAnyWith, compareStep, compareRules.
  rewrite tryOptions_program, andb_false_r. cbn [IsValid negb orb].
  assert (tryMethod TInterface x y = None) as -> by done.
  rewrite bool_decide_eq_true_2 by done.
  unfold compareInterface, differsHere in *.
  destruct (bool_decide (typeOf x = typeOf y)) eqn:Hty.
  - apply bool_decide_eq_true_1 in Hty.
    unfold compareStep, compareRules. rewrite tryOptions_program.
    cbn [IsValid negb orb].
    destruct x, y; try discriminate Hty; try discriminate Hd;
      cbn [typeOf isScalar goEqual andb] in *;
      rewrite ?andb_true_l in Hd; apply negb_true_iff in Hd || idtac.
    all: try (rewrite (bool_decide_eq_false_2 (_ = TTime)) by done;
              rewrite andb_false_r; cbn [tryMethod];
              rewrite (bool_decide_eq_false_2 (_ = TInterface)) by done;
              cbn [compareKind compareUint8]; rewrite Hd;
              unfold feedAll; cbn [fold_left feed app report];
              unfold PushStep, Report, PopStep;
              cbn [rpath diffs Result_Equal app removelast Last Values];
              by rewrite simplePathString_root_key_assert).
    apply andb_true_iff in Hd as [Hb Hne].
    apply negb_true_iff in Hb, Hne. subst b. cbn [andb tryMethod]. rewrite Hne.
    unfold feedAll; cbn [fold_left feed app report].
    unfold PushStep, Report, PopStep.
    cbn [rpath diffs Result_Equal app removelast Last Values].
    by rewrite simplePathString_root_key_assert.
  - unfold feedAll; cbn [fold_left feed app report].
    unfold PushStep, Report, PopStep.
    cbn [rpath diffs Result_Equal app removelast Last Values].
    by rewrite simplePathString_root_key.
Qed.

(** X12: when [old] and [new] are dictionaries that differ under one key
    only, where the two values are of different types, unequal scalars,
    or unequal timestamps that are compared, and [old] compares equal to
    itself, exactly one difference is reported, at that key, with the old
    and the new value; its text is the old line followed by the new
    line. *)
Theorem dict_value_changed (b : bool) (mo mn : list (string * value))
    (k : string) (x y : value) :
  lookup k mo = Some x -> lookup k mn = Some y ->
  differsHere b x y = true ->
  (forall k', k' <> k -> lookup k' mn = lookup k' mo) ->
  fst (cmp_Equal Difference (Some (VDict mo)) (Some (VDict mo)) (differOpts b)
         (mkReporter [] [])) = true ->
  cmp_Equal Difference (Some (VDict mo)) (Some (VDict mn)) (differOpts b)
            (mkReporter [] [])
  = (false, mkReporter [] [mkFileDiff ("root[" +:+ Quote k +:+ "]")
                             (Some x) (Some y)])
  /\ diffReporter_String Sprintf_v
       (snd (cmp_Equal Difference (Some (VDict mo)) (Some (VDict mn))
               (differOpts b) (mkReporter [] [])))
     = diffLine Sprintf_v "-" ("root[" +:+ Quote k +:+ "]") x +:+ nl
       +:+ diffLine Sprintf_v "+" ("root[" +:+ Quote k +:+ "]") y.
Proof.
  intros Ho Hn Hd Hsame Heq.
  assert (cmp_Equal Difference (Some (VDict mo)) (Some (VDict mn)) (differOpts b)
            (mkReporter [] [])
          = (false, mkReporter [] [mkFileDiff ("root[" +:+ Quote k +:+ "]")
                                     (Some x) (Some y)])) as H.
  { apply (feedAll_dict_one Difference b mo mn k).
    - apply elem_of_app. left. apply (proj1 (lookup_keys k mo)). by rewrite Ho.
    - intros k' Hne. split; [by rewrite Hsame|]. by apply sameEntry_quiet.
    - intros ds. rewrite Ho, Hn. cbn [option_map callAny].
      by apply differsHere_calls. }
  split; [done|]. rewrite H. cbn [snd].
  etrans.
  - apply (diffReporter_String_one _ _
             (diffLine Sprintf_v "-" ("root[" +:+ Quote k +:+ "]") x +:+ nl
              +:+ tab +:+ "+" +:+ ("root[" +:+ Quote k +:+ "]") +:+ ": "
              +:+ Sprintf_v y +:+ " (" +:+ gotype_String (typeOf y))).
    rewrite FileDiff_String_lines. cbn [old new path]. unfold diffLine.
    by rewrite !append_assoc.
  - unfold diffLine. by rewrite !append_assoc.
Qed.

Lemma cmp_Equal_root_scalar (b : bool) (x y : value) :
  typeOf x = typeOf y -> differsHere b x y = true ->
  cmp_Equal Difference (Some x) (Some y) (differOpts b) (mkReporter [] [])
  = (false,
     mkReporter [] [mkFileDiff ("{" +:+ gotype_String (typeOf x) +:+ "}")
                      (Some x) (Some y)]).
Proof.
  intros Hty Hd.
  rewrite (cmp_Equal_reporter _ _ _ _
             (mkReporter [] [mkFileDiff ("{" +:+ gotype_String (typeOf x) +:+ "}")
                               (Some x) (Some y)])); [done|].
  unfold Equal_calls, rootType, compareAny.
  unfold differsHere in Hd. rewrite (bool_decide_eq_true_2 _ Hty) in *.
  cbn [option_map callAny]. unfold compareAnyWith, compareStep, compareRules.
  rewrite tryOptions_program. cbn [IsValid negb orb].
  destruct x, y; try discriminate Hty; try discriminate Hd;
    cbn [typeOf isScalar goEqual andb] in *;
    rewrite ?andb_true_l in Hd; apply negb_true_iff in Hd || idtac.
  all: try (rewrite (bool_decide_eq_false_2 (_ = TTime)) by done;
            rewrite andb_false_r; cbn [tryMethod];
            rewrite (bool_decide_eq_false_2 (_ = TInterface)) by done;
            cbn [compareKind compareUint8]; rewrite Hd; reflexivity).
  apply andb_true_iff in Hd as [Hb Hne].
  apply negb_true_iff in Hb, Hne. subst b. cbn [andb tryMethod]. rewrite Hne.
  reflexivity.
Qed.

(** X16: two root values of one type that are unequal scalars, or
    unequal timestamps that are compared, differ in one place, whose path
    is the name of their type in braces, not [root]. *)
Theorem root_scalar_changed (b : bool) (x y : value) :
  typeOf x = typeOf y -> differsHere b x y = true ->
  cmp_Equal Difference (Some x) (Some y) (differOpts b) (mkReporter [] [])
  = (false,
     mkReporter [] [mkFileDiff ("{" +:+ gotype_String (typeOf x) +:+ "}")
                      (Some x) (Some y)]).
Proof. apply cmp_Equal_root_scalar. Qed.

Lemma feedAll_segments_all (seg : string -> list call) (f : string -> FileDiff)
    p L ds :
  (forall k ds', k ∈ L ->
     feedAll (mkReporter p ds') (seg k) = mkReporter p (ds' ++ [f k])) ->
  feedAll (mkReporter p ds) (concat (map seg L)) = mkReporter p (ds ++ map f L).
Proof.
  revert ds. induction L as [|k L IH]; intros ds H; simpl.
  - by rewrite app_nil_r.
  - rewrite feedAll_app, H by (by left). rewrite IH.
    + by rewrite <- app_assoc.
    + intros k' ds' Hk'. apply H. by right.
Qed.

Lemma SortKeys_sorted (l : list string) : Sorted slt (SortKeys l).
Proof.
  unfold SortKeys. destruct (sortStrings l); [constructor|apply dedupFrom_sorted].
Qed.

Lemma cmp_Equal_added b m :
  cmp_Equal Difference (Some (VDict [])) (Some (VDict m)) (differOpts b)
            (mkReporter [] [])
  = (Nat.eqb (length (SortKeys (keys m))) 0,
     mkReporter [] (addedKeys m (SortKeys (keys m)))).
Proof.
  rewrite (cmp_Equal_reporter _ _ _ _
             (mkReporter [] (addedKeys m (SortKeys (keys m))))).
  { unfold addedKeys. cbn [diffs]. by rewrite length_map. }
  rewrite Equal_calls_dict, feedAll_cons. cbn [feed]. unfold PushStep.
  cbn [rpath diffs app]. rewrite feedAll_app.
  change (keys [] ++ keys m) with (keys m).
  rewrite (feedAll_segments_all _
             (fun k => mkFileDiff ("root[" +:+ Quote k +:+ "]") None (lookup k m))).
  - done.
  - intros k ds' Hk. apply SortKeys_elem, lookup_keys in Hk as [v Hv].
    cbn [lookup option_map callAny]. rewrite Hv.
    rewrite compareAnyInvalid_missing by done.
    unfold feedAll. cbn [fold_left feed]. unfold PushStep, Report, PopStep.
    cbn [rpath diffs Result_Equal app]. by rewrite simplePathString_root_key.
Qed.

(** X18: when the decoder takes empty data for an empty dictionary, as
    the one of [howett.net/plist] does, a plist file that only the new
    tree holds and that decodes to a dictionary is reported key by key:
    one difference for each key, in ascending order of the keys, with the
    old value unset and the new value the one under the key; the file is
    left out of the diff set only when the dictionary is empty. *)
Theorem one_sided_file_keys (d : differ) (t1 t2 : FS) (filename : string)
    (newData : bytes) (m : list (string * value)) :
  plist_Decode [] = Ok (VDict []) ->
  ReadFile t1 filename = Err ErrNotExist ->
  ReadFile t2 filename = Ok newData ->
  plist_Decode newData = Ok (VDict m) ->
  exists ks,
    Sorted slt ks /\ (forall k, k ∈ ks <-> is_Some (lookup k m))
    /\ fileDiffs Difference plist_Decode d [] newData = addedKeys m ks
    /\ (diffFile d t1 t2 filename = Ok None <-> ks = []).
Proof.
  intros He H1 H2 Hn. exists (SortKeys (keys m)).
  split; [apply SortKeys_sorted|]. split.
  { intros k. by rewrite SortKeys_elem, lookup_keys. }
  assert (readFile d t1 filename = Ok []) as R1
    by (unfold readFile; by rewrite H1).
  assert (readFile d t2 filename = Ok newData) as R2
    by (unfold readFile; by rewrite H2).
  split.
  - unfold fileDiffs, decodedOrNil, decodePlist. rewrite He, Hn.
    by rewrite cmp_Equal_added.
  - rewrite (diffFSFilename_read _ _ _ d t1 t2 filename _ _ R1 R2).
    rewrite diffPlists_cmp. unfold decodedOrNil, decodePlist. rewrite He, Hn.
    rewrite cmp_Equal_added. by destruct (SortKeys (keys m)).
Qed.

End Changes.

(** ** Rendering a diff set *)

Lemma slt_trichotomy (a b : string) : slt a b \/ a = b \/ slt b a.
Proof.
  destruct (OrderedTypeEx.String_as_OT.compare a b) as [H|H|H].
  - left. by apply slt_lt.
  - right. by left.
  - right. right. by apply slt_lt.
Qed.

Lemma sle_trans (a b c : string) : sle a b -> sle b c -> sle a c.
Proof.
  unfold sle. intros Hab Hbc.
  destruct (String.ltb c a) eqn:Hca; [|done].
  destruct (slt_trichotomy a b) as [H|[->|H]].
  - assert (slt c b) as Hcb by (by apply (slt_trans c a b)).
    unfold slt in Hcb. congruence.
  - congruence.
  - unfold slt in H. congruence.
Qed.

Lemma insertSorted_perm (k : string) (l : list string) :
  insertSorted k l ≡ₚ k :: l.
Proof.
  induction l as [|h l IH]; [done|]. simpl.
  destruct (String.ltb k h); [done|]. rewrite IH. apply Permutation_swap.
Qed.

Lemma sortStrings_perm (l : list string) : sortStrings l ≡ₚ l.
Proof.
  induction l as [|k l IH]; [done|]. unfold sortStrings in *. simpl.
  by rewrite insertSorted_perm, IH.
Qed.

Lemma sortStrings_unique (l1 l2 : list string) :
  l1 ≡ₚ l2 -> sortStrings l1 = sortStrings l2.
Proof.
  intros H.
  apply (Sorted_unique sle (Transitive0 := sle_trans) (AntiSymm0 := sle_antisym));
    [apply sortStrings_sorted..|].
  by rewrite !sortStrings_perm.
Qed.

Lemma fold_left_blocks (g : string -> string) (l : list string) (acc : string) :
  fold_left (fun s x => s +:+ g x) l acc = acc +:+ Join (map g l).
Proof.
  revert acc. induction l as [|x l IH]; intros acc; simpl.
  - by rewrite append_empty_r.
  - by rewrite IH, append_assoc.
Qed.

(** X13: [fsDiff.String] does not depend on the order in which Go ranges
    over the keys of the diff set: it is the blocks of the files in
    ascending order of their names, each listed name once. *)
Theorem fsDiff_String_sorted (f : gmap string string) (filenames : list string) :
  (forall other, other ≡ₚ filenames ->
                 fsDiff_String other f = fsDiff_String filenames f)
  /\ exists sorted,
       Sorted sle sorted /\ sorted ≡ₚ filenames
       /\ fsDiff_String filenames f = Join (map (fsDiff_block f) sorted).
Proof.
  split.
  - intros other H. unfold fsDiff_String. by rewrite (sortStrings_unique _ _ H).
  - exists (sortStrings filenames).
    split; [apply sortStrings_sorted|]. split; [apply sortStrings_perm|].
    unfold fsDiff_String. by rewrite fold_left_blocks.
Qed.

(** ** Whole runs *)

Section Runs.

Variable Difference : nat -> nat -> (nat -> nat -> diff_Result) -> list EditType.
Variable Sprintf_v : value -> string.
Variable plist_Decode : bytes -> result value.

Local Abbreviation diffPl := (diffPlists Difference Sprintf_v plist_Decode).
Local Abbreviation diffFile := (diffFSFilename Difference Sprintf_v plist_Decode).
Local Abbreviation diffTrees := (diffFS Difference Sprintf_v plist_Decode).
Local Abbreviation round := (diffFS_round Difference Sprintf_v plist_Decode).

Lemma getPlistFiles_single (data : bytes) :
  getPlistFiles (singleFileFS data) = ({[ "single-file.plist" ]}, None).
Proof.
  unfold getPlistFiles, singleFileFS. cbn [WalkDir getPlistFiles_walk negb].
  assert (HasSuffix "single-file.plist" ".plist" = true) as -> by (by vm_compute).
  cbn [negb]. by rewrite union_empty_r_L.
Qed.

Lemma getFS_regular os path stat data :
  os_Stat os path = Ok stat -> IsDir stat = false -> IsRegular stat = true ->
  os_ReadFile os path = Ok data ->
  getFS os path = Ok (singleFileFS data).
Proof.
  intros Hs Hd Hr Hf. unfold getFS. rewrite Hs. cbn [bind].
  rewrite Hd, Hr. cbn [negb]. by rewrite Hf.
Qed.

Lemma diffFS_single d da db :
  diffTrees d (singleFileFS da) (singleFileFS db)
  = Ok (match diffPl da db (differOpts (IgnoreTimestamps d)) with
        | (true, _, _) => (true, ∅)
        | (false, text, _) => (false, {[ "single-file.plist" := text ]})
        end).
Proof.
  unfold diffFS. rewrite !getPlistFiles_single, elements_singleton.
  cbn [diffFS_range bind]. unfold diffFS_file at 1.
  rewrite (diffFSFilename_read _ _ _ d _ _ _ da db) by done.
  rewrite diffPlists_cmp. destruct (cmp_Equal _ _ _ _ _) as [[] r]; cbn [bind].
  - by rewrite bool_decide_eq_true_2 by set_solver.
  - rewrite bool_decide_eq_true_2 by set_solver.
    rewrite insert_empty. cbn [bind]. by rewrite map_size_singleton.
Qed.

Lemma run_diff_two_files (os : OS) (order : gmap string string -> list string)
    (cli : cliRoot) (sa sb : FileInfo) (da db : bytes) :
  B cli <> "" ->
  os_Stat os (A cli) = Ok sa -> IsDir sa = false -> IsRegular sa = true ->
  os_ReadFile os (A cli) = Ok da ->
  os_Stat os (B cli) = Ok sb -> IsDir sb = false -> IsRegular sb = true ->
  os_ReadFile os (B cli) = Ok db ->
  (forall m, order m ≡ₚ elements (dom m)) ->
  differ_diff Difference Sprintf_v plist_Decode os (run_differ cli) (A cli) (B cli)
  = Ok (match diffPl da db (differOpts (negb (Timestamps cli))) with
        | (true, _, _) => (true, ∅)
        | (false, text, _) => (false, {[ "single-file.plist" := text ]})
        end)
  /\ run_diff Difference Sprintf_v plist_Decode os order cli
     = Ok (match diffPl da db (differOpts (negb (Timestamps cli))) with
           | (true, _, _) => ""
           | (false, text, _) =>
               "single-file.plist:" +:+ nl +:+ text +:+ nl +:+ nl +:+ nl
           end).
Proof.
  intros _ Hsa Hda Hra Hfa Hsb Hdb Hrb Hfb Horder.
  assert (differ_diff Difference Sprintf_v plist_Decode os (run_differ cli)
            (A cli) (B cli)
          = Ok (match diffPl da db (differOpts (negb (Timestamps cli))) with
                | (true, _, _) => (true, ∅)
                | (false, text, _) => (false, {[ "single-file.plist" := text ]})
                end)) as H.
  { unfold differ_diff.
    rewrite (getFS_regular os (A cli) sa da), (getFS_regular os (B cli) sb db)
      by done.
    cbn [bind]. by rewrite diffFS_single. }
  split; [done|]. unfold run_diff. rewrite H. cbn [bind].
  destruct (diffPl da db _) as [[[] text] err]; [done|]. f_equal.
  assert (order {[ "single-file.plist" := text ]} = ["single-file.plist"]) as ->.
  { apply Permutation_singleton_r. rewrite Horder.
    by rewrite dom_singleton_L, elements_singleton. }
  unfold fsDiff_String, fsDiff_block. cbn [sortStrings fold_right insertSorted fold_left].
  rewrite lookup_singleton_eq. cbn [default]. by rewrite append_empty_l, !append_assoc.
Qed.

(** X14: when both arguments of the command are regular files, their
    names play no part: the two contents are compared under the name
    [single-file.plist], also when neither name ends in [.plist]; the run
    prints nothing when they compare equal and one block under that name
    otherwise. *)
Theorem run_two_files (os : OS) (order : gmap string string -> list string)
    (cli : cliRoot) (sa sb : FileInfo) (da db : bytes) :
  B cli <> "" ->
  os_Stat os (A cli) = Ok sa -> IsDir sa = false -> IsRegular sa = true ->
  os_ReadFile os (A cli) = Ok da ->
  os_Stat os (B cli) = Ok sb -> IsDir sb = false -> IsRegular sb = true ->
  os_ReadFile os (B cli) = Ok db ->
  (forall m, order m ≡ₚ elements (dom m)) ->
  differ_diff Difference Sprintf_v plist_Decode os (run_differ cli) (A cli) (B cli)
  = Ok (match diffPl da db (differOpts (negb (Timestamps cli))) with
        | (true, _, _) => (true, ∅)
        | (false, text, _) => (false, {[ "single-file.plist" := text ]})
        end)
  /\ run_diff Difference Sprintf_v plist_Decode os order cli
     = Ok (match diffPl da db (differOpts (negb (Timestamps cli))) with
           | (true, _, _) => ""
           | (false, text, _) =>
               "single-file.plist:" +:+ nl +:+ text +:+ nl +:+ nl +:+ nl
           end).
Proof. apply run_diff_two_files. Qed.

Lemma diffPlists_dates b da db ta tb :
  plist_Decode da = Ok (VDate ta) -> plist_Decode db = Ok (VDate tb) ->
  ta <> tb ->
  diffPl da db (differOpts b)
  = if b then (true, "", None)
    else (false,
          diffLine Sprintf_v "-" "{time.Time}" (VDate ta) +:+ nl
          +:+ diffLine Sprintf_v "+" "{time.Time}" (VDate tb),
          None).
Proof.
  intros Ha Hb Hne. rewrite diffPlists_cmp. unfold decodedOrNil, decodePlist.
  rewrite Ha, Hb. destruct b.
  - rewrite cmp_Equal_quiet; [done|]. vm_compute. by repeat constructor.
  - rewrite (cmp_Equal_root_scalar Difference false (VDate ta) (VDate tb));
      [|done|unfold differsHere; rewrite bool_decide_eq_true_2 by done;
             apply Z.eqb_neq in Hne; by rewrite Hne].
    f_equal. f_equal. cbn [typeOf gotype_String].
    etrans.
    + apply (diffReporter_String_one Sprintf_v _ _
               (diffLine Sprintf_v "-" "{time.Time}" (VDate ta) +:+ nl
                +:+ tab +:+ "+" +:+ "{time.Time}" +:+ ": "
                +:+ Sprintf_v (VDate tb) +:+ " (" +:+ gotype_String (typeOf (VDate tb)))).
      rewrite FileDiff_String_lines. cbn [old new path]. unfold diffLine.
      by rewrite !append_assoc.
    + unfold diffLine. by rewrite !append_assoc.
Qed.

(** X19: the [--timestamps] flag as a run shows it: on two regular files
    that decode to two different timestamps the run prints nothing when
    the flag is not set and the old and the new timestamp when it is. *)
Theorem run_timestamps_flag (os : OS) (order : gmap string string -> list string)
    (cli : cliRoot) (sa sb : FileInfo) (da db : bytes) (ta tb : Z) :
  B cli <> "" ->
  os_Stat os (A cli) = Ok sa -> IsDir sa = false -> IsRegular sa = true ->
  os_ReadFile os (A cli) = Ok da ->
  os_Stat os (B cli) = Ok sb -> IsDir sb = false -> IsRegular sb = true ->
  os_ReadFile os (B cli) = Ok db ->
  (forall m, order m ≡ₚ elements (dom m)) ->
  plist_Decode da = Ok (VDate ta) -> plist_Decode db = Ok (VDate tb) ->
  ta <> tb ->
  run_diff Difference Sprintf_v plist_Decode os order cli
  = Ok (if Timestamps cli
        then "single-file.plist:" +:+ nl
             +:+ (diffLine Sprintf_v "-" "{time.Time}" (VDate ta) +:+ nl
                  +:+ diffLine Sprintf_v "+" "{time.Time}" (VDate tb))
             +:+ nl +:+ nl +:+ nl
        else "").
Proof.
  intros HB Hsa Hda Hra Hfa Hsb Hdb Hrb Hfb Horder Ha Hb Hne.
  destruct (run_diff_two_files os order cli sa sb da db) as [_ ->]; [done..|].
  rewrite (diffPlists_dates _ da db ta tb Ha Hb Hne).
  by destruct (Timestamps cli).
Qed.

(** X15: a tree compared with itself is equal and the diff set is empty,
    when its walk succeeds and every plist file of it can be read and
    does not decode or decodes to a value without a NaN. *)
Theorem diffFS_self (d : differ) (a : FS) :
  DifferenceSpec Difference ->
  snd (getPlistFiles a) = None ->
  (forall filename,
     filename ∈ fst (getPlistFiles a) ->
     exists data, readFile d a filename = Ok data
                  /\ forall v, plist_Decode data = Ok v -> noNaN v) ->
  diffTrees d a a = Ok (true, ∅).
Proof.
  intros HD Hw Hfiles.
  assert (forall x, x ∈ fst (getPlistFiles a) -> diffFile d a a x = Ok None)
    as Hnone.
  { intros x Hx. destruct (Hfiles x Hx) as (data & Hr & Hv).
    rewrite (diffFSFilename_read _ _ _ d a a x data data Hr Hr).
    rewrite diffPlists_cmp. unfold decodedOrNil, decodePlist.
    destruct (plist_Decode data) as [v|e] eqn:E.
    - rewrite cmp_Equal_quiet; [done|].
      apply Equal_calls_quiet; [done|]. by apply noNaN_similar, Hv.
    - by rewrite cmp_Equal_nil. }
  rewrite diffFS_rounds.
  destruct (getPlistFiles a) as [aFiles [e|]]; [done|]. cbn [fst snd] in *.
  destruct (diffFS_range_Ok Difference Sprintf_v plist_Decode d a a
              (fun _ => false) (elements aFiles) ∅) as [delta1 H1].
  { intros x Hx _. exists None. apply Hnone. by apply elem_of_elements. }
  assert (delta1 = ∅) as ->.
  { apply map_eq. intros x.
    rewrite (diffFS_range_lookup _ _ _ _ _ _ _ _ _ _ H1 x).
    destruct (diffFile d a a x) as [[s|]|e] eqn:E; try done.
    destruct (bool_decide (x ∈ elements aFiles)) eqn:Hx; [|done].
    apply bool_decide_eq_true_1, elem_of_elements in Hx.
    by rewrite Hnone in E. }
  rewrite H1. cbn [bind].
  destruct (diffFS_range_Ok Difference Sprintf_v plist_Decode d a a
              (fun filename => bool_decide (filename ∈ aFiles))
              (elements aFiles) ∅) as [delta2 H2].
  { intros x Hx Hs. apply elem_of_elements in Hx.
    by rewrite bool_decide_eq_true_2 in Hs. }
  assert (delta2 = ∅) as ->.
  { apply map_eq. intros x.
    rewrite (diffFS_range_lookup _ _ _ _ _ _ _ _ _ _ H2 x).
    destruct (diffFile d a a x) as [[s|]|e] eqn:E; try done.
    destruct (bool_decide (x ∈ elements aFiles)) eqn:Hx; [|done].
    apply bool_decide_eq_true_1, elem_of_elements in Hx.
    by rewrite Hnone in E. }
  by rewrite H2.
Qed.

Lemma readFile_Err d fsys filename e :
  readFile d fsys filename = Err e ->
  ReadFile fsys filename = Err e /\ e <> ErrNotExist
  /\ (e = ErrPermission -> IgnorePermissionError d = false).
Proof.
  unfold readFile.
  destruct (ReadFile fsys filename) as [data|[| |msg]];
    destruct (IgnorePermissionError d); intros; simplify_eq;
    repeat split; intros; simplify_eq; auto.
Qed.

Lemma diffFSFilename_Err d a b filename e :
  diffFile d a b filename = Err e ->
  readFile d b filename = Err e \/ readFile d a filename = Err e.
Proof.
  intros H. destruct (readFile d b filename) as [bData|eb] eqn:Hb.
  - destruct (readFile d a filename) as [aData|ea] eqn:Ha.
    + rewrite (diffFSFilename_read _ _ _ d a b filename aData bData Ha Hb) in H.
      rewrite diffPlists_cmp in H.
      by destruct (cmp_Equal _ _ _ _ _) as [[] r].
    + unfold diffFSFilename in H. rewrite Hb, Ha in H. cbn [bind] in H.
      right. by injection H as ->.
  - unfold diffFSFilename in H. rewrite Hb in H. cbn [bind] in H.
    left. by injection H as ->.
Qed.

Lemma diffFS_range_Err_inv d a b skip L delta0 e :
  diffFS_range (round d a b skip) L delta0 = Err e ->
  exists x, x ∈ L /\ skip x = false /\ diffFile d a b x = Err e.
Proof.
  revert delta0. induction L as [|y L IH]; intros delta0; [done|].
  cbn [diffFS_range].
  destruct (round d a b skip delta0 y) as [delta'|e'] eqn:E; cbn [bind].
  - intros H. destruct (IH _ H) as (x & Hx & Hs & He).
    exists x. split; [by right|done].
  - intros [= ->]. exists y. split; [by left|].
    unfold diffFS_round in E. destruct (skip y); [done|]. split; [done|].
    unfold diffFS_file in E.
    destruct (diffFile d a b y) as [[s|]|e2]; cbn [bind] in E; try done.
    by injection E as ->.
Qed.

(** X17: whatever the order in which Go ranges over the two file sets,
    an error [diffFS] returns is the error that stopped the walk of one of
    the two trees, or the error of [fs.ReadFile] on a plist file of one of
    them; a read error is never that the file does not exist, and it is a
    permission error only when those are not ignored. *)
Theorem diffFS_Err_origin (orderA orderB : gset string -> list string)
    (d : differ) (a b : FS) (e : error) :
  (forall X, orderA X ≡ₚ elements X) -> (forall X, orderB X ≡ₚ elements X) ->
  diffFS_in Difference Sprintf_v plist_Decode orderA orderB d a b = Err e ->
  snd (getPlistFiles a) = Some e \/ snd (getPlistFiles b) = Some e
  \/ exists filename,
       filename ∈ fst (getPlistFiles a) ∪ fst (getPlistFiles b)
       /\ (ReadFile a filename = Err e \/ ReadFile b filename = Err e)
       /\ e <> ErrNotExist
       /\ (e = ErrPermission -> IgnorePermissionError d = false).
Proof.
  intros HA HB.
  assert (forall x, diffFile d a b x = Err e ->
            (ReadFile a x = Err e \/ ReadFile b x = Err e)
            /\ e <> ErrNotExist
            /\ (e = ErrPermission -> IgnorePermissionError d = false)) as Hread.
  { intros x Hx. apply diffFSFilename_Err in Hx as [Hx|Hx];
      apply readFile_Err in Hx as (? & ? & ?); auto. }
  rewrite diffFS_in_rounds.
  destruct (getPlistFiles a) as [aFiles [ea|]]; cbn [fst snd];
    [intros [= ->]; by left|].
  destruct (diffFS_range _ (orderA aFiles) ∅) as [delta1|e1] eqn:E1;
    cbn [bind].
  - destruct (getPlistFiles b) as [bFiles [eb|]]; cbn [fst snd];
      [intros [= ->]; right; by left|].
    destruct (diffFS_range _ (orderB bFiles) delta1) as [delta2|e2] eqn:E2;
      cbn [bind]; [done|].
    intros [= ->]. right. right.
    apply diffFS_range_Err_inv in E2 as (x & Hx & _ & He).
    exists x. split; [|by apply Hread].
    apply elem_of_union. right. apply elem_of_elements. by rewrite <- (HB bFiles).
  - intros [= ->]. right. right.
    apply diffFS_range_Err_inv in E1 as (x & Hx & _ & He).
    exists x. split; [|by apply Hread].
    apply elem_of_union. left. apply elem_of_elements. by rewrite <- (HA aFiles).
Qed.

End Runs.

(** * The further properties on sample inputs *)

Lemma diffFS_order_independent_witness :
  (forall X, reversedOrder X ≡ₚ elements X)
  /\ (forall r,
        diffFS_in alignedScript sampleSprintf sampleDecode
          reversedOrder reversedOrder sampleDiffer sampleOld sampleNew = Ok r
        <-> diffFS alignedScript sampleSprintf sampleDecode
              sampleDiffer sampleOld sampleNew = Ok r).
Proof.
  assert (forall X, reversedOrder X ≡ₚ elements X) as H
    by (intros X; apply reverse_Permutation).
  split; [exact H|].
  exact (diffFS_order_independent alignedScript sampleSprintf sampleDecode
           reversedOrder reversedOrder sampleDiffer sampleOld sampleNew H H).
Defined.

Lemma diffFS_keys_plist_witness :
  diffFS alignedScript sampleSprintf sampleDecode sampleDiffer sampleOld sampleNew
  = Ok (false, sampleDelta)
  /\ "a.plist" ∈ dom sampleDelta
  /\ (exists stem, "a.plist" = stem +:+ ".plist")
  /\ (("a.plist", true) ∈ beforeError (WalkDir sampleOld)
      \/ ("a.plist", true) ∈ beforeError (WalkDir sampleNew)).
Proof.
  assert (diffFS alignedScript sampleSprintf sampleDecode sampleDiffer
            sampleOld sampleNew = Ok (false, sampleDelta)) as H
    by (vm_compute; reflexivity).
  assert ("a.plist" ∈ dom sampleDelta) as Hin
    by (apply elem_of_dom; eexists; apply lookup_insert_eq).
  split; [exact H|]. split; [exact Hin|].
  exact (diffFS_keys_plist alignedScript sampleSprintf sampleDecode sampleDiffer
           sampleOld sampleNew false sampleDelta "a.plist" H Hin).
Defined.

Lemma simplePathString_ownText_witness :
  Forall (fun s => ownText s = true) samplePath
  /\ simplePathString samplePath = Join (stepTexts samplePath).
Proof.
  assert (Forall (fun s => ownText s = true) samplePath) as H
    by (repeat constructor).
  split; [exact H|]. exact (simplePathString_ownText samplePath H).
Defined.

Lemma recorded_differences_witness :
  sampleAdded
  ∈ diffs (snd (cmp_Equal alignedScript (Some (VDict sampleDictOld))
                  (Some (VDict sampleDictNew)) (differOpts true)
                  (mkReporter [] [])))
  /\ (old sampleAdded <> None \/ new sampleAdded <> None)
  /\ exists rest,
       Forall (fun s => plainKind (step_kind s) = true) rest
       /\ path sampleAdded
          = PathStep_String
              (rootStepOf (Some (VDict sampleDictOld)) (Some (VDict sampleDictNew)))
            +:+ Join (stepTexts rest).
Proof.
  assert (sampleAdded
          ∈ diffs (snd (cmp_Equal alignedScript (Some (VDict sampleDictOld))
                          (Some (VDict sampleDictNew)) (differOpts true)
                          (mkReporter [] [])))) as H
    by (vm_compute; constructor).
  split; [exact H|].
  exact (recorded_differences alignedScript (Some (VDict sampleDictOld))
           (Some (VDict sampleDictNew)) (differOpts true) sampleAdded H).
Defined.

Lemma diffReporter_String_layout_witness :
  diffs sampleReporter <> []
  /\ (forall d, d ∈ diffs sampleReporter -> old d <> None \/ new d <> None)
  /\ (exists s, diffReporter_String sampleSprintf sampleReporter = s +:+ ")")
  /\ untrimmed sampleSprintf sampleReporter
     = diffReporter_String sampleSprintf sampleReporter +:+ nl +:+ nl
  /\ forall d, d ∈ diffs sampleReporter ->
       FileDiff_String sampleSprintf d
       = match old d, new d with
         | Some x, Some y =>
             diffLine sampleSprintf "-" (path d) x +:+ nl
             +:+ diffLine sampleSprintf "+" (path d) y +:+ nl
         | Some x, None => diffLine sampleSprintf "-" (path d) x +:+ nl
         | None, Some y => diffLine sampleSprintf "+" (path d) y +:+ nl
         | None, None => ""
         end.
Proof.
  assert (diffs sampleReporter <> []) as H1 by done.
  assert (forall d, d ∈ diffs sampleReporter -> old d <> None \/ new d <> None)
    as H2.
  { intros d Hd. cbn in Hd.
    apply elem_of_cons in Hd as [->|Hd]; [by right|].
    apply elem_of_cons in Hd as [->|Hd]; [by left|].
    by apply elem_of_nil in Hd. }
  split; [exact H1|]. split; [exact H2|].
  exact (diffReporter_String_layout sampleSprintf sampleReporter H1 H2).
Defined.

Lemma one_sided_root_witness :
  sampleDecode [9] = Err (ErrOther "plist: invalid data")
  /\ sampleDecode [1; 7] = Ok (VUint 7)
  /\ (diffPlists alignedScript sampleSprintf sampleDecode [9] [1; 7] (differOpts true)
      = (false, diffLine sampleSprintf "+" "root" (VUint 7), None)
      /\ diffPlists alignedScript sampleSprintf sampleDecode [1; 7] [9] (differOpts true)
         = (false, diffLine sampleSprintf "-" "root" (VUint 7), None))
  /\ readFile sampleDiffer sampleBroken "n.plist" = Ok [9]
  /\ readFile sampleDiffer sampleMended "n.plist" = Ok [1; 7]
  /\ diffFSFilename alignedScript sampleSprintf sampleDecode sampleDiffer
       sampleBroken sampleMended "n.plist"
     = Ok (Some (diffLine sampleSprintf "+" "root" (VUint 7)))
  /\ diffFSFilename alignedScript sampleSprintf sampleDecode sampleDiffer
       sampleMended sampleBroken "n.plist"
     = Ok (Some (diffLine sampleSprintf "-" "root" (VUint 7))).
Proof.
  destruct (one_sided_root alignedScript sampleSprintf sampleDecode true
              [9] [1; 7] (ErrOther "plist: invalid data") (VUint 7)
              eq_refl eq_refl) as [H1 H2].
  split; [reflexivity|]. split; [reflexivity|]. split; [exact H1|].
  split; [reflexivity|]. split; [reflexivity|].
  exact (H2 sampleDiffer sampleBroken sampleMended "n.plist"
           eq_refl eq_refl eq_refl).
Defined.

Lemma dict_value_changed_witness :
  lookup "a" sampleDictOld = Some (VUint 1)
  /\ lookup "a" sampleDictChanged = Some (VUint 2)
  /\ differsHere true (VUint 1) (VUint 2) = true
  /\ (forall k', k' <> "a" -> lookup k' sampleDictChanged = lookup k' sampleDictOld)
  /\ fst (cmp_Equal alignedScript (Some (VDict sampleDictOld))
            (Some (VDict sampleDictOld)) (differOpts true) (mkReporter [] []))
     = true
  /\ cmp_Equal alignedScript (Some (VDict sampleDictOld))
       (Some (VDict sampleDictChanged)) (differOpts true) (mkReporter [] [])
     = (false, mkReporter [] [mkFileDiff ("root[" +:+ Quote "a" +:+ "]")
                                (Some (VUint 1)) (Some (VUint 2))])
  /\ diffReporter_String sampleSprintf
       (snd (cmp_Equal alignedScript (Some (VDict sampleDictOld))
               (Some (VDict sampleDictChanged)) (differOpts true)
               (mkReporter [] [])))
     = diffLine sampleSprintf "-" ("root[" +:+ Quote "a" +:+ "]") (VUint 1) +:+ nl
       +:+ diffLine sampleSprintf "+" ("root[" +:+ Quote "a" +:+ "]") (VUint 2).
Proof.
  assert (forall k', k' <> "a" ->
            lookup k' sampleDictChanged = lookup k' sampleDictOld) as H.
  { intros k' Hne. unfold sampleDictChanged, sampleDictOld. cbn [lookup].
    destruct (String.eqb_spec k' "a"); done. }
  assert (fst (cmp_Equal alignedScript (Some (VDict sampleDictOld))
                 (Some (VDict sampleDictOld)) (differOpts true)
                 (mkReporter [] [])) = true) as Heq
    by (vm_compute; reflexivity).
  split; [reflexivity|]. split; [reflexivity|]. split; [reflexivity|].
  split; [exact H|]. split; [exact Heq|].
  exact (dict_value_changed alignedScript sampleSprintf true sampleDictOld
           sampleDictChanged "a" (VUint 1) (VUint 2)
           eq_refl eq_refl eq_refl H Heq).
Defined.

Lemma run_two_files_witness :
  B sampleCli <> ""
  /\ os_Stat sampleOS (A sampleCli) = Ok (mkFileInfo false true)
  /\ os_ReadFile sampleOS (A sampleCli) = Ok [4; 1]
  /\ os_Stat sampleOS (B sampleCli) = Ok (mkFileInfo false true)
  /\ os_ReadFile sampleOS (B sampleCli) = Ok [4; 2]
  /\ (forall m, keysOrder m ≡ₚ elements (dom m))
  /\ differ_diff alignedScript sampleSprintf sampleDecode sampleOS
       (run_differ sampleCli) (A sampleCli) (B sampleCli)
     = Ok (match diffPlists alignedScript sampleSprintf sampleDecode
                   [4; 1] [4; 2] (differOpts (negb (Timestamps sampleCli))) with
           | (true, _, _) => (true, ∅)
           | (false, text, _) => (false, {[ "single-file.plist" := text ]})
           end)
  /\ run_diff alignedScript sampleSprintf sampleDecode sampleOS keysOrder sampleCli
     = Ok (match diffPlists alignedScript sampleSprintf sampleDecode
                   [4; 1] [4; 2] (differOpts (negb (Timestamps sampleCli))) with
           | (true, _, _) => ""
           | (false, text, _) =>
               "single-file.plist:" +:+ nl +:+ text +:+ nl +:+ nl +:+ nl
           end).
Proof.
  assert (B sampleCli <> "") as HB by done.
  assert (forall m, keysOrder m ≡ₚ elements (dom m)) as Ho by done.
  split; [exact HB|]. split; [reflexivity|]. split; [reflexivity|].
  split; [reflexivity|]. split; [reflexivity|]. split; [exact Ho|].
  exact (run_two_files alignedScript sampleSprintf sampleDecode sampleOS
           keysOrder sampleCli (mkFileInfo false true) (mkFileInfo false true)
           [4; 1] [4; 2] HB eq_refl eq_refl eq_refl eq_refl
           eq_refl eq_refl eq_refl eq_refl Ho).
Defined.

Lemma diffFS_self_witness :
  DifferenceSpec alignedScript
  /\ snd (getPlistFiles sampleNew) = None
  /\ (forall filename,
        filename ∈ fst (getPlistFiles sampleNew) ->
        exists data, readFile sampleDiffer sampleNew filename = Ok data
                     /\ forall v, sampleDecode data = Ok v -> noNaN v)
  /\ diffFS alignedScript sampleSprintf sampleDecode sampleDiffer
       sampleNew sampleNew
     = Ok (true, ∅).
Proof.
  assert (snd (getPlistFiles sampleNew) = None) as Hw by (by vm_compute).
  assert (forall filename,
            filename ∈ fst (getPlistFiles sampleNew) ->
            exists data, readFile sampleDiffer sampleNew filename = Ok data
                         /\ forall v, sampleDecode data = Ok v -> noNaN v) as Hf.
  { intros filename Hin. apply getPlistFiles_elem in Hin as [Hin _].
    cbn in Hin. repeat (apply elem_of_cons in Hin as [Hin|Hin]).
    - injection Hin as ->. exists [4; 2]. split; [done|].
      intros v [= <-]. cbn; tauto.
    - injection Hin as ->. exists [1; 2]. split; [done|].
      intros v [= <-]. exact I.
    - injection Hin as ->. exists [6; 3; 2]. split; [done|].
      intros v [= <-]. cbn; tauto.
    - injection Hin as ->. exists [9; 9]. split; [done|].
      by intros v [=].
    - by apply elem_of_nil in Hin. }
  split; [exact alignedScript_spec|]. split; [exact Hw|]. split; [exact Hf|].
  exact (diffFS_self alignedScript sampleSprintf sampleDecode sampleDiffer
           sampleNew alignedScript_spec Hw Hf).
Defined.

Lemma root_scalar_changed_witness :
  typeOf (VUint 1) = typeOf (VUint 2)
  /\ differsHere true (VUint 1) (VUint 2) = true
  /\ cmp_Equal alignedScript (Some (VUint 1)) (Some (VUint 2)) (differOpts true)
       (mkReporter [] [])
     = (false,
        mkReporter [] [mkFileDiff ("{" +:+ gotype_String (typeOf (VUint 1)) +:+ "}")
                         (Some (VUint 1)) (Some (VUint 2))]).
Proof.
  split; [reflexivity|]. split; [reflexivity|].
  exact (root_scalar_changed alignedScript true (VUint 1) (VUint 2)
           eq_refl eq_refl).
Defined.

Lemma diffFS_Err_origin_witness :
  (forall X, reversedOrder X ≡ₚ elements X)
  /\ diffFS_in alignedScript sampleSprintf sampleDecode reversedOrder reversedOrder
       strictDiffer sampleUnreadable sampleNew
     = Err (ErrOther "input/output error")
  /\ (snd (getPlistFiles sampleUnreadable) = Some (ErrOther "input/output error")
      \/ snd (getPlistFiles sampleNew) = Some (ErrOther "input/output error")
      \/ exists filename,
           filename ∈ fst (getPlistFiles sampleUnreadable) ∪ fst (getPlistFiles sampleNew)
           /\ (ReadFile sampleUnreadable filename = Err (ErrOther "input/output error")
               \/ ReadFile sampleNew filename = Err (ErrOther "input/output error"))
           /\ ErrOther "input/output error" <> ErrNotExist
           /\ (ErrOther "input/output error" = ErrPermission ->
               IgnorePermissionError strictDiffer = false)).
Proof.
  assert (forall X, reversedOrder X ≡ₚ elements X) as Ho
    by (intros X; apply reverse_Permutation).
  assert (diffFS_in alignedScript sampleSprintf sampleDecode
            reversedOrder reversedOrder strictDiffer sampleUnreadable sampleNew
          = Err (ErrOther "input/output error")) as H
    by (vm_compute; reflexivity).
  split; [exact Ho|]. split; [exact H|].
  exact (diffFS_Err_origin alignedScript sampleSprintf sampleDecode
           reversedOrder reversedOrder strictDiffer sampleUnreadable sampleNew
           (ErrOther "input/output error") Ho Ho H).
Defined.

Lemma one_sided_file_keys_witness :
  sampleDecode [] = Ok (VDict [])
  /\ ReadFile sampleEmptyTree "n.plist" = Err ErrNotExist
  /\ ReadFile sampleOnlyNew "n.plist" = Ok [4; 7]
  /\ sampleDecode [4; 7] = Ok (VDict [("x", VUint 7)])
  /\ exists ks,
       Sorted slt ks /\ (forall k, k ∈ ks <-> is_Some (lookup k [("x", VUint 7)]))
       /\ fileDiffs alignedScript sampleDecode sampleDiffer [] [4; 7]
          = addedKeys [("x", VUint 7)] ks
       /\ (diffFSFilename alignedScript sampleSprintf sampleDecode sampleDiffer
             sampleEmptyTree sampleOnlyNew "n.plist" = Ok None
           <-> ks = []).
Proof.
  split; [reflexivity|]. split; [reflexivity|]. split; [reflexivity|].
  split; [reflexivity|].
  exact (one_sided_file_keys alignedScript sampleSprintf sampleDecode sampleDiffer
           sampleEmptyTree sampleOnlyNew "n.plist" [4; 7] [("x", VUint 7)]
           eq_refl eq_refl eq_refl eq_refl).
Defined.

Lemma run_timestamps_flag_witness :
  B sampleCliTimes <> ""
  /\ os_Stat sampleOSDates (A sampleCliTimes) = Ok (mkFileInfo false true)
  /\ os_ReadFile sampleOSDates (A sampleCliTimes) = Ok [2; 1]
  /\ os_Stat sampleOSDates (B sampleCliTimes) = Ok (mkFileInfo false true)
  /\ os_ReadFile sampleOSDates (B sampleCliTimes) = Ok [2; 3]
  /\ (forall m, keysOrder m ≡ₚ elements (dom m))
  /\ sampleDecode [2; 1] = Ok (VDate 1) /\ sampleDecode [2; 3] = Ok (VDate 3)
  /\ 1 <> 3
  /\ run_diff alignedScript sampleSprintf sampleDecode sampleOSDates keysOrder
       sampleCliTimes
     = Ok (if Timestamps sampleCliTimes
           then "single-file.plist:" +:+ nl
                +:+ (diffLine sampleSprintf "-" "{time.Time}" (VDate 1) +:+ nl
                     +:+ diffLine sampleSprintf "+" "{time.Time}" (VDate 3))
                +:+ nl +:+ nl +:+ nl
           else "").
Proof.
  assert (B sampleCliTimes <> "") as HB by done.
  assert (forall m, keysOrder m ≡ₚ elements (dom m)) as Ho by done.
  assert (1 <> 3) as Hne by done.
  split; [exact HB|]. split; [reflexivity|]. split; [reflexivity|].
  split; [reflexivity|]. split; [reflexivity|]. split; [exact Ho|].
  split; [reflexivity|]. split; [reflexivity|]. split; [exact Hne|].
  exact (run_timestamps_flag alignedScript sampleSprintf sampleDecode
           sampleOSDates keysOrder sampleCliTimes
           (mkFileInfo false true) (mkFileInfo false true) [2; 1] [2; 3] 1 3
           HB eq_refl eq_refl eq_refl eq_refl eq_refl eq_refl eq_refl eq_refl
           Ho eq_refl eq_refl Hne).
Defined.
